(** * aws-c-io: the socket channel handler and the URI parser

    A shallow embedding of [source/socket_channel_handler.c] and
    [source/uri.c].  The handler is stateful code that talks to three
    collaborators (the socket, the channel/slot framework and the event
    loop); it is embedded in a small state-and-log monad: every call into a
    collaborator is recorded as an [event], and what a collaborator answers
    is read from the [world].  The URI parser is embedded over a byte buffer
    with explicit cursors. *)

From Stdlib Require Import ZArith List Bool Lia Ascii.
From Stdlib Require String.
Import ListNotations.
Local Open Scope Z_scope.

(* ===================================================================== *)
(** * Part I: what both files take from aws-c-common                      *)
(* ===================================================================== *)

Definition AWS_OP_SUCCESS : Z := 0.
Definition AWS_OP_ERR : Z := -1.

(** [size_t] is taken as a 64-bit unsigned integer. *)
Definition SIZE_MAX : Z := 2 ^ 64 - 1.
Definition size_add (a b : Z) : Z := (a + b) mod (SIZE_MAX + 1).
Definition size_sub (a b : Z) : Z := (a - b) mod (SIZE_MAX + 1).

(** The enumerators of [aws/io/io.h] and [aws/common/error.h] and the build
    switch of [<assert.h>] that the two files use.  Their values are not in
    the sources, so every definition below is parametric in them. *)
Class build_constants := {
  NDEBUG : bool;
  AWS_IO_CHANNEL_ERROR_ERROR_CANT_ACCEPT_INPUT : Z;
  AWS_IO_READ_WOULD_BLOCK : Z;
  AWS_IO_SOCKET_CLOSED : Z;
  AWS_ERROR_MALFORMED_INPUT_STRING : Z;
  AWS_ERROR_OOM : Z;
  AWS_ERROR_LIST_EXCEEDS_MAX_SIZE : Z;
  sizeof_aws_uri : Z;
}.

Inductive aws_task_status := AWS_TASK_STATUS_RUN_READY | AWS_TASK_STATUS_CANCELED.
Inductive aws_channel_direction := AWS_CHANNEL_DIR_READ | AWS_CHANNEL_DIR_WRITE.
Inductive aws_io_message_type := AWS_IO_MESSAGE_APPLICATION_DATA.

(** The two functions the handler ever stores in the [fn] field of a
    [struct aws_task]. *)
Inductive task_fn := fn_s_read_task | fn_s_shutdown_task.

(** How a C call ends: it returns its [int], or the process is aborted by a
    failed [assert]. *)
Inductive call_result := Returns (rc : Z) | Aborts.

(* ===================================================================== *)
(** * Part II: socket_channel_handler.c, data                             *)
(* ===================================================================== *)

(** [struct aws_io_message], as far as the handler looks into it: the
    [message_data] buffer by capacity and length, and the optional
    completion callback (a function pointer, [None] when it is NULL). *)
Record aws_io_message := mk_message {
  message_id : nat;
  message_type : aws_io_message_type;
  message_capacity : Z;
  message_len : Z;
  on_completion : option nat;
}.

(** [struct socket_handler].  The [socket], [event_loop] and [slot] fields
    are back-references to the one socket, loop and slot of the [world]. *)
Record socket_handler := mk_socket_handler {
  write_queue : list aws_io_message;
  max_rw_size : Z;
  shutdown_err_code : Z;
  shutdown_in_progress : bool;
}.

(** What one call of [aws_socket_read] will answer. *)
Inductive read_result :=
| ReadOk (n : Z)        (* n bytes are ready *)
| ReadErr (code : Z).   (* the call fails and raises [code] *)

(** Every call the handler makes into a collaborator. *)
Inductive event :=
| EvAcquireMessage (id : nat) (size_hint : Z)
| EvReleaseMessage (id : nat)
| EvSocketRead (id : nat) (capacity : Z) (r : read_result)
| EvSendMessage (id : nat) (len : Z) (dir : aws_channel_direction) (err : Z)
| EvSocketWrite (id : nat) (len : Z) (rc : Z)
| EvOnCompletion (callback : nat) (id : nat) (error_code : Z)
| EvChannelShutdown (error_code : Z)
| EvScheduleTask (fn : task_fn) (run_at : Z)
| EvSocketShutdown (rc : Z)
| EvShutdownComplete (dir : aws_channel_direction) (error_code : Z) (abort : bool).

(** Modelled from the spec: the state of the handler's collaborators, next
    to the handler itself.  The socket primitive, the event loop and the
    channel framework are not among the sources; section 6 of the
    specification gives their contracts.  What each will answer is a field
    here: [socket_rx] scripts the successive answers of the non-blocking
    read, [send_message_errors] those of [slot_send_message] (0 accepts the
    message), [clock_error] is what reading the clock raises (0 when the
    clock is available), [socket_shutdown_error] and [socket_write_error]
    what the socket's shutdown and write raise. *)
Record world := mk_world {
  handler : socket_handler;
  downstream_read_window : Z;
  socket_open : bool;
  socket_rx : list read_result;
  socket_shutdown_error : Z;
  socket_write_error : Z;
  send_message_errors : list Z;
  clock_error : Z;
  clock_now : Z;
  schedule_task_rc : Z;
  shutdown_complete_rc : Z;
  pool_next_id : nat;
  last_error : Z;
}.

Definition with_handler (h : socket_handler) (w : world) : world :=
  mk_world h (downstream_read_window w) (socket_open w) (socket_rx w)
    (socket_shutdown_error w) (socket_write_error w) (send_message_errors w)
    (clock_error w) (clock_now w) (schedule_task_rc w) (shutdown_complete_rc w)
    (pool_next_id w) (last_error w).

Definition with_socket_open (b : bool) (w : world) : world :=
  mk_world (handler w) (downstream_read_window w) b (socket_rx w)
    (socket_shutdown_error w) (socket_write_error w) (send_message_errors w)
    (clock_error w) (clock_now w) (schedule_task_rc w) (shutdown_complete_rc w)
    (pool_next_id w) (last_error w).

Definition with_socket_rx (rx : list read_result) (w : world) : world :=
  mk_world (handler w) (downstream_read_window w) (socket_open w) rx
    (socket_shutdown_error w) (socket_write_error w) (send_message_errors w)
    (clock_error w) (clock_now w) (schedule_task_rc w) (shutdown_complete_rc w)
    (pool_next_id w) (last_error w).

Definition with_send_message_errors (l : list Z) (w : world) : world :=
  mk_world (handler w) (downstream_read_window w) (socket_open w) (socket_rx w)
    (socket_shutdown_error w) (socket_write_error w) l
    (clock_error w) (clock_now w) (schedule_task_rc w) (shutdown_complete_rc w)
    (pool_next_id w) (last_error w).

Definition with_pool_next_id (n : nat) (w : world) : world :=
  mk_world (handler w) (downstream_read_window w) (socket_open w) (socket_rx w)
    (socket_shutdown_error w) (socket_write_error w) (send_message_errors w)
    (clock_error w) (clock_now w) (schedule_task_rc w) (shutdown_complete_rc w)
    n (last_error w).

Definition with_last_error (e : Z) (w : world) : world :=
  mk_world (handler w) (downstream_read_window w) (socket_open w) (socket_rx w)
    (socket_shutdown_error w) (socket_write_error w) (send_message_errors w)
    (clock_error w) (clock_now w) (schedule_task_rc w) (shutdown_complete_rc w)
    (pool_next_id w) e.

Definition with_shutdown_in_progress (b : bool) (h : socket_handler) : socket_handler :=
  mk_socket_handler (write_queue h) (max_rw_size h) (shutdown_err_code h) b.

Definition with_shutdown_err_code (e : Z) (h : socket_handler) : socket_handler :=
  mk_socket_handler (write_queue h) (max_rw_size h) e (shutdown_in_progress h).

Definition with_write_queue (q : list aws_io_message) (h : socket_handler) : socket_handler :=
  mk_socket_handler q (max_rw_size h) (shutdown_err_code h) (shutdown_in_progress h).

(* ===================================================================== *)
(** * Part III: the state-and-log monad                                   *)
(* ===================================================================== *)

(** A computation takes the world, and gives its result, the new world and
    the events it caused, oldest first. *)
Definition M (A : Type) : Type := world -> A * world * list event.

Definition ret {A} (a : A) : M A := fun w => (a, w, []).

Definition bind {A B} (m : M A) (f : A -> M B) : M B :=
  fun w =>
    let '(a, w1, e1) := m w in
    let '(b, w2, e2) := f a w1 in
    (b, w2, e1 ++ e2).

Definition gets {A} (f : world -> A) : M A := fun w => (f w, w, []).
Definition modify (f : world -> world) : M unit := fun w => (tt, f w, []).
Definition emit (e : event) : M unit := fun w => (tt, w, [e]).

Definition value {A} (r : A * world * list event) : A := fst (fst r).
Definition final {A} (r : A * world * list event) : world := snd (fst r).
Definition events {A} (r : A * world * list event) : list event := snd r.

Declare Scope handler_scope.
Delimit Scope handler_scope with handler.
Notation "x <- c1 ;; c2" := (bind c1 (fun x => c2))
  (at level 100, c1 at next level, right associativity) : handler_scope.
Notation "c1 ;; c2" := (bind c1 (fun _ => c2))
  (at level 100, right associativity) : handler_scope.
Local Open Scope handler_scope.

(** C truth of an [int]. *)
Definition nonzero (z : Z) : bool := negb (z =? 0).

(* ===================================================================== *)
(** * Part IV: the collaborators                                          *)
(* ===================================================================== *)

Section Handler.
Context {K : build_constants}.

(** [aws_raise_error] of aws-c-common: stores the code as the thread's last
    error and returns [AWS_OP_ERR]. *)
Definition aws_raise_error (code : Z) : M Z :=
  modify (with_last_error code) ;; ret AWS_OP_ERR.

Definition aws_last_error : M Z := gets last_error.

(** Modelled from the spec: [slot_downstream_read_window(slot) -> size]. *)
Definition aws_channel_slot_downstream_read_window : M Z :=
  gets downstream_read_window.

(** Modelled from the spec: [acquire_message_from_pool(channel, kind,
    capacity) -> message]; the message comes back empty, with the capacity
    asked for and no completion callback. *)
Definition aws_channel_acquire_message_from_pool
    (type : aws_io_message_type) (size_hint : Z) : M aws_io_message :=
  id <- gets pool_next_id ;;
  modify (with_pool_next_id (S id)) ;;
  emit (EvAcquireMessage id size_hint) ;;
  ret (mk_message id type size_hint 0 None).

(** Modelled from the spec: [release_message_to_pool(channel, message)]. *)
Definition aws_channel_release_message_to_pool (message : aws_io_message) : M unit :=
  emit (EvReleaseMessage (message_id message)).

(** Modelled from the spec: non-blocking [read(buffer) -> bytes_read |
    would-block | error].  The next entry of [socket_rx] decides the call: at
    [ReadOk n] the socket copies as many of the [n] bytes as the free space
    of the buffer takes and stores that amount in [read]; at [ReadErr code]
    the call raises [code] and leaves [read] alone.  A socket with nothing
    scripted has nothing to deliver: the call would block. *)
Definition aws_socket_read (message : aws_io_message) (read : Z)
    : M (Z * aws_io_message * Z) :=
  rx <- gets socket_rx ;;
  let r := match rx with [] => ReadErr AWS_IO_READ_WOULD_BLOCK | r :: _ => r end in
  modify (with_socket_rx (tl rx)) ;;
  match r with
  | ReadOk n =>
      let room := message_capacity message - message_len message in
      let amount := Z.max 0 (Z.min n room) in
      emit (EvSocketRead (message_id message) room (ReadOk amount)) ;;
      ret (AWS_OP_SUCCESS,
           mk_message (message_id message) (message_type message)
             (message_capacity message) (message_len message + amount)
             (on_completion message),
           amount)
  | ReadErr code =>
      emit (EvSocketRead (message_id message)
              (message_capacity message - message_len message) (ReadErr code)) ;;
      rc <- aws_raise_error code ;;
      ret (rc, message, read)
  end.

(** Modelled from the spec: [slot_send_message(slot, message, direction) ->
    ok | error].  The next entry of [send_message_errors] decides the call;
    with nothing scripted the neighbour accepts. *)
Definition aws_channel_slot_send_message
    (message : aws_io_message) (dir : aws_channel_direction) : M Z :=
  errs <- gets send_message_errors ;;
  let err := match errs with [] => 0 | e :: _ => e end in
  modify (with_send_message_errors (tl errs)) ;;
  emit (EvSendMessage (message_id message) (message_len message) dir err) ;;
  if nonzero err then aws_raise_error err else ret AWS_OP_SUCCESS.

(** Modelled from the spec: [channel_shutdown(channel, error_code)]. *)
Definition aws_channel_shutdown (error_code : Z) : M unit :=
  emit (EvChannelShutdown error_code).

(** Modelled from the spec: [current_clock_time() -> time | error].  The
    result is the return code and the value left in [now]. *)
Definition aws_channel_current_clock_time (now : Z) : M (Z * Z) :=
  err <- gets clock_error ;;
  if nonzero err then
    rc <- aws_raise_error err ;; ret (rc, now)
  else
    t <- gets clock_now ;; ret (AWS_OP_SUCCESS, t).

(** Modelled from the spec: [schedule_task(task, due_time)].  The task's
    [arg] is always the one handler of the world. *)
Definition aws_channel_schedule_task (fn : task_fn) (run_at : Z) : M Z :=
  emit (EvScheduleTask fn run_at) ;;
  gets schedule_task_rc.

(** Modelled from the spec: the socket's [is_open() -> bool]. *)
Definition aws_socket_is_open : M bool := gets socket_open.

(** Modelled from the spec: the socket's [shutdown()].  The C function
    returns an [int]; a socket that shuts down is no longer open. *)
Definition aws_socket_shutdown : M Z :=
  err <- gets socket_shutdown_error ;;
  emit (EvSocketShutdown err) ;;
  if nonzero err then aws_raise_error err
  else modify (with_socket_open false) ;; ret AWS_OP_SUCCESS.

(** Modelled from the spec: the socket's [write(bytes, completion_callback)
    -> accepted | error]; the completion is delivered later, by the
    socket. *)
Definition aws_socket_write (message : aws_io_message) : M Z :=
  err <- gets socket_write_error ;;
  emit (EvSocketWrite (message_id message) (message_len message) err) ;;
  if nonzero err then aws_raise_error err else ret AWS_OP_SUCCESS.

(** Modelled from the spec: [slot_on_handler_shutdown_complete(slot,
    direction, error_code, abort)]. *)
Definition aws_channel_slot_on_handler_shutdown_complete
    (dir : aws_channel_direction) (error_code : Z) (abort : bool) : M Z :=
  emit (EvShutdownComplete dir error_code abort) ;;
  gets shutdown_complete_rc.

(** Calling through the [on_completion] function pointer of a message. *)
Definition call_on_completion (callback : nat) (message : aws_io_message)
    (error_code : Z) : M unit :=
  emit (EvOnCompletion callback (message_id message) error_code).

(* ===================================================================== *)
(** * Part V: socket_channel_handler.c, functions                         *)
(* ===================================================================== *)

(** [s_socket_process_read_message]: [assert(0)] aborts unless the file was
    compiled with [NDEBUG]. *)
Definition s_socket_process_read_message (message : aws_io_message) : M call_result :=
  if NDEBUG then
    rc <- aws_raise_error AWS_IO_CHANNEL_ERROR_ERROR_CANT_ACCEPT_INPUT ;;
    ret (Returns rc)
  else ret Aborts.

(** [s_on_socket_write_complete]; [user_data] is the message, or NULL. *)
Definition s_on_socket_write_complete (error_code : Z)
    (user_data : option aws_io_message) : M unit :=
  match user_data with
  | Some message =>
      match on_completion message with
      | Some callback => call_on_completion callback message error_code
      | None => ret tt
      end ;;
      aws_channel_release_message_to_pool message ;;
      if nonzero error_code then aws_channel_shutdown error_code else ret tt
  | None => ret tt
  end.

(** [s_socket_process_write_message]. *)
Definition s_socket_process_write_message (message : aws_io_message) : M Z :=
  rc <- aws_socket_write message ;;
  if nonzero rc then ret AWS_OP_ERR else ret AWS_OP_SUCCESS.

(** How the [while] loop of [s_do_read] is left: through the [return]
    after a failed send, or by falling out of it ([break], or the loop
    condition) with the local [total_read]. *)
Inductive loop_exit := LoopReturned | LoopLeft (total_read : Z).

(** The [while (total_read < max_to_read)] loop of [s_do_read].  Every turn
    that goes round again has used up one entry of [socket_rx], so the
    recursion is on a bound for their number; [None] is an exhausted
    bound. *)
Fixpoint s_do_read_loop (fuel : nat) (max_to_read total_read read : Z)
    : M (option loop_exit) :=
  if total_read <? max_to_read then
    match fuel with
    | O => ret None
    | S fuel' =>
        message <- aws_channel_acquire_message_from_pool
                     AWS_IO_MESSAGE_APPLICATION_DATA max_to_read ;;
        r <- aws_socket_read message read ;;
        let '(rc, message, read) := r in
        if nonzero rc then
          aws_channel_release_message_to_pool message ;;
          ret (Some (LoopLeft total_read))
        else
          let total_read := size_add total_read read in
          rc <- aws_channel_slot_send_message message AWS_CHANNEL_DIR_READ ;;
          if nonzero rc then
            aws_channel_release_message_to_pool message ;;
            ret (Some LoopReturned)
          else s_do_read_loop fuel' max_to_read total_read read
    end
  else ret (Some (LoopLeft total_read)).

(** [s_do_read]. *)
Definition s_do_read : M unit :=
  downstream_window <- aws_channel_slot_downstream_read_window ;;
  max_rw <- gets (fun w => max_rw_size (handler w)) ;;
  let max_to_read :=
    if downstream_window >? max_rw then max_rw else downstream_window in
  if nonzero max_to_read then
    rx <- gets socket_rx ;;
    exit <- s_do_read_loop (S (List.length rx)) max_to_read 0 0 ;;
    match exit with
    | None | Some LoopReturned => ret tt
    | Some (LoopLeft total_read) =>
        last_error <- aws_last_error ;;
        in_progress <- gets (fun w => shutdown_in_progress (handler w)) ;;
        if total_read <? max_to_read then
          if negb (last_error =? AWS_IO_READ_WOULD_BLOCK) && negb in_progress then
            aws_channel_shutdown last_error
          else ret tt
        else
          if negb in_progress && (total_read =? max_rw) then
            r <- aws_channel_current_clock_time 0 ;;
            let '(rc, now) := r in
            if negb (nonzero rc) then
              aws_channel_schedule_task fn_s_read_task now ;; ret tt
            else ret tt
          else ret tt
    end
  else ret tt.

(** [s_on_readable_notification]. *)
Definition s_on_readable_notification (error_code : Z) : M unit :=
  if negb (nonzero error_code) then s_do_read
  else
    in_progress <- gets (fun w => shutdown_in_progress (handler w)) ;;
    if negb in_progress then aws_channel_shutdown error_code else ret tt.

(** [s_read_task]. *)
Definition s_read_task (status : aws_task_status) : M unit :=
  match status with
  | AWS_TASK_STATUS_RUN_READY => s_do_read
  | AWS_TASK_STATUS_CANCELED => ret tt
  end.

(** [socket_increment_read_window]. *)
Definition socket_increment_read_window (size : Z) : M Z :=
  in_progress <- gets (fun w => shutdown_in_progress (handler w)) ;;
  if negb in_progress then
    r <- aws_channel_current_clock_time 0 ;;
    let '(rc, now) := r in
    if negb (nonzero rc) then aws_channel_schedule_task fn_s_read_task now
    else ret AWS_OP_ERR
  else ret AWS_OP_SUCCESS.

(** [s_shutdown_task]: the status is not looked at. *)
Definition s_shutdown_task (status : aws_task_status) : M unit :=
  err <- gets (fun w => shutdown_err_code (handler w)) ;;
  aws_channel_slot_on_handler_shutdown_complete AWS_CHANNEL_DIR_WRITE err false ;;
  ret tt.

(** The [while (!aws_linked_list_empty(&write_queue))] loop of
    [s_socket_shutdown]: each turn pops the front of the queue and stores
    the shorter queue back in the handler. *)
Fixpoint s_drain_write_queue (queue : list aws_io_message) : M unit :=
  match queue with
  | [] => ret tt
  | message :: rest =>
      modify (fun w => with_handler (with_write_queue rest (handler w)) w) ;;
      match on_completion message with
      | Some callback => call_on_completion callback message AWS_IO_SOCKET_CLOSED
      | None => ret tt
      end ;;
      aws_channel_release_message_to_pool message ;;
      s_drain_write_queue rest
  end.

(** [s_socket_shutdown]. *)
Definition s_socket_shutdown (dir : aws_channel_direction) (error_code : Z)
    (abort : bool) : M Z :=
  modify (fun w => with_handler (with_shutdown_in_progress true (handler w)) w) ;;
  match dir with
  | AWS_CHANNEL_DIR_READ =>
      open <- aws_socket_is_open ;;
      rc <- (if abort && open then aws_socket_shutdown else ret AWS_OP_SUCCESS) ;;
      if nonzero rc then ret AWS_OP_ERR
      else aws_channel_slot_on_handler_shutdown_complete dir error_code abort
  | AWS_CHANNEL_DIR_WRITE =>
      queue <- gets (fun w => write_queue (handler w)) ;;
      s_drain_write_queue queue ;;
      open <- aws_socket_is_open ;;
      (if open then aws_socket_shutdown ;; ret tt else ret tt) ;;
      r <- aws_channel_current_clock_time 0 ;;
      let '(rc, now) := r in
      if nonzero rc then ret AWS_OP_ERR
      else
        modify (fun w => with_handler (with_shutdown_err_code error_code (handler w)) w) ;;
        aws_channel_schedule_task fn_s_shutdown_task now
  end.

(** [socket_get_current_window_size]. *)
Definition socket_get_current_window_size : M Z := ret SIZE_MAX.

(** Running a task of the event loop: the loop calls the stored [fn]. *)
Definition run_task (fn : task_fn) (status : aws_task_status) : M unit :=
  match fn with
  | fn_s_read_task => s_read_task status
  | fn_s_shutdown_task => s_shutdown_task status
  end.

(** The calls that reach the handler: the socket's two callbacks, the
    tasks the event loop runs, and the entries of the handler's vtable. *)
Inductive handler_call :=
| CallReadableNotification (error_code : Z)
| CallWriteComplete (error_code : Z) (user_data : option aws_io_message)
| CallTask (fn : task_fn) (status : aws_task_status)
| CallProcessReadMessage (message : aws_io_message)
| CallProcessWriteMessage (message : aws_io_message)
| CallIncrementReadWindow (size : Z)
| CallShutdown (dir : aws_channel_direction) (error_code : Z) (abort : bool).

Definition run_call (c : handler_call) : M call_result :=
  match c with
  | CallReadableNotification error_code =>
      s_on_readable_notification error_code ;; ret (Returns 0)
  | CallWriteComplete error_code user_data =>
      s_on_socket_write_complete error_code user_data ;; ret (Returns 0)
  | CallTask fn status => run_task fn status ;; ret (Returns 0)
  | CallProcessReadMessage message => s_socket_process_read_message message
  | CallProcessWriteMessage message =>
      rc <- s_socket_process_write_message message ;; ret (Returns rc)
  | CallIncrementReadWindow size =>
      rc <- socket_increment_read_window size ;; ret (Returns rc)
  | CallShutdown dir error_code abort =>
      rc <- s_socket_shutdown dir error_code abort ;; ret (Returns rc)
  end.

(** A history of calls, one after the other on the event-loop thread; a
    call that aborts the process ends the history. *)
Fixpoint run_calls (cs : list handler_call) : M call_result :=
  match cs with
  | [] => ret (Returns 0)
  | c :: rest =>
      r <- run_call c ;;
      match r with
      | Aborts => ret Aborts
      | Returns _ => run_calls rest
      end
  end.

End Handler.

(* ===================================================================== *)
(** * Part VI: uri.c, data                                                *)
(* ===================================================================== *)

(** Where a [uint8_t *] of the parser can point: into the heap copy of the
    uri string, or into the string literal [s_default_path]. *)
Inductive region := URI_STR | DEFAULT_PATH.

(** A pointer is NULL ([None]) or a region and an offset in it. *)
Definition pointer : Type := option (region * Z).

Record aws_byte_cursor := mk_cursor {
  cur_len : Z;
  cur_ptr : pointer;
}.

(** [struct aws_byte_buf]: [buffer] is the block it owns, NULL when it owns
    none; [buf_allocator] tells whether the allocator field is set. *)
Record aws_byte_buf := mk_buf {
  buf_len : Z;
  buffer : option (list ascii);
  capacity : Z;
  buf_allocator : bool;
}.

(** [struct aws_uri], with the fields [uri.c] reads and writes. *)
Record aws_uri := mk_uri {
  self_size : Z;
  allocator : bool;
  uri_str : aws_byte_buf;
  scheme : aws_byte_cursor;
  authority : aws_byte_cursor;
  host_name : aws_byte_cursor;
  port : Z;
  path : aws_byte_cursor;
  query_string : aws_byte_cursor;
  path_and_query : aws_byte_cursor;
}.

Definition zero_cursor : aws_byte_cursor := mk_cursor 0 None.
Definition zero_buf : aws_byte_buf := mk_buf 0 None 0 false.

(** What [AWS_ZERO_STRUCT] leaves of a [struct aws_uri]. *)
Definition zero_uri : aws_uri :=
  mk_uri 0 false zero_buf zero_cursor zero_cursor zero_cursor 0
    zero_cursor zero_cursor zero_cursor.

Inductive parser_state :=
| ON_SCHEME | ON_AUTHORITY | ON_PATH | ON_QUERY_STRING | FINISHED | ERROR.

(** The value of the enumerator, for [parser.state < FINISHED]. *)
Definition state_rank (s : parser_state) : Z :=
  match s with
  | ON_SCHEME => 0 | ON_AUTHORITY => 1 | ON_PATH => 2
  | ON_QUERY_STRING => 3 | FINISHED => 4 | ERROR => 5
  end.

(** What the parser works on: [struct uri_parser], the cursor [str] the
    state functions advance, the thread's last error, and the allocator's
    count of blocks handed out and not yet released. *)
Record parse_ctx := mk_ctx {
  uri : aws_uri;
  state : parser_state;
  str : aws_byte_cursor;
  raised : Z;
  live_blocks : nat;
}.

Definition set_uri (u : aws_uri) (c : parse_ctx) : parse_ctx :=
  mk_ctx u (state c) (str c) (raised c) (live_blocks c).
Definition set_state (s : parser_state) (c : parse_ctx) : parse_ctx :=
  mk_ctx (uri c) s (str c) (raised c) (live_blocks c).
Definition set_str (s : aws_byte_cursor) (c : parse_ctx) : parse_ctx :=
  mk_ctx (uri c) (state c) s (raised c) (live_blocks c).
Definition set_raised (e : Z) (c : parse_ctx) : parse_ctx :=
  mk_ctx (uri c) (state c) (str c) e (live_blocks c).
Definition set_live_blocks (n : nat) (c : parse_ctx) : parse_ctx :=
  mk_ctx (uri c) (state c) (str c) (raised c) n.

Definition set_scheme (x : aws_byte_cursor) (u : aws_uri) : aws_uri :=
  mk_uri (self_size u) (allocator u) (uri_str u) x (authority u) (host_name u)
    (port u) (path u) (query_string u) (path_and_query u).
Definition set_authority (x : aws_byte_cursor) (u : aws_uri) : aws_uri :=
  mk_uri (self_size u) (allocator u) (uri_str u) (scheme u) x (host_name u)
    (port u) (path u) (query_string u) (path_and_query u).
Definition set_host_name (x : aws_byte_cursor) (u : aws_uri) : aws_uri :=
  mk_uri (self_size u) (allocator u) (uri_str u) (scheme u) (authority u) x
    (port u) (path u) (query_string u) (path_and_query u).
Definition set_port (x : Z) (u : aws_uri) : aws_uri :=
  mk_uri (self_size u) (allocator u) (uri_str u) (scheme u) (authority u)
    (host_name u) x (path u) (query_string u) (path_and_query u).
Definition set_path (x : aws_byte_cursor) (u : aws_uri) : aws_uri :=
  mk_uri (self_size u) (allocator u) (uri_str u) (scheme u) (authority u)
    (host_name u) (port u) x (query_string u) (path_and_query u).
Definition set_query_string (x : aws_byte_cursor) (u : aws_uri) : aws_uri :=
  mk_uri (self_size u) (allocator u) (uri_str u) (scheme u) (authority u)
    (host_name u) (port u) (path u) x (path_and_query u).
Definition set_path_and_query (x : aws_byte_cursor) (u : aws_uri) : aws_uri :=
  mk_uri (self_size u) (allocator u) (uri_str u) (scheme u) (authority u)
    (host_name u) (port u) (path u) (query_string u) x.
Definition set_uri_str (x : aws_byte_buf) (u : aws_uri) : aws_uri :=
  mk_uri (self_size u) (allocator u) x (scheme u) (authority u)
    (host_name u) (port u) (path u) (query_string u) (path_and_query u).

Definition UINT16_MAX : Z := 65535.

(* ===================================================================== *)
(** * Part VII: uri.c, the C library and aws-c-common                     *)
(* ===================================================================== *)

(** The bytes of a region.  [beyond] is the byte that follows the heap copy
    of the uri string in memory: the copy has no terminator, and
    [s_parse_scheme] looks one byte past a colon. *)
Definition region_bytes (mem : list ascii) (r : region) : list ascii :=
  match r with
  | URI_STR => mem
  | DEFAULT_PATH => ["/"%char; zero]
  end.

Definition load (mem : list ascii) (beyond : ascii) (r : region) (off : Z) : ascii :=
  if off <? 0 then beyond
  else nth (Z.to_nat off) (region_bytes mem r) beyond.

(** [memchr(ptr, c, len)]. *)
Fixpoint memchr_from (mem : list ascii) (beyond : ascii) (r : region)
    (off : Z) (c : ascii) (n : nat) : pointer :=
  match n with
  | O => None
  | S n' =>
      if Ascii.eqb (load mem beyond r off) c then Some (r, off)
      else memchr_from mem beyond r (off + 1) c n'
  end.

Definition memchr (mem : list ascii) (beyond : ascii) (p : pointer)
    (c : ascii) (len : Z) : pointer :=
  match p with
  | None => None
  | Some (r, off) => memchr_from mem beyond r off c (Z.to_nat len)
  end.

(** [p + n] and [p - q] on pointers. *)
Definition ptr_add (p : pointer) (n : Z) : pointer :=
  match p with
  | None => None
  | Some (r, off) => Some (r, off + n)
  end.

Definition ptr_diff (p q : pointer) : Z :=
  match p, q with
  | Some (_, a), Some (_, b) => a - b
  | Some (_, a), None => a
  | None, Some (_, b) => - b
  | None, None => 0
  end.

Definition deref (mem : list ascii) (beyond : ascii) (p : pointer) : ascii :=
  match p with
  | None => beyond
  | Some (r, off) => load mem beyond r off
  end.

Definition is_null (p : pointer) : bool :=
  match p with None => true | Some _ => false end.

(** [aws_byte_cursor_advance] of aws-c-common: the first [len] bytes as a
    cursor, and the cursor moved past them; a request for more than the
    cursor holds (or for more than half the address space) gives the empty
    cursor and moves nothing. *)
Definition aws_byte_cursor_advance (cursor : aws_byte_cursor) (len : Z)
    : aws_byte_cursor * aws_byte_cursor :=
  if (cur_len cursor >? Z.shiftr SIZE_MAX 1) || (len >? Z.shiftr SIZE_MAX 1)
     || (len >? cur_len cursor)
  then (zero_cursor, cursor)
  else (mk_cursor len (cur_ptr cursor),
        mk_cursor (cur_len cursor - len) (ptr_add (cur_ptr cursor) len)).

(** [isdigit] and [atoi] of the C library, the latter on a buffer that
    holds digits only. *)
Definition isdigit (c : ascii) : bool :=
  (48 <=? Z.of_nat (nat_of_ascii c)) && (Z.of_nat (nat_of_ascii c) <=? 57).

Fixpoint atoi_digits (acc : Z) (l : list ascii) : Z :=
  match l with
  | [] => acc
  | c :: rest =>
      if isdigit c then atoi_digits (10 * acc + (Z.of_nat (nat_of_ascii c) - 48)) rest
      else acc
  end.

(** The [n] bytes from a pointer on. *)
Fixpoint load_bytes (mem : list ascii) (beyond : ascii) (r : region)
    (off : Z) (n : nat) : list ascii :=
  match n with
  | O => []
  | S n' => load mem beyond r off :: load_bytes mem beyond r (off + 1) n'
  end.

Definition bytes_at (mem : list ascii) (beyond : ascii) (p : pointer) (n : Z)
    : list ascii :=
  match p with
  | None => []
  | Some (r, off) => load_bytes mem beyond r off (Z.to_nat n)
  end.

(* ===================================================================== *)
(** * Part VIII: uri.c, functions                                         *)
(* ===================================================================== *)

Section Uri.
Context {K : build_constants}.

(** The byte that lies after the heap copy of the uri string. *)
Variable beyond : ascii.

(** The memory the cursors of a context point into. *)
Definition mem_of (c : parse_ctx) : list ascii :=
  match buffer (uri_str (uri c)) with
  | Some bytes => bytes
  | None => []
  end.

Definition uri_raise_error (code : Z) (c : parse_ctx) : parse_ctx :=
  set_raised code c.

(** [s_parse_scheme]. *)
Definition s_parse_scheme (c : parse_ctx) : parse_ctx :=
  let mem := mem_of c in
  let location_of_colon :=
    memchr mem beyond (cur_ptr (str c)) ":"%char (cur_len (str c)) in
  if is_null location_of_colon then set_state ON_AUTHORITY c
  else if (ptr_diff location_of_colon (cur_ptr (str c)) <? cur_len (str c))
          && negb (Ascii.eqb (deref mem beyond (ptr_add location_of_colon 1)) "/"%char)
  then set_state ON_AUTHORITY c
  else
    let scheme_len := ptr_diff location_of_colon (cur_ptr (str c)) in
    let '(sch, rest) := aws_byte_cursor_advance (str c) scheme_len in
    let c := set_str rest (set_uri (set_scheme sch (uri c)) c) in
    let at_ i := deref mem beyond (ptr_add (cur_ptr (str c)) i) in
    if (cur_len (str c) <? 3)
       || negb (Ascii.eqb (at_ 0) ":"%char)
       || negb (Ascii.eqb (at_ 1) "/"%char)
       || negb (Ascii.eqb (at_ 2) "/"%char)
    then set_state ERROR (uri_raise_error AWS_ERROR_MALFORMED_INPUT_STRING c)
    else
      let '(_, rest) := aws_byte_cursor_advance (str c) 3 in
      set_state ON_AUTHORITY (set_str rest c).

(** The second half of [s_parse_authority]: host name and port. *)
Definition s_parse_authority_port (c : parse_ctx) : parse_ctx :=
  let mem := mem_of c in
  let authority_parse_csr := authority (uri c) in
  if nonzero (cur_len authority_parse_csr) then
    let port_delim :=
      memchr mem beyond (cur_ptr authority_parse_csr) ":"%char
        (cur_len authority_parse_csr) in
    if is_null port_delim then
      set_uri (set_host_name (authority (uri c)) (set_port 0 (uri c))) c
    else
      let host :=
        mk_cursor (ptr_diff port_delim (cur_ptr authority_parse_csr))
          (cur_ptr authority_parse_csr) in
      let c := set_uri (set_host_name host (uri c)) c in
      let port_len :=
        size_sub (size_sub (cur_len (authority (uri c))) (cur_len (host_name (uri c)))) 1 in
      let port_delim := ptr_add port_delim 1 in
      let digits := bytes_at mem beyond port_delim port_len in
      if negb (forallb isdigit digits) then
        uri_raise_error AWS_ERROR_MALFORMED_INPUT_STRING (set_state ERROR c)
      else if port_len >? 5 then
        uri_raise_error AWS_ERROR_MALFORMED_INPUT_STRING (set_state ERROR c)
      else
        let port_int := atoi_digits 0 digits in
        if port_int >? UINT16_MAX then
          uri_raise_error AWS_ERROR_MALFORMED_INPUT_STRING (set_state ERROR c)
        else set_uri (set_port (port_int mod (UINT16_MAX + 1)) (uri c)) c
  else c.

(** [s_parse_authority]. *)
Definition s_parse_authority (c : parse_ctx) : parse_ctx :=
  let mem := mem_of c in
  let location_of_slash :=
    memchr mem beyond (cur_ptr (str c)) "/"%char (cur_len (str c)) in
  let location_of_qmark :=
    memchr mem beyond (cur_ptr (str c)) "?"%char (cur_len (str c)) in
  if is_null location_of_slash && is_null location_of_qmark
     && nonzero (cur_len (str c))
  then
    let u := set_authority (mk_cursor (cur_len (str c)) (cur_ptr (str c))) (uri c) in
    let u := set_path (mk_cursor 1 (Some (DEFAULT_PATH, 0))) u in
    let u := set_path_and_query (path u) u in
    let c := set_state FINISHED (set_uri u c) in
    let '(_, rest) := aws_byte_cursor_advance (str c) (cur_len (authority (uri c))) in
    s_parse_authority_port (set_str rest c)
  else if negb (nonzero (cur_len (str c))) then
    uri_raise_error AWS_ERROR_MALFORMED_INPUT_STRING (set_state ERROR c)
  else
    let end_ := ptr_add (cur_ptr (str c)) (cur_len (str c)) in
    let '(c, end_) :=
      if negb (is_null location_of_slash) then (set_state ON_PATH c, location_of_slash)
      else if negb (is_null location_of_qmark) then
        (set_state ON_QUERY_STRING c, location_of_qmark)
      else (c, end_) in
    let '(auth, rest) :=
      aws_byte_cursor_advance (str c) (ptr_diff end_ (cur_ptr (str c))) in
    s_parse_authority_port (set_str rest (set_uri (set_authority auth (uri c)) c)).

(** [s_parse_path]. *)
Definition s_parse_path (c : parse_ctx) : parse_ctx :=
  let mem := mem_of c in
  let c := set_uri (set_path_and_query (str c) (uri c)) c in
  let location_of_q_mark :=
    memchr mem beyond (cur_ptr (str c)) "?"%char (cur_len (str c)) in
  if is_null location_of_q_mark then
    let c := set_uri (set_path (mk_cursor (cur_len (str c)) (cur_ptr (str c))) (uri c)) c in
    let c := set_state FINISHED c in
    let '(_, rest) := aws_byte_cursor_advance (str c) (cur_len (path (uri c))) in
    set_str rest c
  else if negb (nonzero (cur_len (str c))) then
    uri_raise_error AWS_ERROR_MALFORMED_INPUT_STRING (set_state ERROR c)
  else
    let p := mk_cursor (ptr_diff location_of_q_mark (cur_ptr (str c))) (cur_ptr (str c)) in
    let c := set_uri (set_path p (uri c)) c in
    let '(_, rest) := aws_byte_cursor_advance (str c) (cur_len (path (uri c))) in
    set_state ON_QUERY_STRING (set_str rest c).

(** [s_parse_query_string]. *)
Definition s_parse_query_string (c : parse_ctx) : parse_ctx :=
  let c :=
    if is_null (cur_ptr (path_and_query (uri c)))
    then set_uri (set_path_and_query (str c) (uri c)) c
    else c in
  let c :=
    if nonzero (cur_len (str c)) then
      set_uri (set_query_string
                 (mk_cursor (size_sub (cur_len (str c)) 1) (ptr_add (cur_ptr (str c)) 1))
                 (uri c)) c
    else c in
  let '(_, rest) :=
    aws_byte_cursor_advance (str c) (size_add (cur_len (query_string (uri c))) 1) in
  set_state FINISHED (set_str rest c).

(** The table [s_states]; it has no entry for [FINISHED] and [ERROR], and
    the loop never indexes it there. *)
Definition s_states (s : parser_state) : parse_ctx -> parse_ctx :=
  match s with
  | ON_SCHEME => s_parse_scheme
  | ON_AUTHORITY => s_parse_authority
  | ON_PATH => s_parse_path
  | ON_QUERY_STRING => s_parse_query_string
  | FINISHED | ERROR => fun c => c
  end.

(** The [while (parser.state < FINISHED)] loop; [None] when the bound on
    its turns is used up. *)
Fixpoint s_parser_loop (fuel : nat) (c : parse_ctx) : option parse_ctx :=
  if state_rank (state c) <? state_rank FINISHED then
    match fuel with
    | O => None
    | S fuel' => s_parser_loop fuel' (s_states (state c) c)
    end
  else Some c.

(** [aws_byte_buf_clean_up] of aws-c-common: gives the block back to the
    allocator when the buffer has both, and zeroes the buffer. *)
Definition aws_byte_buf_clean_up (c : parse_ctx) : parse_ctx :=
  let b := uri_str (uri c) in
  let c :=
    if buf_allocator b && negb (match buffer b with None => true | Some _ => false end)
    then set_live_blocks (Nat.pred (live_blocks c)) c
    else c in
  set_uri (set_uri_str zero_buf (uri c)) c.

(** [aws_byte_buf_init_copy_from_cursor] of aws-c-common: a fresh block
    holding a copy of the bytes; or, when the allocator has no memory
    ([alloc_ok] is false), [AWS_OP_ERR] with [AWS_ERROR_OOM] raised, as
    [aws_mem_acquire] raises it. *)
Definition aws_byte_buf_init_copy_from_cursor (alloc_ok : bool)
    (src : list ascii) (c : parse_ctx) : Z * parse_ctx :=
  if alloc_ok then
    let len := Z.of_nat (List.length src) in
    (AWS_OP_SUCCESS,
     set_live_blocks (S (live_blocks c))
       (set_uri (set_uri_str (mk_buf len (Some src) len true) (uri c)) c))
  else (AWS_OP_ERR, uri_raise_error AWS_ERROR_OOM c).

Definition aws_byte_cursor_from_buf (b : aws_byte_buf) : aws_byte_cursor :=
  mk_cursor (buf_len b)
    (match buffer b with None => None | Some _ => Some (URI_STR, 0) end).

(** [s_init_from_uri_str].  Four turns of the loop are always enough (see
    [s_parser_loop_total] below); the result is [None] were they not. *)
Definition s_init_from_uri_str (c : parse_ctx) : option (Z * parse_ctx) :=
  let c := set_state ON_SCHEME c in
  let c := set_str (aws_byte_cursor_from_buf (uri_str (uri c))) c in
  match s_parser_loop 4 c with
  | None => None
  | Some c =>
      match state c with
      | FINISHED => Some (AWS_OP_SUCCESS, c)
      | _ =>
          let c := aws_byte_buf_clean_up c in
          Some (AWS_OP_ERR, set_uri zero_uri c)
      end
  end.

(** [aws_uri_init_parse]; [uri_str] is the byte range of the cursor
    argument. *)
Definition aws_uri_init_parse (alloc_ok : bool) (uri_str : list ascii)
    (c : parse_ctx) : option (Z * parse_ctx) :=
  let c := set_uri zero_uri c in
  let c := set_uri (mk_uri sizeof_aws_uri true zero_buf zero_cursor zero_cursor
                      zero_cursor 0 zero_cursor zero_cursor zero_cursor) c in
  let '(rc, c) := aws_byte_buf_init_copy_from_cursor alloc_ok uri_str c in
  if nonzero rc then Some (AWS_OP_ERR, c)
  else s_init_from_uri_str c.

End Uri.

(** Sample values of the build constants, for running the definitions. *)
Definition release_build : build_constants :=
  {| NDEBUG := true;
     AWS_IO_CHANNEL_ERROR_ERROR_CANT_ACCEPT_INPUT := 1024;
     AWS_IO_READ_WOULD_BLOCK := 1043;
     AWS_IO_SOCKET_CLOSED := 1047;
     AWS_ERROR_MALFORMED_INPUT_STRING := 30;
     AWS_ERROR_OOM := 1;
     AWS_ERROR_LIST_EXCEEDS_MAX_SIZE := 16;
     sizeof_aws_uri := 184 |}.

Definition debug_build : build_constants :=
  {| NDEBUG := false;
     AWS_IO_CHANNEL_ERROR_ERROR_CANT_ACCEPT_INPUT := 1024;
     AWS_IO_READ_WOULD_BLOCK := 1043;
     AWS_IO_SOCKET_CLOSED := 1047;
     AWS_ERROR_MALFORMED_INPUT_STRING := 30;
     AWS_ERROR_OOM := 1;
     AWS_ERROR_LIST_EXCEEDS_MAX_SIZE := 16;
     sizeof_aws_uri := 184 |}.

(* ===================================================================== *)
(** * Part IX: what can be observed of a run                              *)
(* ===================================================================== *)

(** The value of [max_to_read] that [s_do_read] computes in a world. *)
Definition max_to_read (w : world) : Z :=
  if downstream_read_window w >? max_rw_size (handler w)
  then max_rw_size (handler w) else downstream_read_window w.

(** The [total_read] counter of [s_do_read], recomputed from the socket
    reads of a log: it starts at [total] and adds, as [size_t], what each
    successful read delivered. *)
Definition count_read (total : Z) (e : event) : Z :=
  match e with
  | EvSocketRead _ _ (ReadOk n) => size_add total n
  | _ => total
  end.

Definition total_read_from (total : Z) (evs : list event) : Z :=
  fold_left count_read evs total.

Definition total_read_of (evs : list event) : Z := total_read_from 0 evs.

(** The bytes the socket delivered, as a plain sum. *)
Fixpoint bytes_read (evs : list event) : Z :=
  match evs with
  | [] => 0
  | EvSocketRead _ _ (ReadOk n) :: rest => n + bytes_read rest
  | _ :: rest => bytes_read rest
  end.

(** The bytes handed to the upstream neighbour. *)
Fixpoint bytes_forwarded (evs : list event) : Z :=
  match evs with
  | [] => 0
  | EvSendMessage _ len AWS_CHANNEL_DIR_READ 0 :: rest => len + bytes_forwarded rest
  | _ :: rest => bytes_forwarded rest
  end.

(** The sizes asked of the pool, in order. *)
Fixpoint acquired_sizes (evs : list event) : list Z :=
  match evs with
  | [] => []
  | EvAcquireMessage _ size :: rest => size :: acquired_sizes rest
  | _ :: rest => acquired_sizes rest
  end.

(** The code of the first socket read of a log that failed. *)
Fixpoint read_failure (evs : list event) : option Z :=
  match evs with
  | [] => None
  | EvSocketRead _ _ (ReadErr e) :: _ => Some e
  | _ :: rest => read_failure rest
  end.

(** No send of the log was refused. *)
Fixpoint all_sends_ok (evs : list event) : bool :=
  match evs with
  | [] => true
  | EvSendMessage _ _ _ err :: rest => negb (nonzero err) && all_sends_ok rest
  | _ :: rest => all_sends_ok rest
  end.

(** The events by which the handler acts on the channel's control flow:
    asking the channel to shut down, and scheduling a task. *)
Definition is_control (e : event) : bool :=
  match e with
  | EvChannelShutdown _ | EvScheduleTask _ _ => true
  | _ => false
  end.

Definition control_events (evs : list event) : list event := filter is_control evs.

Definition is_read_task_scheduled (e : event) : bool :=
  match e with
  | EvScheduleTask fn_s_read_task _ => true
  | _ => false
  end.

Definition is_channel_shutdown (e : event) : bool :=
  match e with
  | EvChannelShutdown _ => true
  | _ => false
  end.

Definition is_shutdown_complete (e : event) : bool :=
  match e with
  | EvShutdownComplete _ _ _ => true
  | _ => false
  end.

Definition is_task_scheduled (e : event) : bool :=
  match e with
  | EvScheduleTask _ _ => true
  | _ => false
  end.

(** A socket write completion that reports an error for a message. *)
Definition is_failed_write_completion (c : handler_call) : bool :=
  match c with
  | CallWriteComplete error_code (Some _) => nonzero error_code
  | _ => false
  end.

(** The channel shutdown a call asks for as a failed write completion. *)
Definition write_completion_shutdown (c : handler_call) : list event :=
  match c with
  | CallWriteComplete error_code (Some _) =>
      if nonzero error_code then [EvChannelShutdown error_code] else []
  | _ => []
  end.

Definition write_completion_shutdowns (cs : list handler_call) : list event :=
  flat_map write_completion_shutdown cs.

(** What draining a write queue at shutdown logs: per message, in queue
    order, the completion callback (when there is one) with the given
    code, then the release to the pool. *)
Definition drained_message (code : Z) (m : aws_io_message) : list event :=
  match on_completion m with
  | Some callback => [EvOnCompletion callback (message_id m) code]
  | None => []
  end ++ [EvReleaseMessage (message_id m)].

Definition drained (code : Z) (queue : list aws_io_message) : list event :=
  flat_map (drained_message code) queue.

(** A follow-up read was scheduled. *)
Definition read_task_scheduled (evs : list event) : Prop :=
  exists t, In (EvScheduleTask fn_s_read_task t) evs.

(** What the read loop leaves alone: the handler, and every collaborator
    but the socket's input, the neighbour's answers, the pool and the last
    error. *)
Definition loop_frame (w w' : world) : Prop :=
  handler w' = handler w /\ downstream_read_window w' = downstream_read_window w /\
  socket_open w' = socket_open w /\ clock_error w' = clock_error w /\
  clock_now w' = clock_now w /\ schedule_task_rc w' = schedule_task_rc w /\
  shutdown_complete_rc w' = shutdown_complete_rc w /\
  socket_shutdown_error w' = socket_shutdown_error w.

(** What no state function of the parser touches: the buffer that owns the
    copy, and the allocator's count. *)
Definition same_storage (c c' : parse_ctx) : Prop :=
  uri_str (uri c') = uri_str (uri c) /\ live_blocks c' = live_blocks c.

Section Observations.
Context {K : build_constants}.

(** The part of [s_do_read] that follows the loop, with its calls run: the
    events it logs and the world it leaves, from the world [w1] and the
    counter [t] the loop left. *)
Definition after_loop (w w1 : world) (t : Z) : list event * world :=
  if t <? max_to_read w then
    if negb (last_error w1 =? AWS_IO_READ_WOULD_BLOCK)
       && negb (shutdown_in_progress (handler w1))
    then ([EvChannelShutdown (last_error w1)], w1)
    else ([], w1)
  else if negb (shutdown_in_progress (handler w1)) && (t =? max_rw_size (handler w))
  then
    if nonzero (clock_error w1) then ([], with_last_error (clock_error w1) w1)
    else ([EvScheduleTask fn_s_read_task (clock_now w1)], w1)
  else ([], w1).

(** The three ways a drain pass goes: there is no quota; a send is refused
    and the function returns from inside the loop; the loop is left and the
    code after it runs. *)
Inductive pass_shape (w : world) (r : unit * world * list event) : Prop :=
| PassNoQuota :
    nonzero (max_to_read w) = false -> final r = w -> events r = [] ->
    pass_shape w r
| PassReturned :
    nonzero (max_to_read w) = true ->
    all_sends_ok (events r) = false -> read_failure (events r) = None ->
    control_events (events r) = [] ->
    handler (final r) = handler w ->
    pass_shape w r
| PassLeft (lev : list event) (w1 : world) :
    nonzero (max_to_read w) = true ->
    events r = lev ++ fst (after_loop w w1 (total_read_of lev)) ->
    final r = snd (after_loop w w1 (total_read_of lev)) ->
    loop_frame w w1 ->
    control_events lev = [] ->
    all_sends_ok lev = true ->
    match read_failure lev with
    | Some e => total_read_of lev < max_to_read w /\ last_error w1 = e
    | None => ~ total_read_of lev < max_to_read w
    end ->
    pass_shape w r.

End Observations.

(* ===================================================================== *)
(** * Part X: sample worlds                                               *)
(* ===================================================================== *)

(** A quiet world around a handler: open socket, clock available at time
    77, nothing scripted. *)
Definition sample_world (h : socket_handler) (window : Z)
    (rx : list read_result) : world :=
  mk_world h window true rx 0 0 [] 0 77 0 0 0%nat 0.

(** Chunk size 10, window 10; the socket delivers 6 bytes and then has 10
    more. *)
Definition world_two_reads : world :=
  sample_world (mk_socket_handler [] 10 0 false) 10 [ReadOk 6; ReadOk 10].

(** Chunk size 10 under a window of 5; the socket has 5 bytes. *)
Definition world_small_window : world :=
  sample_world (mk_socket_handler [] 10 0 false) 5 [ReadOk 5].

(** Chunk size 10, window 10; 3 bytes, then the connection is reset
    (code 1050). *)
Definition world_read_error : world :=
  sample_world (mk_socket_handler [] 10 0 false) 10 [ReadOk 3; ReadErr 1050].

(** A handler already shutting down, with 10 bytes ready on the socket. *)
Definition world_shutting_down : world :=
  sample_world (mk_socket_handler [] 10 0 true) 10 [ReadOk 10].

(** A world with another answer of the clock, and of the socket's shutdown. *)
Definition with_clock_error (e : Z) (w : world) : world :=
  mk_world (handler w) (downstream_read_window w) (socket_open w) (socket_rx w)
    (socket_shutdown_error w) (socket_write_error w) (send_message_errors w)
    e (clock_now w) (schedule_task_rc w) (shutdown_complete_rc w)
    (pool_next_id w) (last_error w).

Definition with_socket_shutdown_error (e : Z) (w : world) : world :=
  mk_world (handler w) (downstream_read_window w) (socket_open w) (socket_rx w)
    e (socket_write_error w) (send_message_errors w)
    (clock_error w) (clock_now w) (schedule_task_rc w) (shutdown_complete_rc w)
    (pool_next_id w) (last_error w).

Definition message_a : aws_io_message :=
  mk_message 100 AWS_IO_MESSAGE_APPLICATION_DATA 16 16 (Some 1%nat).
Definition message_b : aws_io_message :=
  mk_message 101 AWS_IO_MESSAGE_APPLICATION_DATA 16 8 None.
Definition message_c : aws_io_message :=
  mk_message 102 AWS_IO_MESSAGE_APPLICATION_DATA 16 4 (Some 3%nat).

(** A handler with three messages queued, A then B then C. *)
Definition world_queued : world :=
  sample_world (mk_socket_handler [message_a; message_b; message_c] 10 0 false) 10 [].

Definition sample_ctx : parse_ctx := mk_ctx zero_uri ON_SCHEME zero_cursor 0 0%nat.

(** The uri strings of the examples, as bytes. *)
Module UriSamples.
Import String.
Local Open Scope string_scope.

Definition full_uri : list ascii :=
  list_ascii_of_string "https://example.com:443/path?x=1".

Definition host_only : list ascii := list_ascii_of_string "example.com".

Definition port_out_of_range : list ascii :=
  list_ascii_of_string "example.com:99999".

End UriSamples.

(* ===================================================================== *)
(** * More of socket_channel_handler.c: observers, creation, destruction *)
(* ===================================================================== *)

(** The messages taken from the pool, in order. *)
Fixpoint acquired_ids (evs : list event) : list nat :=
  match evs with
  | [] => []
  | EvAcquireMessage id _ :: rest => id :: acquired_ids rest
  | _ :: rest => acquired_ids rest
  end.

(** The messages the handler is done with, in order: those it gave back
    to the pool, and those the upstream neighbour accepted. *)
Fixpoint settled_ids (evs : list event) : list nat :=
  match evs with
  | [] => []
  | EvReleaseMessage id :: rest => id :: settled_ids rest
  | EvSendMessage id _ _ err :: rest =>
      if nonzero err then settled_ids rest else id :: settled_ids rest
  | _ :: rest => settled_ids rest
  end.

Definition is_shutdown_call (c : handler_call) : bool :=
  match c with
  | CallShutdown _ _ _ => true
  | _ => false
  end.

Definition is_socket_shutdown (e : event) : bool :=
  match e with
  | EvSocketShutdown _ => true
  | _ => false
  end.

Definition is_message_settlement (e : event) : bool :=
  match e with
  | EvOnCompletion _ _ _ | EvReleaseMessage _ => true
  | _ => false
  end.

(** A handler whose downstream window is used up, with 5 bytes ready. *)
Definition world_closed_window : world :=
  sample_world (mk_socket_handler [] 10 0 false) 0 [ReadOk 5].

(** [struct aws_allocator], as far as the two files use it: what the next
    calls of [aws_mem_acquire] will answer ([true]: a block; with nothing
    scripted: a block), and the number of blocks handed out and not yet
    released. *)
Record allocator_state := mk_allocator {
  acquire_script : list bool;
  blocks_out : nat;
}.

(** [aws_mem_acquire] of aws-c-common: a block, or NULL. *)
Definition aws_mem_acquire (a : allocator_state) : bool * allocator_state :=
  match acquire_script a with
  | [] => (true, mk_allocator [] (S (blocks_out a)))
  | true :: rest => (true, mk_allocator rest (S (blocks_out a)))
  | false :: rest => (false, mk_allocator rest (blocks_out a))
  end.

(** [aws_mem_release] of aws-c-common. *)
Definition aws_mem_release (a : allocator_state) : allocator_state :=
  mk_allocator (acquire_script a) (Nat.pred (blocks_out a)).

Definition with_max_rw_size (n : Z) (h : socket_handler) : socket_handler :=
  mk_socket_handler (write_queue h) n (shutdown_err_code h) (shutdown_in_progress h).

(** How [aws_socket_handler_new] ends: the failed [assert] aborts the
    process; otherwise it returns the handler's [impl] (NULL: [None]), and
    leaves the allocator and the socket's subscription as given. *)
Inductive creation :=
| CreationAborts
| CreationReturns (impl : option socket_handler) (a : allocator_state) (subscribed : bool).

Section Creation.
Context {K : build_constants}.

(** [aws_socket_handler_new].  [has_event_loop] is what
    [aws_socket_get_event_loop] finds, [subscribe_error] what
    [aws_socket_subscribe_to_readable_events] raises (0: subscribed), and
    [fresh] the contents of the block acquired for the [impl], of which only
    four fields are assigned. *)
Definition aws_socket_handler_new (has_event_loop : bool) (subscribe_error : Z)
    (fresh : socket_handler) (a : allocator_state) (max_rw_size : Z) : creation :=
  if negb NDEBUG && negb has_event_loop then CreationAborts
  else
    let '(handler_ok, a) := aws_mem_acquire a in
    if negb handler_ok then CreationReturns None a false
    else
      let '(impl_ok, a) := aws_mem_acquire a in
      if negb impl_ok then
        (* cleanup_handler *)
        CreationReturns None (aws_mem_release a) false
      else
        let impl := with_max_rw_size max_rw_size fresh in
        let impl := with_shutdown_in_progress false impl in
        let impl := with_write_queue [] impl in
        if nonzero subscribe_error then
          (* cleanup_impl, cleanup_handler *)
          CreationReturns None (aws_mem_release (aws_mem_release a)) false
        else CreationReturns (Some impl) a true.

End Creation.

(** [socket_destroy]: the socket is cleaned up, and the [impl] and the
    handler are released. *)
Definition socket_destroy (a : allocator_state) : bool * allocator_state :=
  (true, aws_mem_release (aws_mem_release a)).


(* ===================================================================== *)
(** * More of uri.c: clean-up, and what is observed of a parse            *)
(* ===================================================================== *)

(** [aws_uri_clean_up]. *)
Definition aws_uri_clean_up (c : parse_ctx) : parse_ctx :=
  let c := if buf_allocator (uri_str (uri c)) then aws_byte_buf_clean_up c else c in
  set_uri zero_uri c.

(** A cursor that is empty and NULL, or a range of the copy of [n] bytes. *)
Definition in_copy (n : Z) (x : aws_byte_cursor) : Prop :=
  match cur_ptr x with
  | None => cur_len x = 0
  | Some (URI_STR, off) => 0 <= off /\ 0 <= cur_len x /\ off + cur_len x <= n
  | Some (DEFAULT_PATH, _) => False
  end.

(** The same, or the one byte of [s_default_path]. *)
Definition in_copy_or_default (n : Z) (x : aws_byte_cursor) : Prop :=
  in_copy n x \/ x = mk_cursor 1 (Some (DEFAULT_PATH, 0)).

(** The cursor the state functions advance: a range of the copy. *)
Definition str_ok (n : Z) (x : aws_byte_cursor) : Prop :=
  exists off, cur_ptr x = Some (URI_STR, off) /\
              0 <= off /\ 0 <= cur_len x /\ off + cur_len x <= n.

(** What holds of the parser between two state functions, on the copy of
    [input]. *)
Record parser_inv {K : build_constants} (input : list ascii) (c : parse_ctx) : Prop := {
  inv_self_size : self_size (uri c) = sizeof_aws_uri;
  inv_allocator : allocator (uri c) = true;
  inv_uri_str :
    uri_str (uri c) =
    mk_buf (Z.of_nat (length input)) (Some input) (Z.of_nat (length input)) true;
  inv_str : str_ok (Z.of_nat (length input)) (str c);
  inv_scheme : in_copy (Z.of_nat (length input)) (scheme (uri c));
  inv_authority : in_copy (Z.of_nat (length input)) (authority (uri c));
  inv_host_name : in_copy (Z.of_nat (length input)) (host_name (uri c));
  inv_query_string : in_copy (Z.of_nat (length input)) (query_string (uri c));
  inv_path : in_copy_or_default (Z.of_nat (length input)) (path (uri c));
  inv_path_and_query :
    in_copy_or_default (Z.of_nat (length input)) (path_and_query (uri c));
  inv_port : 0 <= port (uri c) <= UINT16_MAX;
}.

(** The parser as [aws_uri_init_parse] starts it, once the copy is made. *)
Definition parser_start {K : build_constants} (input : list ascii) (c : parse_ctx)
    : parse_ctx :=
  let len := Z.of_nat (length input) in
  mk_ctx (mk_uri sizeof_aws_uri true (mk_buf len (Some input) len true)
            zero_cursor zero_cursor zero_cursor 0 zero_cursor zero_cursor zero_cursor)
         ON_SCHEME (mk_cursor len (Some (URI_STR, 0))) (raised c) (S (live_blocks c)).

(** The text of a uri with a scheme: the scheme, ["://"], the host, a colon
    and the port when there is one, the path, and a question mark and the
    query when there is one. *)
Definition port_text (port_digits : option (list ascii)) : list ascii :=
  match port_digits with
  | Some d => ":"%char :: d
  | None => []
  end.

Definition query_text (query : option (list ascii)) : list ascii :=
  match query with
  | Some q => "?"%char :: q
  | None => []
  end.

Definition uri_text (sch host : list ascii) (port_digits : option (list ascii))
    (pth : list ascii) (query : option (list ascii)) : list ascii :=
  sch ++ ":"%char :: "/"%char :: "/"%char ::
  (host ++ port_text port_digits) ++ pth ++ query_text query.

(** The three tests [s_parse_authority] makes of the bytes after the port
    delimiter: digits only, five at most, and a value of 16 bits. *)
Definition port_digits_ok (d : list ascii) : bool :=
  forallb isdigit d && (Z.of_nat (length d) <=? 5) && (atoi_digits 0 d <=? UINT16_MAX).

Definition port_text_ok (port_digits : option (list ascii)) : bool :=
  match port_digits with
  | Some d => port_digits_ok d
  | None => true
  end.

(** A state function either raises nothing, or leaves the parser in
    [ERROR] with [AWS_ERROR_MALFORMED_INPUT_STRING] raised. *)
Definition quiet_or_malformed {K : build_constants} (c c' : parse_ctx) : Prop :=
  (state c' <> ERROR /\ raised c' = raised c) \/
  (state c' = ERROR /\ raised c' = AWS_ERROR_MALFORMED_INPUT_STRING).

(** The parts of the uris the examples and witnesses parse. *)
Module UriParts.
Import String.
Local Open Scope string_scope.

Definition https : list ascii := list_ascii_of_string "https".
Definition example_com : list ascii := list_ascii_of_string "example.com".
Definition digits_443 : list ascii := list_ascii_of_string "443".
Definition digits_70000 : list ascii := list_ascii_of_string "70000".
Definition path_tail : list ascii := list_ascii_of_string "path".
Definition x_is_1 : list ascii := list_ascii_of_string "x=1".

End UriParts.

(* ===================================================================== *)
(** * More of uri.c: the query parameters                                 *)
(* ===================================================================== *)

(** [struct aws_uri_param]. *)
Module Param.
Record aws_uri_param := mk_param {
  key : aws_byte_cursor;
  value : aws_byte_cursor;
}.
End Param.
Import Param (aws_uri_param, mk_param).

(** The list [out_params] of aws-c-common's [struct aws_array_list]: its
    elements, the number of elements that can still be pushed before
    [aws_array_list_push_back] fails, and whether the list has an allocator
    (the [alloc] field is not NULL: a dynamic list, which fails when it
    cannot grow; without one the list is static, and fails when full). *)
Record aws_array_list := mk_array_list {
  items : list aws_uri_param;
  room : nat;
  alloc : bool;
}.

(** The error a failed [aws_array_list_push_back] leaves as the thread's
    last error: that of [aws_mem_acquire] for a dynamic list, and
    [AWS_ERROR_LIST_EXCEEDS_MAX_SIZE] for a static one. *)
Definition push_back_error {K : build_constants} (l : aws_array_list) : Z :=
  if alloc l then AWS_ERROR_OOM else AWS_ERROR_LIST_EXCEEDS_MAX_SIZE.

(** [aws_array_list_push_back]; [c] is there for the thread's last
    error. *)
Definition aws_array_list_push_back {K : build_constants} (x : aws_uri_param)
    (l : aws_array_list) (c : parse_ctx) : Z * aws_array_list * parse_ctx :=
  match room l with
  | O => (AWS_OP_ERR, l, uri_raise_error (push_back_error l) c)
  | S r => (AWS_OP_SUCCESS, mk_array_list (items l ++ [x]) r (alloc l), c)
  end.

(** [aws_array_list_clear]: the length goes back to 0, the storage stays. *)
Definition aws_array_list_clear (l : aws_array_list) : aws_array_list :=
  mk_array_list [] (length (items l) + room l) (alloc l).

(** What [aws_byte_cursor_split_on_char] answers: the cursors it has put in
    the list, or that it failed, with the error it has raised. *)
Inductive split_result :=
  | SplitGave (cursors : list aws_byte_cursor)
  | SplitFailed (error : Z).

(** [aws_byte_cursor_split_on_char] of aws-c-common, on a cursor into the
    copy: one cursor for each stretch between two delimiters, the empty
    ones included, so that a string with [k] delimiters gives [k + 1]
    cursors.  [off] is where the current stretch starts and [n] its length
    so far. *)
Fixpoint split_from (ch : ascii) (bytes : list ascii) (off n : Z)
    : list aws_byte_cursor :=
  match bytes with
  | [] => [mk_cursor n (Some (URI_STR, off))]
  | x :: rest =>
      if Ascii.eqb x ch
      then mk_cursor n (Some (URI_STR, off)) :: split_from ch rest (off + n + 1) 0
      else split_from ch rest off (n + 1)
  end.

Definition split_on_char (ch : ascii) (mem : list ascii) (cursor : aws_byte_cursor)
    : split_result :=
  match cur_ptr cursor with
  | Some (URI_STR, off) =>
      SplitGave (split_from ch (bytes_at mem zero (cur_ptr cursor) (cur_len cursor)) off 0)
  | _ => SplitGave [cursor]
  end.

Section QueryParams.
Context {K : build_constants}.

(** The byte after the copy, and what [aws_byte_cursor_split_on_char]
    answers for a delimiter, a memory and a cursor. *)
Variable beyond : ascii.
Variable aws_byte_cursor_split_on_char :
  ascii -> list ascii -> aws_byte_cursor -> split_result.

(** The [param_value] the loop of [aws_uri_query_string_params] builds for
    one cursor of [key_val_array]. *)
Definition param_value (mem : list ascii) (key_val : aws_byte_cursor) : aws_uri_param :=
  let delim := memchr mem beyond (cur_ptr key_val) "="%char (cur_len key_val) in
  if negb (is_null delim) then
    mk_param
      (mk_cursor (ptr_diff delim (cur_ptr key_val)) (cur_ptr key_val))
      (mk_cursor
         (size_sub (size_sub (cur_len key_val) (ptr_diff delim (cur_ptr key_val))) 1)
         (ptr_add delim 1))
  else
    mk_param (mk_cursor (cur_len key_val) (cur_ptr key_val)) zero_cursor.

(** The [for] loop over [key_val_array]; it stops at the first push that
    fails. *)
Fixpoint s_push_params (mem : list ascii) (key_val_array : list aws_byte_cursor)
    (out_params : aws_array_list) (c : parse_ctx) : Z * aws_array_list * parse_ctx :=
  match key_val_array with
  | [] => (AWS_OP_SUCCESS, out_params, c)
  | key_val :: rest =>
      let '(rc, out_params, c) :=
        aws_array_list_push_back (param_value mem key_val) out_params c in
      if nonzero rc then (AWS_OP_ERR, out_params, c)
      else s_push_params mem rest out_params c
  end.

(** [aws_uri_query_string_params].  [init_ok] tells whether
    [aws_array_list_init_dynamic] gets its block for [key_val_array]; when
    it does not, [aws_mem_acquire] has raised [AWS_ERROR_OOM]. *)
Definition aws_uri_query_string_params (init_ok : bool) (c : parse_ctx)
    (out_params : aws_array_list) : Z * parse_ctx * aws_array_list :=
  if cur_len (query_string (uri c)) =? 0 then (AWS_OP_SUCCESS, c, out_params)
  else if negb init_ok then (AWS_OP_ERR, uri_raise_error AWS_ERROR_OOM c, out_params)
  else
    let c := set_live_blocks (S (live_blocks c)) c in
    match aws_byte_cursor_split_on_char "&"%char (mem_of c) (query_string (uri c)) with
    | SplitFailed error =>
        let c := uri_raise_error error c in
        (* error: *)
        (AWS_OP_ERR, set_live_blocks (Nat.pred (live_blocks c)) c,
         aws_array_list_clear out_params)
    | SplitGave key_val_array =>
        let '(rc, out_params, c) :=
          s_push_params (mem_of c) key_val_array out_params c in
        if nonzero rc then
          (* error: *)
          (AWS_OP_ERR, set_live_blocks (Nat.pred (live_blocks c)) c,
           aws_array_list_clear out_params)
        else
          (AWS_OP_SUCCESS, set_live_blocks (Nat.pred (live_blocks c)) c, out_params)
    end.

End QueryParams.

(** A cursor of [key_val_array] and the parameter made of it: the key
    starts where the cursor starts and holds no equals sign; either the
    cursor holds none and the key is all of it, with an empty NULL value, or
    the key ends at the cursor's first equals sign and the value is what
    follows that sign. *)
Definition splits_at_first_equals (mem : list ascii) (beyond : ascii)
    (key_val : aws_byte_cursor) (p : aws_uri_param) : Prop :=
  cur_ptr (Param.key p) = cur_ptr key_val /\
  match cur_ptr key_val with
  | None => Param.value p = zero_cursor /\ cur_len (Param.key p) = cur_len key_val
  | Some (r, off) =>
      (forall i, 0 <= i < cur_len (Param.key p) ->
                 load mem beyond r (off + i) <> "="%char) /\
      ((Param.value p = zero_cursor /\ cur_len (Param.key p) = cur_len key_val) \/
       (0 <= cur_len (Param.key p) < cur_len key_val /\
        load mem beyond r (off + cur_len (Param.key p)) = "="%char /\
        Param.value p =
          mk_cursor (cur_len key_val - cur_len (Param.key p) - 1)
            (Some (r, off + cur_len (Param.key p) + 1))))
  end.

(** A parsed uri whose query is [a=1&b&c=], and a static list with room
    for three parameters, and one with room for two. *)
Module ParamSamples.
Import String.
Local Open Scope string_scope.

Definition query_uri : list ascii := list_ascii_of_string "h/p?a=1&b&c=".

Definition parsed : parse_ctx :=
  mk_ctx
    (mk_uri 184 true (mk_buf 12 (Some query_uri) 12 true)
       zero_cursor
       (mk_cursor 1 (Some (URI_STR, 0)))
       (mk_cursor 1 (Some (URI_STR, 0)))
       0
       (mk_cursor 2 (Some (URI_STR, 1)))
       (mk_cursor 8 (Some (URI_STR, 4)))
       (mk_cursor 11 (Some (URI_STR, 1))))
    FINISHED (mk_cursor 0 (Some (URI_STR, 12))) 0 1%nat.

Definition old_param : aws_uri_param :=
  mk_param (mk_cursor 1 (Some (URI_STR, 0))) zero_cursor.

Definition roomy : aws_array_list := mk_array_list [old_param] 3 false.
Definition tight : aws_array_list := mk_array_list [old_param] 2 false.

End ParamSamples.

(* ===================================================================== *)
(** * More of uri.c: the builder                                          *)
(* ===================================================================== *)

(** Two more enumerators of [aws/common/error.h]. *)
Class common_errors := {
  AWS_ERROR_INVALID_ARGUMENT : Z;
  AWS_ERROR_DEST_COPY_TOO_SMALL : Z;
}.

(** [struct aws_uri_builder_options].  A cursor of the options is given by
    the bytes it covers, and [query_params] by the keys and values of its
    elements, [None] for a NULL list. *)
Module Options.
Record aws_uri_builder_options := mk_options {
  scheme : list ascii;
  path : list ascii;
  host_name : list ascii;
  port : Z;
  query_params : option (list (list ascii * list ascii));
  query_string : list ascii;
}.
End Options.
Import Options (aws_uri_builder_options, mk_options).

(** [sprintf] with ["%" PRIu16]: the decimal digits of a 16-bit number,
    without leading zeros. *)
Fixpoint decimal_digits (fuel : nat) (n : Z) : list ascii :=
  match fuel with
  | O => []
  | S fuel' =>
      (if n / 10 =? 0 then [] else decimal_digits fuel' (n / 10)) ++
      [ascii_of_nat (Z.to_nat (48 + n mod 10))]
  end.

Definition sprintf_PRIu16 (n : Z) : list ascii := decimal_digits 5 n.

Section Builder.
Context {K : build_constants} {E : common_errors}.
Variable beyond : ascii.

(** [aws_byte_buf_init] of aws-c-common on [uri->uri_str]: a block of
    [capacity] bytes and length 0; or, when the allocator has no memory,
    [AWS_OP_ERR] with [AWS_ERROR_OOM] raised, as [aws_mem_acquire] raises
    it. *)
Definition aws_byte_buf_init (alloc_ok : bool) (capacity : Z) (c : parse_ctx)
    : Z * parse_ctx :=
  if alloc_ok then
    (AWS_OP_SUCCESS,
     set_live_blocks (S (live_blocks c))
       (set_uri (set_uri_str (mk_buf 0 (Some []) capacity true) (uri c)) c))
  else (AWS_OP_ERR, uri_raise_error AWS_ERROR_OOM c).

(** [aws_byte_buf_append] of aws-c-common on [uri->uri_str], its result
    dropped as the builder drops it: the bytes are added when they fit the
    capacity that is left; when they do not, nothing is written and
    [AWS_ERROR_DEST_COPY_TOO_SMALL] is raised. *)
Definition aws_byte_buf_append (from : list ascii) (c : parse_ctx) : parse_ctx :=
  let to := uri_str (uri c) in
  let n := Z.of_nat (length from) in
  if size_sub (capacity to) (buf_len to) <? n then
    uri_raise_error AWS_ERROR_DEST_COPY_TOO_SMALL c
  else
    set_uri
      (set_uri_str
         (mk_buf (buf_len to + n)
            (match buffer to with Some b => Some (b ++ from) | None => None end)
            (capacity to) (buf_allocator to))
         (uri c)) c.

(** The first loop over [query_params]: two more bytes than its key and
    value for each element. *)
Fixpoint s_params_size (params : list (list ascii * list ascii)) (buffer_size : Z) : Z :=
  match params with
  | [] => buffer_size
  | (key, value) :: rest =>
      s_params_size rest
        (size_add buffer_size
           (size_add (size_add (Z.of_nat (length key)) (Z.of_nat (length value))) 2))
  end.

(** The second loop: key, equals sign, value, and an ampersand after every
    element but the last. *)
Fixpoint s_append_params (params : list (list ascii * list ascii)) (c : parse_ctx)
    : parse_ctx :=
  match params with
  | [] => c
  | (key, value) :: rest =>
      let c := aws_byte_buf_append key c in
      let c := aws_byte_buf_append ["="%char] c in
      let c := aws_byte_buf_append value c in
      let c := match rest with [] => c | _ :: _ => aws_byte_buf_append ["&"%char] c end in
      s_append_params rest c
  end.

(** The size the builder asks for. *)
Definition s_buffer_size (options : aws_uri_builder_options) : Z :=
  let buffer_size := 0 in
  let buffer_size :=
    if nonzero (Z.of_nat (length (Options.scheme options)))
    then size_add buffer_size (size_add (Z.of_nat (length (Options.scheme options))) 3)
    else buffer_size in
  let buffer_size := size_add buffer_size (Z.of_nat (length (Options.host_name options))) in
  let buffer_size :=
    if nonzero (Options.port options) then size_add buffer_size 6 else buffer_size in
  let buffer_size := size_add buffer_size (Z.of_nat (length (Options.path options))) in
  match Options.query_params options with
  | Some params =>
      if nonzero (Z.of_nat (length params))
      then s_params_size params (size_add buffer_size 1)
      else buffer_size
  | None =>
      if nonzero (Z.of_nat (length (Options.query_string options)))
      then size_add (size_add buffer_size 1)
             (Z.of_nat (length (Options.query_string options)))
      else buffer_size
  end.

(** The appends that fill [uri->uri_str]. *)
Definition s_fill_uri_str (options : aws_uri_builder_options) (c : parse_ctx)
    : parse_ctx :=
  let c :=
    if nonzero (Z.of_nat (length (Options.scheme options))) then
      aws_byte_buf_append [":"%char; "/"%char; "/"%char]
        (aws_byte_buf_append (Options.scheme options) c)
    else c in
  let c := aws_byte_buf_append (Options.host_name options) c in
  let c :=
    if nonzero (Options.port options) then
      aws_byte_buf_append (sprintf_PRIu16 (Options.port options))
        (aws_byte_buf_append [":"%char] c)
    else c in
  let c := aws_byte_buf_append (Options.path options) c in
  match Options.query_params options with
  | Some params => s_append_params params (aws_byte_buf_append ["?"%char] c)
  | None =>
      if nonzero (Z.of_nat (length (Options.query_string options))) then
        aws_byte_buf_append (Options.query_string options)
          (aws_byte_buf_append ["?"%char] c)
      else c
  end.

(** [aws_uri_init_from_builder_options]. *)
Definition aws_uri_init_from_builder_options (alloc_ok : bool)
    (options : aws_uri_builder_options) (c : parse_ctx) : option (Z * parse_ctx) :=
  if nonzero (Z.of_nat (length (Options.query_string options)))
     && match Options.query_params options with Some _ => true | None => false end
  then Some (AWS_OP_ERR, uri_raise_error AWS_ERROR_INVALID_ARGUMENT c)
  else
    let c := set_uri zero_uri c in
    let c := set_uri (mk_uri sizeof_aws_uri true zero_buf zero_cursor zero_cursor
                        zero_cursor 0 zero_cursor zero_cursor zero_cursor) c in
    let '(rc, c) := aws_byte_buf_init alloc_ok (s_buffer_size options) c in
    if nonzero rc then Some (AWS_OP_ERR, c)
    else
      let c := set_uri (set_uri_str
                          (mk_buf 0 (buffer (uri_str (uri c)))
                             (capacity (uri_str (uri c)))
                             (buf_allocator (uri_str (uri c))))
                          (uri c)) c in
      s_init_from_uri_str beyond (s_fill_uri_str options c).

End Builder.

(** The text the builder means to write for its options. *)
Fixpoint params_text (params : list (list ascii * list ascii)) : list ascii :=
  match params with
  | [] => []
  | (key, value) :: rest =>
      key ++ "="%char :: value ++
      match rest with
      | [] => []
      | _ :: _ => "&"%char :: params_text rest
      end
  end.

Definition built_text (options : aws_uri_builder_options) : list ascii :=
  (match Options.scheme options with
   | [] => []
   | _ :: _ => Options.scheme options ++ [":"%char; "/"%char; "/"%char]
   end) ++
  Options.host_name options ++
  (if nonzero (Options.port options)
   then ":"%char :: sprintf_PRIu16 (Options.port options)
   else []) ++
  Options.path options ++
  match Options.query_params options with
  | Some params => "?"%char :: params_text params
  | None =>
      match Options.query_string options with
      | [] => []
      | _ :: _ => "?"%char :: Options.query_string options
      end
  end.

(** A context with the capacity of its [uri_str] changed. *)
Definition with_capacity (cap : Z) (c : parse_ctx) : parse_ctx :=
  set_uri (set_uri_str (mk_buf (buf_len (uri_str (uri c))) (buffer (uri_str (uri c)))
                          cap (buf_allocator (uri_str (uri c))))
             (uri c)) c.

(** The bytes a cursor of a parsed uri covers. *)
Definition cursor_bytes (beyond : ascii) (c : parse_ctx) (x : aws_byte_cursor)
    : list ascii :=
  bytes_at (mem_of c) beyond (cur_ptr x) (cur_len x).

Definition sample_errors : common_errors :=
  {| AWS_ERROR_INVALID_ARGUMENT := 33;
     AWS_ERROR_DEST_COPY_TOO_SMALL := 15 |}.

(** Options for [https://example.com:443/path?x=1], and for [example.com]
    with a list of no parameters. *)
Module OptionSamples.

Definition full : aws_uri_builder_options :=
  mk_options UriParts.https ("/"%char :: UriParts.path_tail) UriParts.example_com 443
    None UriParts.x_is_1.

Definition host_with_no_params : aws_uri_builder_options :=
  mk_options [] [] UriParts.example_com 0 (Some []) [].

End OptionSamples.

(** A context with [b] written in its [uri_str], of capacity [cap]. *)
Definition with_uri_text (b : list ascii) (cap : Z) (c : parse_ctx) : parse_ctx :=
  set_uri (set_uri_str (mk_buf (Z.of_nat (length b)) (Some b) cap true) (uri c)) c.

(** What the second loop over [query_params] has room for: two bytes more
    than the key and the value of each element. *)
Fixpoint params_reserve (params : list (list ascii * list ascii)) : Z :=
  match params with
  | [] => 0
  | (key, value) :: rest =>
      Z.of_nat (length key) + Z.of_nat (length value) + 2 + params_reserve rest
  end.

(** The context in which the builder starts to parse: the header set, a
    block of [cap] bytes acquired and [text] written in it. *)
Definition built_ctx {K : build_constants} (text : list ascii) (cap : Z) (c : parse_ctx)
    : parse_ctx :=
  with_uri_text text cap
    (set_live_blocks (S (live_blocks c))
       (set_uri (mk_uri sizeof_aws_uri true zero_buf zero_cursor zero_cursor
                   zero_cursor 0 zero_cursor zero_cursor zero_cursor) c)).

(** The options with their list of parameters made NULL. *)
Definition without_params (options : aws_uri_builder_options) : aws_uri_builder_options :=
  mk_options (Options.scheme options) (Options.path options) (Options.host_name options)
    (Options.port options) None (Options.query_string options).

(** The [uri_str] of a context holds a block of the allocator. *)
Definition owns_its_buffer (c : parse_ctx) : Prop :=
  buf_allocator (uri_str (uri c)) = true /\ buffer (uri_str (uri c)) <> None.

(** A step of the builder keeps the block of [uri_str]: the block is still
    held, with the capacity it had, and the allocator has handed out and
    taken back nothing. *)
Definition keeps_its_buffer (c c' : parse_ctx) : Prop :=
  owns_its_buffer c' /\
  live_blocks c' = live_blocks c /\
  capacity (uri_str (uri c')) = capacity (uri_str (uri c)).

(* ===================================================================== *)
(** * Part XI: the handler, proofs                                        *)
(* ===================================================================== *)

Section HandlerProofs.
Context {K : build_constants}.

(** Runs the calls into the collaborators that stand at the head of a
    goal. *)
Ltac run_prims :=
  cbv [bind ret gets modify emit aws_raise_error aws_last_error
       aws_channel_slot_downstream_read_window
       aws_channel_acquire_message_from_pool aws_channel_release_message_to_pool
       aws_socket_read aws_channel_slot_send_message aws_channel_shutdown
       aws_channel_current_clock_time aws_channel_schedule_task
       aws_socket_is_open aws_socket_shutdown aws_socket_write
       aws_channel_slot_on_handler_shutdown_complete call_on_completion];
  change (nonzero AWS_OP_SUCCESS) with false;
  change (nonzero AWS_OP_ERR) with true;
  cbn -[s_do_read_loop].

(** ** The monad and the observers *)

Lemma bind_run {A B} (m : M A) (f : A -> M B) w :
  bind m f w =
  (value (f (value (m w)) (final (m w))),
   final (f (value (m w)) (final (m w))),
   events (m w) ++ events (f (value (m w)) (final (m w)))).
Proof.
  unfold bind. destruct (m w) as [[a w1] e1]. cbn.
  destruct (f a w1) as [[b w2] e2]. reflexivity.
Qed.

Lemma nonzero_true z : nonzero z = true <-> z <> 0.
Proof. unfold nonzero. rewrite negb_true_iff, Z.eqb_neq. tauto. Qed.

Lemma nonzero_false z : nonzero z = false <-> z = 0.
Proof. unfold nonzero. rewrite negb_false_iff, Z.eqb_eq. tauto. Qed.

Lemma total_read_from_app t a b :
  total_read_from t (a ++ b) = total_read_from (total_read_from t a) b.
Proof. apply fold_left_app. Qed.

Lemma total_read_of_app a b :
  total_read_of (a ++ b) = total_read_from (total_read_of a) b.
Proof. apply total_read_from_app. Qed.

Lemma control_events_app a b :
  control_events (a ++ b) = control_events a ++ control_events b.
Proof. apply filter_app. Qed.

Lemma read_failure_app a b :
  read_failure (a ++ b) =
  match read_failure a with Some e => Some e | None => read_failure b end.
Proof.
  induction a as [|x a IH]; [reflexivity|].
  destruct x; cbn; auto. destruct r; auto.
Qed.

Lemma all_sends_ok_app a b :
  all_sends_ok (a ++ b) = all_sends_ok a && all_sends_ok b.
Proof.
  induction a as [|x a IH]; [reflexivity|].
  destruct x; cbn; auto. rewrite IH. apply andb_assoc.
Qed.

Lemma control_events_nil_In l e :
  control_events l = [] -> In e l -> is_control e = false.
Proof.
  intros Hc Hin. destruct (is_control e) eqn:He; [|reflexivity].
  assert (Hin' : In e (control_events l)) by (apply filter_In; auto).
  rewrite Hc in Hin'. destruct Hin'.
Qed.

Lemma control_events_nil_filters l :
  control_events l = [] ->
  filter is_read_task_scheduled l = [] /\ filter is_channel_shutdown l = [].
Proof.
  unfold control_events. induction l as [|e l IH]; [auto|].
  cbn [filter]. destruct e; cbn; try discriminate; auto.
Qed.

Lemma filter_drained_nil (f : event -> bool) code q :
  (forall cb id c, f (EvOnCompletion cb id c) = false) ->
  (forall id, f (EvReleaseMessage id) = false) ->
  filter f (drained code q) = [].
Proof.
  intros Hc Hr. induction q as [|m q IH]; [reflexivity|].
  unfold drained in *. cbn [flat_map]. rewrite filter_app, IH.
  unfold drained_message. destruct (on_completion m); cbn; rewrite ?Hc, ?Hr; reflexivity.
Qed.

(** ** The read loop *)

(** What one run of the loop does, by the way it is left.  The bound on its
    turns is never used up when it exceeds the number of scripted reads. *)
Lemma s_do_read_loop_spec fuel :
  forall max total read w,
    (List.length (socket_rx w) < fuel)%nat ->
    let r := s_do_read_loop fuel max total read w in
    loop_frame w (final r) /\ control_events (events r) = [] /\
    match value r with
    | None => False
    | Some LoopReturned =>
        all_sends_ok (events r) = false /\ read_failure (events r) = None
    | Some (LoopLeft t) =>
        all_sends_ok (events r) = true /\ t = total_read_from total (events r) /\
        match read_failure (events r) with
        | Some e => t < max /\ last_error (final r) = e
        | None => ~ t < max /\ last_error (final r) = last_error w
        end
    end.
Proof.
  induction fuel as [|fuel IH]; intros max total read w Hlen; [lia|].
  cbn [s_do_read_loop].
  destruct (total <? max) eqn:Hlt.
  2:{ cbn. unfold loop_frame. repeat split; auto. apply Z.ltb_ge in Hlt. lia. }
  apply Z.ltb_lt in Hlt.
  destruct w as [h win op rx se we sme ce cn st sc pn le].
  destruct rx as [|[n|code] rx].
  - cbn. unfold loop_frame; cbn. repeat split; auto.
  - assert (Hlen' : (List.length rx < fuel)%nat) by (cbn in Hlen; lia).
    run_prims.
    destruct (nonzero (match sme with [] => 0 | e :: _ => e end)) eqn:Hnz.
    + run_prims. rewrite Hnz. unfold loop_frame; cbn. repeat split; auto.
    + run_prims.
      match goal with |- context [s_do_read_loop fuel ?a ?b ?c ?w1] =>
        specialize (IH a b c w1 Hlen');
        destruct (s_do_read_loop fuel a b c w1) as [[v w2] ev] end.
      cbn in IH |- *. rewrite Hnz. destruct IH as (Hf & Hc & Hv).
      split; [exact Hf|]. split; [exact Hc|].
      destruct v as [[|t]|]; auto.
  - cbn. unfold loop_frame; cbn. repeat split; auto.
Qed.

Lemma s_do_read_loop_total fuel max total read w :
  (List.length (socket_rx w) < fuel)%nat ->
  value (s_do_read_loop fuel max total read w) <> None.
Proof.
  intros Hlen Hnone.
  pose proof (s_do_read_loop_spec fuel max total read w Hlen) as (_ & _ & Hv).
  cbv zeta in Hv. rewrite Hnone in Hv. exact Hv.
Qed.

(** ** [s_do_read] *)

Lemma s_do_read_unfold w :
  s_do_read w =
  if nonzero (max_to_read w) then
    let r := s_do_read_loop (S (List.length (socket_rx w))) (max_to_read w) 0 0 w in
    match value r with
    | None | Some LoopReturned => (tt, final r, events r)
    | Some (LoopLeft t) =>
        (tt, snd (after_loop w (final r) t), events r ++ fst (after_loop w (final r) t))
    end
  else (tt, w, []).
Proof.
  unfold s_do_read, max_to_read.
  run_prims.
  destruct (nonzero _) eqn:Hnz; [|reflexivity].
  match goal with |- context [s_do_read_loop ?f ?m 0 0 w] =>
    destruct (s_do_read_loop f m 0 0 w) as [[v w1] ev] end.
  cbn -[s_do_read_loop]. destruct v as [[|t]|]; cbn; rewrite ?app_nil_r; try reflexivity.
  unfold after_loop, max_to_read.
  destruct (t <? _).
  - destruct (negb (last_error w1 =? _) && negb _); cbn; rewrite ?app_nil_r; reflexivity.
  - destruct (negb _ && (t =? _)); cbn; rewrite ?app_nil_r; try reflexivity.
    destruct (nonzero (clock_error w1)) eqn:Hc; run_prims; rewrite ?app_nil_r; reflexivity.
Qed.

Lemma s_do_read_shape w : pass_shape w (s_do_read w).
Proof.
  rewrite s_do_read_unfold.
  destruct (nonzero (max_to_read w)) eqn:Hnz.
  2:{ apply PassNoQuota; auto. }
  pose proof (s_do_read_loop_spec (S (List.length (socket_rx w)))
                (max_to_read w) 0 0 w (Nat.lt_succ_diag_r _)) as (Hf & Hc & Hv).
  cbv zeta in *.
  destruct (s_do_read_loop _ _ 0 0 w) as [[v w1] lev].
  cbn [value final events fst snd] in *.
  destruct v as [[|t]|]; [| |contradiction].
  - destruct Hv as (Hs & Hr). apply PassReturned; auto. apply Hf.
  - destruct Hv as (Hs & Ht & Hr). subst t.
    apply PassLeft with (lev := lev) (w1 := w1); auto.
    destruct (read_failure lev); tauto.
Qed.

Lemma s_do_read_handler w : handler (final (s_do_read w)) = handler w.
Proof.
  destruct (s_do_read_shape w) as [Hq Hw Hev | Hq Hs Hn Hc Hh | lev w1 Hq Hev Hw Hf Hc Hs Hr].
  - now rewrite Hw.
  - exact Hh.
  - rewrite Hw. destruct Hf as (Hh & _). unfold after_loop.
    destruct (_ <? _); [destruct (negb _ && negb _); exact Hh|].
    destruct (negb _ && (_ =? _)); [destruct (nonzero (clock_error w1))|]; exact Hh.
Qed.

Lemma s_do_read_shutting_down w :
  shutdown_in_progress (handler w) = true ->
  control_events (events (s_do_read w)) = [].
Proof.
  intros Hflag.
  destruct (s_do_read_shape w) as [Hq Hw Hev | Hq Hs Hn Hc Hh | lev w1 Hq Hev Hw Hf Hc Hs Hr].
  - now rewrite Hev.
  - exact Hc.
  - rewrite Hev, control_events_app, Hc. destruct Hf as (Hh & _).
    unfold after_loop. rewrite Hh, Hflag.
    rewrite andb_false_r. cbn. destruct (_ <? _); reflexivity.
Qed.

(** A pass that stays short of its quota although no send was refused was
    ended by a read that failed. *)
Lemma short_pass_ended_by_read_error w :
  let evs := events (s_do_read w) in
  all_sends_ok evs = true ->
  total_read_of evs < max_to_read w ->
  exists e, read_failure evs = Some e.
Proof.
  cbv zeta. intros Hok Hshort.
  destruct (s_do_read_shape w) as [Hq Hw Hev | Hq Hs Hn Hc Hh | lev w1 Hq Hev Hw Hf Hc Hs Hr].
  - rewrite Hev in Hshort. apply nonzero_false in Hq. cbn in Hshort. lia.
  - congruence.
  - rewrite Hev in *. rewrite read_failure_app.
    destruct (read_failure lev) as [e|]; [eauto|]. exfalso.
    rewrite total_read_of_app in Hshort. unfold after_loop in Hshort.
    destruct (total_read_of lev <? max_to_read w) eqn:Hlt.
    + apply Z.ltb_lt in Hlt. contradiction.
    + destruct (negb _ && (_ =? _)); [destruct (nonzero (clock_error w1))|];
        cbn in Hshort; contradiction.
Qed.

(** ** Buffers and bytes of a pass *)

Lemma size_add_small a b :
  0 <= a -> 0 <= b -> a + b <= SIZE_MAX -> size_add a b = a + b.
Proof. intros. unfold size_add. apply Z.mod_small. lia. Qed.

(** Under a quota of at most half the range of [size_t] the counter never
    wraps: it is the plain number of bytes read; every buffer is asked for
    with the size of the whole quota; and the bytes read stay below the
    quota by the time of the last read, so below twice the quota in all. *)
Lemma s_do_read_loop_counts fuel :
  forall max total read w,
    0 <= total -> max <= 2 ^ 63 ->
    let evs := events (s_do_read_loop fuel max total read w) in
    total_read_from total evs = total + bytes_read evs /\
    0 <= bytes_read evs /\
    (bytes_read evs = 0 \/ total + bytes_read evs < max + max) /\
    Forall (fun size => size = max) (acquired_sizes evs).
Proof.
  induction fuel as [|fuel IH]; intros max total read w Htot Hmax; cbv zeta.
  - cbn [s_do_read_loop]. destruct (total <? max); cbn; repeat split; auto; lia.
  - cbn [s_do_read_loop].
    destruct (total <? max) eqn:Hlt.
    2:{ cbn. repeat split; auto; lia. }
    apply Z.ltb_lt in Hlt.
    destruct w as [h win op rx se we sme ce cn st sc pn le].
    destruct rx as [|[n|code] rx].
    + cbn. repeat split; auto; lia.
    + run_prims.
      assert (Hamt : 0 <= Z.max 0 (Z.min n (max - 0)) <= max) by lia.
      set (amount := Z.max 0 (Z.min n (max - 0))) in *.
      assert (Hadd : size_add total amount = total + amount).
      { apply size_add_small; try lia. unfold SIZE_MAX. lia. }
      destruct (nonzero (match sme with [] => 0 | e :: _ => e end)) eqn:Hnz.
      * run_prims. unfold total_read_from. cbn. fold amount. rewrite Hadd.
        repeat split; auto; try lia.
      * run_prims.
        match goal with |- context [s_do_read_loop fuel ?a ?b ?c ?w1] =>
          specialize (IH a b c w1);
          destruct (s_do_read_loop fuel a b c w1) as [[v w2] ev] end.
        cbn [events snd] in *. fold amount in IH |- *.
        destruct IH as (Hc & Hpos & Hb & Hall); [lia|lia|].
        unfold total_read_from in *. cbn. fold amount. rewrite Hc.
        repeat split; auto; try lia.
    + cbn. repeat split; auto; lia.
Qed.

Lemma bytes_read_app a b : bytes_read (a ++ b) = bytes_read a + bytes_read b.
Proof.
  induction a as [|x a IH]; [reflexivity|].
  destruct x; cbn [app bytes_read]; auto. destruct r; auto. lia.
Qed.

Lemma acquired_sizes_app a b :
  acquired_sizes (a ++ b) = acquired_sizes a ++ acquired_sizes b.
Proof.
  induction a as [|x a IH]; [reflexivity|].
  destruct x; cbn [app acquired_sizes]; auto. now rewrite IH.
Qed.

(** What a drain pass asks of the pool and takes from the socket, when the
    quota is at most half the range of [size_t]: every buffer has the size
    of the whole quota, the counter is the number of bytes read, and the
    pass reads less than twice the quota. *)
Lemma pass_buffers_and_bytes w :
  max_to_read w <= 2 ^ 63 ->
  let evs := events (s_do_read w) in
  Forall (fun size => size = max_to_read w) (acquired_sizes evs) /\
  total_read_of evs = bytes_read evs /\
  (bytes_read evs = 0 \/ bytes_read evs < max_to_read w + max_to_read w).
Proof.
  intros Hmax. cbv zeta. rewrite s_do_read_unfold.
  destruct (nonzero (max_to_read w)); [|cbn; auto].
  pose proof (s_do_read_loop_counts (S (List.length (socket_rx w)))
                (max_to_read w) 0 0 w (Z.le_refl 0) Hmax) as (Hc & Hpos & Hb & Hall).
  cbv zeta in *.
  destruct (s_do_read_loop _ _ 0 0 w) as [[v w1] lev].
  cbn [value final events fst snd] in *.
  assert (Htail : forall t,
            acquired_sizes (fst (after_loop w w1 t)) = [] /\
            bytes_read (fst (after_loop w w1 t)) = 0 /\
            forall x, total_read_from x (fst (after_loop w w1 t)) = x).
  { intros t. unfold after_loop.
    destruct (_ <? _); [destruct (negb _ && negb _); cbn; auto|].
    destruct (negb _ && (_ =? _)); [destruct (nonzero (clock_error w1))|]; cbn; auto. }
  destruct v as [[|t]|]; cbn [events snd]; try (repeat split; auto; lia).
  destruct (Htail t) as (Ha & Hbt & Ht).
  rewrite acquired_sizes_app, bytes_read_app, total_read_of_app, Ha, Hbt, Ht, app_nil_r.
  unfold total_read_of. repeat split; auto; lia.
Qed.

(** ** The claims on the read pipeline *)

(** C2, as the code has it.  After a drain pass a follow-up [s_read_task]
    is scheduled if and only if the pass had a quota, every read and every
    send of the pass succeeded (so the loop ran until the quota was
    reached), the bytes counted equal [max_rw_size], shutdown is not in
    progress and the channel's clock could be read.  The count is compared
    with the chunk size, not with [max_to_read]: a pass that consumes exactly
    a window smaller than the chunk size schedules nothing. *)
Theorem C2_followup_read_scheduled_iff (w : world) :
  let evs := events (s_do_read w) in
  (read_task_scheduled evs <->
   (max_to_read w <> 0 /\ read_failure evs = None /\ all_sends_ok evs = true /\
    total_read_of evs = max_rw_size (handler w) /\
    shutdown_in_progress (handler w) = false /\ clock_error w = 0)) /\
  ~ (downstream_read_window w < max_rw_size (handler w) /\
     total_read_of evs = max_to_read w /\ read_task_scheduled evs).
Proof.
  cbv zeta.
  assert (Hiff :
    read_task_scheduled (events (s_do_read w)) <->
    (max_to_read w <> 0 /\ read_failure (events (s_do_read w)) = None /\
     all_sends_ok (events (s_do_read w)) = true /\
     total_read_of (events (s_do_read w)) = max_rw_size (handler w) /\
     shutdown_in_progress (handler w) = false /\ clock_error w = 0)).
  { unfold read_task_scheduled.
    destruct (s_do_read_shape w)
      as [Hq Hw Hev | Hq Hs Hn Hc Hh | lev w1 Hq Hev Hw Hf Hc Hs Hr].
    - rewrite Hev. apply nonzero_false in Hq. split.
      + intros [t []].
      + intros (Hne & _). contradiction.
    - split.
      + intros [t Hin]. apply (control_events_nil_In _ _ Hc) in Hin. discriminate.
      + intros (_ & _ & Hok & _). congruence.
    - destruct Hf as (Hh & _ & _ & Hce & Hcn & _).
      rewrite Hev. rewrite read_failure_app, all_sends_ok_app, total_read_of_app, Hs.
      unfold after_loop. rewrite Hh, Hce.
      destruct (total_read_of lev <? max_to_read w) eqn:Hlt.
      + apply Z.ltb_lt in Hlt. split.
        * intros [t Hin]. apply in_app_or in Hin. destruct Hin as [Hin|Hin].
          -- apply (control_events_nil_In _ _ Hc) in Hin. discriminate.
          -- destruct (negb _ && negb _); cbn in Hin; intuition discriminate.
        * intros (_ & Hnone & _). destruct (read_failure lev); [discriminate|]. tauto.
      + apply Z.ltb_ge in Hlt.
        assert (Hnone : read_failure lev = None).
        { destruct (read_failure lev); [lia|reflexivity]. }
        rewrite Hnone.
        destruct (shutdown_in_progress (handler w)) eqn:Hflag; cbn [negb andb].
        { split.
          - intros [t Hin]. apply in_app_or in Hin. destruct Hin as [Hin|[]].
            apply (control_events_nil_In _ _ Hc) in Hin. discriminate.
          - intros (_ & _ & _ & _ & Hfalse & _). discriminate. }
        destruct (total_read_of lev =? max_rw_size (handler w)) eqn:Heq.
        2:{ apply Z.eqb_neq in Heq. split.
            - intros [t Hin]. apply in_app_or in Hin. destruct Hin as [Hin|[]].
              apply (control_events_nil_In _ _ Hc) in Hin. discriminate.
            - cbn. intros (_ & _ & _ & Htot & _). contradiction. }
        apply Z.eqb_eq in Heq.
        destruct (nonzero (clock_error w)) eqn:Hclk.
        { apply nonzero_true in Hclk. split.
          - intros [t Hin]. apply in_app_or in Hin. destruct Hin as [Hin|[]].
            apply (control_events_nil_In _ _ Hc) in Hin. discriminate.
          - intros (_ & _ & _ & _ & _ & Hz). contradiction. }
        apply nonzero_false in Hclk. apply nonzero_true in Hq. cbn. split.
        * intros _. repeat split; auto.
        * intros _. exists (clock_now w1). apply in_or_app. right. left. reflexivity. }
  split; [exact Hiff|].
  intros (Hsmall & Htotal & Hsched).
  apply Hiff in Hsched. destruct Hsched as (_ & _ & _ & Hchunk & _).
  unfold max_to_read in Htotal.
  destruct (downstream_read_window w >? max_rw_size (handler w)) eqn:Hgt.
  - apply Z.gtb_lt in Hgt. lia.
  - lia.
Qed.

(** C5.  When a drain pass is ended by a socket read that fails with code
    [e], fewer bytes than [max_to_read] were counted, [e] is what
    [aws_last_error] gives after the loop, and what the handler then does to
    the channel is: nothing (no shutdown, nothing scheduled) when [e] is
    [AWS_IO_READ_WOULD_BLOCK] or shutdown is already in progress, and one
    [aws_channel_shutdown] carrying [e] otherwise. *)
Theorem C5_read_error_after_loop (w : world) (e : Z) :
  let r := s_do_read w in
  let evs := events r in
  read_failure evs = Some e ->
  total_read_of evs < max_to_read w /\
  all_sends_ok evs = true /\
  last_error (final r) = e /\
  control_events evs =
    (if (e =? AWS_IO_READ_WOULD_BLOCK) || shutdown_in_progress (handler w)
     then [] else [EvChannelShutdown e]).
Proof.
  cbv zeta. intros Hfail.
  destruct (s_do_read_shape w) as [Hq Hw Hev | Hq Hs Hn Hc Hh | lev w1 Hq Hev Hw Hf Hc Hs Hr].
  - rewrite Hev in Hfail. discriminate.
  - congruence.
  - destruct Hf as (Hh & _).
    rewrite Hw, Hev in *. clear Hw Hev.
    rewrite total_read_of_app, all_sends_ok_app, control_events_app, Hc, Hs.
    rewrite read_failure_app in Hfail.
    unfold after_loop in *. rewrite Hh in *.
    destruct (read_failure lev) as [e'|] eqn:Hrf.
    + injection Hfail as ->. destruct Hr as (Hlt & Hle).
      apply Z.ltb_lt in Hlt. rewrite Hlt. rewrite Hle.
      apply Z.ltb_lt in Hlt.
      destruct (e =? AWS_IO_READ_WOULD_BLOCK), (shutdown_in_progress (handler w));
        cbn; auto.
    + exfalso. destruct (_ <? _).
      * destruct (negb _ && negb _); discriminate.
      * destruct (negb _ && (_ =? _)); [destruct (nonzero (clock_error w1))|];
          discriminate.
Qed.

(** ** The write pipeline and the shutdown protocol *)

Lemma s_drain_write_queue_run (queue : list aws_io_message) :
  forall w,
    s_drain_write_queue queue w =
    (tt,
     match queue with
     | [] => w
     | _ :: _ => with_handler (with_write_queue [] (handler w)) w
     end,
     drained AWS_IO_SOCKET_CLOSED queue).
Proof.
  induction queue as [|m rest IH]; intros w; [reflexivity|].
  cbn [s_drain_write_queue]. rewrite !bind_run.
  unfold drained. cbn [flat_map]. unfold drained_message at 1.
  destruct (on_completion m) as [cb|]; rewrite ?bind_run, IH;
    run_prims; destruct rest; reflexivity.
Qed.

Lemma s_socket_shutdown_quiet dir error_code abort w :
  let r := s_socket_shutdown dir error_code abort w in
  shutdown_in_progress (handler (final r)) = true /\
  filter is_read_task_scheduled (events r) = [] /\
  filter is_channel_shutdown (events r) = [].
Proof.
  cbv zeta.
  destruct w as [h win op rx se we sme ce cn st sc pn le].
  destruct h as [q mrw sec sip].
  unfold s_socket_shutdown. destruct dir.
  - destruct abort, op; destruct (nonzero se) eqn:Hse;
      run_prims; rewrite ?Hse; run_prims; rewrite ?Hse; repeat split; reflexivity.
  - rewrite !bind_run.
    cbn [modify gets value final events handler write_queue with_handler
         with_shutdown_in_progress max_rw_size shutdown_err_code fst snd].
    rewrite s_drain_write_queue_run.
    cbn [value final events fst snd].
    rewrite !filter_app, !filter_drained_nil by reflexivity.
    destruct q as [|m q]; destruct op; destruct (nonzero se) eqn:Hse;
      destruct (nonzero ce) eqn:Hce; run_prims; rewrite ?Hse, ?Hce; run_prims;
      rewrite ?Hse, ?Hce, ?app_nil_r; repeat split; reflexivity.
Qed.

(** C3, as the code has it.  A write completion that carries no message
    does nothing.  One that carries a message calls the message's
    completion callback, when it has one, with the error code of the
    completion, gives the message back to the pool and, when the code is
    not zero, asks the channel to shut down with it.  The handler's state is
    neither read nor changed: [shutdown_in_progress] does not guard this
    shutdown. *)
Theorem C3_write_complete (w : world) (error_code : Z)
    (user_data : option aws_io_message) :
  let r := s_on_socket_write_complete error_code user_data w in
  final r = w /\
  events r =
    match user_data with
    | None => []
    | Some message =>
        match on_completion message with
        | Some callback => [EvOnCompletion callback (message_id message) error_code]
        | None => []
        end ++
        [EvReleaseMessage (message_id message)] ++
        (if nonzero error_code then [EvChannelShutdown error_code] else [])
    end.
Proof.
  cbv zeta. unfold s_on_socket_write_complete.
  destruct user_data as [message|]; [|split; reflexivity].
  destruct (on_completion message); destruct (nonzero error_code);
    run_prims; split; reflexivity.
Qed.

(** C4, as the code has it.  A shutdown in the write direction sets
    [shutdown_in_progress]; empties the write queue front to back, calling
    each message's completion callback (when it has one) with
    [AWS_IO_SOCKET_CLOSED] and giving the message back to the pool; shuts the
    socket down when it is open; and never reports shutdown-complete
    inline.  When the channel's clock can be read it records the error code
    and schedules [s_shutdown_task], which reports the write direction
    complete with that code; when the clock cannot be read it returns
    [AWS_OP_ERR] and schedules nothing. *)
Theorem C4_write_shutdown (w : world) (error_code : Z) (abort : bool)
    (status : aws_task_status) :
  let r := s_socket_shutdown AWS_CHANNEL_DIR_WRITE error_code abort w in
  shutdown_in_progress (handler (final r)) = true /\
  write_queue (handler (final r)) = [] /\
  socket_open (final r) = socket_open w && nonzero (socket_shutdown_error w) /\
  events r =
    drained AWS_IO_SOCKET_CLOSED (write_queue (handler w)) ++
    (if socket_open w then [EvSocketShutdown (socket_shutdown_error w)] else []) ++
    (if nonzero (clock_error w) then []
     else [EvScheduleTask fn_s_shutdown_task (clock_now w)]) /\
  filter is_shutdown_complete (events r) = [] /\
  (if nonzero (clock_error w) then value r = AWS_OP_ERR
   else value r = schedule_task_rc w /\
        shutdown_err_code (handler (final r)) = error_code /\
        events (s_shutdown_task status (final r)) =
          [EvShutdownComplete AWS_CHANNEL_DIR_WRITE error_code false]).
Proof.
  cbv zeta.
  destruct w as [h win op rx se we sme ce cn st sc pn le].
  destruct h as [q mrw sec sip].
  unfold s_socket_shutdown. rewrite !bind_run.
  cbn [modify gets value final events handler write_queue with_handler
       with_shutdown_in_progress max_rw_size shutdown_err_code fst snd].
  rewrite s_drain_write_queue_run.
  cbn [value final events fst snd].
  destruct q as [|m q]; destruct op; destruct (nonzero se) eqn:Hse;
    destruct (nonzero ce) eqn:Hce; run_prims; rewrite ?Hse, ?Hce; run_prims;
    rewrite ?Hse, ?Hce, ?app_nil_r; repeat split; auto;
    cbn [events value final fst snd];
    change (drained_message AWS_IO_SOCKET_CLOSED m ++
            flat_map (drained_message AWS_IO_SOCKET_CLOSED) q)
      with (drained AWS_IO_SOCKET_CLOSED (m :: q));
    rewrite ?filter_app, filter_drained_nil by reflexivity; reflexivity.
Qed.

(** C7, as the code has it.  A shutdown in the read direction sets
    [shutdown_in_progress]; when it is an abort and the socket is open it
    shuts the socket down first; it schedules no task.  Unless that socket
    shutdown fails, it reports shutdown-complete for the read direction
    inline, with the error code and the abort flag of the call; when the
    socket shutdown fails it returns [AWS_OP_ERR] and reports nothing. *)
Theorem C7_read_shutdown (w : world) (error_code : Z) (abort : bool) :
  let r := s_socket_shutdown AWS_CHANNEL_DIR_READ error_code abort w in
  let closing := abort && socket_open w in
  let failed := closing && nonzero (socket_shutdown_error w) in
  shutdown_in_progress (handler (final r)) = true /\
  events r =
    (if closing then [EvSocketShutdown (socket_shutdown_error w)] else []) ++
    (if failed then []
     else [EvShutdownComplete AWS_CHANNEL_DIR_READ error_code abort]) /\
  filter is_task_scheduled (events r) = [] /\
  value r = (if failed then AWS_OP_ERR else shutdown_complete_rc w) /\
  socket_open (final r) = socket_open w && (negb closing || failed).
Proof.
  cbv zeta.
  destruct w as [h win op rx se we sme ce cn st sc pn le].
  destruct h as [q mrw sec sip].
  unfold s_socket_shutdown.
  destruct abort, op; destruct (nonzero se) eqn:Hse;
    run_prims; rewrite ?Hse; run_prims; rewrite ?Hse; repeat split; reflexivity.
Qed.

(** C8, as the code has it.  [s_read_task] does its work, one drain pass,
    only when its status is [AWS_TASK_STATUS_RUN_READY], and does nothing
    when it is delivered cancelled.  [s_shutdown_task] does not look at its
    status: run or cancelled, it reports the write direction complete with
    the recorded error code. *)
Theorem C8_task_status (w : world) :
  s_read_task AWS_TASK_STATUS_CANCELED w = (tt, w, []) /\
  s_read_task AWS_TASK_STATUS_RUN_READY w = s_do_read w /\
  forall status,
    s_shutdown_task status w =
    (tt, w, [EvShutdownComplete AWS_CHANNEL_DIR_WRITE
               (shutdown_err_code (handler w)) false]).
Proof. repeat split. Qed.

(** C9, as the code has it.  In a build with [NDEBUG],
    [s_socket_process_read_message] fails whatever its arguments are: it
    raises [AWS_IO_CHANNEL_ERROR_ERROR_CANT_ACCEPT_INPUT], returns
    [AWS_OP_ERR], calls no collaborator and changes nothing but the
    thread's last error.  In a build with assertions, [assert(0)] aborts the
    process before anything is raised. *)
Theorem C9_process_read_message (message : aws_io_message) (w : world) :
  s_socket_process_read_message message w =
  if NDEBUG
  then (Returns AWS_OP_ERR,
        with_last_error AWS_IO_CHANNEL_ERROR_ERROR_CANT_ACCEPT_INPUT w, [])
  else (Aborts, w, []).
Proof. unfold s_socket_process_read_message. destruct NDEBUG; reflexivity. Qed.

(** ** Once shutdown is in progress *)

Lemma run_call_shutting_down (c : handler_call) (w : world) :
  shutdown_in_progress (handler w) = true ->
  let r := run_call c w in
  shutdown_in_progress (handler (final r)) = true /\
  filter is_read_task_scheduled (events r) = [] /\
  filter is_channel_shutdown (events r) = write_completion_shutdown c.
Proof.
  intros Hflag. cbv zeta.
  assert (Hread : shutdown_in_progress (handler (final (s_do_read w))) = true /\
                  filter is_read_task_scheduled (events (s_do_read w)) = [] /\
                  filter is_channel_shutdown (events (s_do_read w)) = []).
  { rewrite s_do_read_handler. split; [exact Hflag|].
    apply control_events_nil_filters, s_do_read_shutting_down, Hflag. }
  destruct c as [e|e ud|fn st|m|m|size|dir e abort];
    unfold run_call; rewrite bind_run || idtac; cbn [write_completion_shutdown].
  - unfold s_on_readable_notification.
    destruct (negb (nonzero e)).
    + cbn [ret value final events fst snd]. rewrite app_nil_r. tauto.
    + run_prims. rewrite Hflag. cbn. auto.
  - unfold s_on_socket_write_complete. destruct ud as [m|]; [|cbn; auto].
    destruct (on_completion m); destruct (nonzero e); run_prims;
      repeat split; auto.
  - destruct fn, st; cbn [run_task s_read_task s_shutdown_task];
      try (cbn [ret value final events fst snd]; rewrite app_nil_r; tauto);
      run_prims; auto.
  - unfold s_socket_process_read_message. destruct NDEBUG; run_prims; auto.
  - unfold s_socket_process_write_message. run_prims.
    destruct (nonzero (socket_write_error w)); run_prims; auto.
  - unfold socket_increment_read_window. run_prims. rewrite Hflag. cbn. auto.
  - cbn [ret value final events fst snd]. rewrite app_nil_r.
    pose proof (s_socket_shutdown_quiet dir e abort w) as H. cbv zeta in H. tauto.
Qed.

Lemma no_failed_write_completion cs n :
  existsb is_failed_write_completion cs = false ->
  write_completion_shutdowns (firstn n cs) = [].
Proof.
  revert n. induction cs as [|c cs IH]; intros n Hno; destruct n; auto.
  cbn [existsb] in Hno. apply orb_false_iff in Hno. destruct Hno as [Hc Hcs].
  cbn [firstn]. unfold write_completion_shutdowns in *. cbn [flat_map].
  rewrite (IH n Hcs), app_nil_r.
  destruct c as [| e [m|] | | | | |]; try reflexivity.
  cbn in Hc |- *. now rewrite Hc.
Qed.

(** C6.  From a state in which [shutdown_in_progress] is set, whatever
    calls reach the handler afterwards and in whatever order (readable
    notifications with or without an error, read tasks, window increments,
    shutdowns, writes and their completions): the flag stays set; no
    [s_read_task] is scheduled, neither by the end of a drain pass nor by
    [socket_increment_read_window]; and no socket error, a readable
    notification's or a failed read's, asks the channel to shut down: the
    calls to [aws_channel_shutdown] in the log are exactly those of the
    failed write completions among the calls that ran, so there is none in
    a history without such a completion. *)
Theorem C6_shutdown_in_progress_is_quiet (cs : list handler_call) :
  forall w : world,
    shutdown_in_progress (handler w) = true ->
    let r := run_calls cs w in
    shutdown_in_progress (handler (final r)) = true /\
    filter is_read_task_scheduled (events r) = [] /\
    (exists n, filter is_channel_shutdown (events r) =
               write_completion_shutdowns (firstn n cs)) /\
    (existsb is_failed_write_completion cs = false ->
     filter is_channel_shutdown (events r) = []).
Proof.
  assert (Hmain : forall w : world,
    shutdown_in_progress (handler w) = true ->
    shutdown_in_progress (handler (final (run_calls cs w))) = true /\
    filter is_read_task_scheduled (events (run_calls cs w)) = [] /\
    exists n, filter is_channel_shutdown (events (run_calls cs w)) =
              write_completion_shutdowns (firstn n cs)).
  { induction cs as [|c cs IH]; intros w Hflag.
    - cbn. repeat split; auto. exists 0%nat. reflexivity.
    - cbn [run_calls]. rewrite bind_run.
      pose proof (run_call_shutting_down c w Hflag) as (Hf & Hr & Hs).
      destruct (run_call c w) as [[v w1] ev1]. cbn [value final events fst snd] in *.
      destruct v as [rc|]; cbn [value final events fst snd].
      + destruct (IH w1 Hf) as (Hf2 & Hr2 & n & Hs2).
        rewrite !filter_app, Hr, Hr2, Hs, Hs2. repeat split; auto.
        exists (S n). reflexivity.
      + cbn. rewrite !app_nil_r. repeat split; auto.
        exists 1%nat. cbn. unfold write_completion_shutdowns. cbn.
        now rewrite app_nil_r. }
  intros w Hflag. cbv zeta.
  destruct (Hmain w Hflag) as (Hf & Hr & n & Hs).
  repeat split; auto.
  - exists n. exact Hs.
  - intros Hno. rewrite Hs. apply no_failed_write_completion, Hno.
Qed.

End HandlerProofs.

(* ===================================================================== *)
(** * Part XII: the URI parser, proofs                                    *)
(* ===================================================================== *)

Section UriProofs.
Context {K : build_constants}.
Variable beyond : ascii.

Ltac split_advance :=
  repeat match goal with
  | |- context [aws_byte_cursor_advance ?c ?n] =>
      destruct (aws_byte_cursor_advance c n) as [? ?]
  end.

Lemma same_storage_refl c : same_storage c c.
Proof. split; reflexivity. Qed.

Lemma same_storage_trans a b c :
  same_storage a b -> same_storage b c -> same_storage a c.
Proof. unfold same_storage. intros [-> ->] [-> ->]. auto. Qed.

Lemma s_parse_authority_port_state c :
  same_storage c (s_parse_authority_port beyond c) /\
  (state (s_parse_authority_port beyond c) = state c \/
   state (s_parse_authority_port beyond c) = ERROR).
Proof.
  unfold s_parse_authority_port.
  repeat match goal with
  | |- context [if ?b then _ else _] => destruct b
  end; cbn; unfold same_storage; cbn; auto.
Qed.

Lemma s_parse_scheme_state c :
  same_storage c (s_parse_scheme beyond c) /\
  (state (s_parse_scheme beyond c) = ON_AUTHORITY \/
   state (s_parse_scheme beyond c) = ERROR).
Proof.
  unfold s_parse_scheme.
  destruct (is_null _); [cbn; unfold same_storage; auto|].
  destruct (_ && _); [cbn; unfold same_storage; auto|].
  split_advance. cbn.
  destruct (_ || _); [cbn; unfold same_storage; auto|].
  split_advance. cbn. unfold same_storage; auto.
Qed.

(** The branch of [s_parse_authority] that would leave the state as it is
    (neither a slash nor a question mark, in a string that is not empty) is
    the first branch's condition: it is never taken. *)
Lemma s_parse_authority_state c :
  same_storage c (s_parse_authority beyond c) /\
  (state (s_parse_authority beyond c) = ON_PATH \/
   state (s_parse_authority beyond c) = ON_QUERY_STRING \/
   state (s_parse_authority beyond c) = FINISHED \/
   state (s_parse_authority beyond c) = ERROR).
Proof.
  unfold s_parse_authority.
  destruct (is_null (memchr _ _ _ "/"%char _)) eqn:Hslash;
    destruct (is_null (memchr _ _ _ "?"%char _)) eqn:Hqmark;
    destruct (nonzero (cur_len (str c))) eqn:Hlen;
    cbn [andb negb]; split_advance;
    match goal with
    | |- context [s_parse_authority_port beyond ?x] =>
        destruct (s_parse_authority_port_state x) as ([Hu Hl] & [Hs|Hs]);
        unfold same_storage; rewrite Hu, Hl, Hs; cbn; auto 6
    | _ => unfold same_storage; cbn; auto 6
    end.
Qed.

Lemma s_parse_path_state c :
  same_storage c (s_parse_path beyond c) /\
  (state (s_parse_path beyond c) = ON_QUERY_STRING \/
   state (s_parse_path beyond c) = FINISHED \/
   state (s_parse_path beyond c) = ERROR).
Proof.
  unfold s_parse_path. cbn.
  destruct (is_null _); [|destruct (negb _)]; split_advance;
    unfold same_storage; cbn; auto.
Qed.

Lemma s_parse_query_string_state c :
  same_storage c (s_parse_query_string c) /\
  state (s_parse_query_string c) = FINISHED.
Proof.
  unfold s_parse_query_string.
  destruct (is_null _); destruct (nonzero _); split_advance;
    unfold same_storage; cbn; auto.
Qed.

(** Every state function leaves the parser in a later state. *)
Lemma s_states_progress c :
  state_rank (state c) < state_rank FINISHED ->
  same_storage c (s_states beyond (state c) c) /\
  state_rank (state c) < state_rank (state (s_states beyond (state c) c)).
Proof.
  intros Hlive. destruct (state c) eqn:Hst; cbn [s_states].
  - destruct (s_parse_scheme_state c) as (Hs & [H|H]); rewrite H; cbn; auto with zarith.
  - destruct (s_parse_authority_state c) as (Hs & [H|[H|[H|H]]]); rewrite H; cbn;
      auto with zarith.
  - destruct (s_parse_path_state c) as (Hs & [H|[H|H]]); rewrite H; cbn; auto with zarith.
  - destruct (s_parse_query_string_state c) as (Hs & H); rewrite H; cbn; auto with zarith.
  - cbn in Hlive. lia.
  - cbn in Hlive. lia.
Qed.

(** The loop comes to an end within the turns that separate the state from
    [FINISHED]: the bound is never used up. *)
Lemma s_parser_loop_total (fuel : nat) :
  forall c,
    state_rank FINISHED - state_rank (state c) <= Z.of_nat fuel ->
    exists c',
      s_parser_loop beyond fuel c = Some c' /\
      state_rank FINISHED <= state_rank (state c') /\
      same_storage c c'.
Proof.
  induction fuel as [|fuel IH]; intros c Hfuel.
  - cbn [s_parser_loop]. destruct (_ <? _) eqn:Hlt.
    + apply Z.ltb_lt in Hlt. lia.
    + apply Z.ltb_ge in Hlt. exists c. auto using same_storage_refl.
  - cbn [s_parser_loop]. destruct (_ <? _) eqn:Hlt.
    + apply Z.ltb_lt in Hlt.
      destruct (s_states_progress c Hlt) as (Hs & Hr).
      destruct (IH (s_states beyond (state c) c)) as (c' & Hrun & Hend & Hs').
      { lia. }
      exists c'. eauto using same_storage_trans.
    + apply Z.ltb_ge in Hlt. exists c. auto using same_storage_refl.
Qed.

(** When the allocator has no memory for the copy, [aws_uri_init_parse]
    returns before any parsing, with [self_size] and [allocator] set and
    [AWS_ERROR_OOM] raised. *)
Lemma aws_uri_init_parse_no_memory (uri_str : list ascii) (c : parse_ctx) :
  aws_uri_init_parse beyond false uri_str c =
  Some (AWS_OP_ERR,
        uri_raise_error AWS_ERROR_OOM
          (set_uri (mk_uri sizeof_aws_uri true zero_buf zero_cursor zero_cursor
                      zero_cursor 0 zero_cursor zero_cursor zero_cursor) c)).
Proof. reflexivity. Qed.

(** Once the copy is made, [aws_uri_init_parse] returns, and it returns
    one of two things: [AWS_OP_SUCCESS], with the parser in [FINISHED] and
    the copy kept; or [AWS_OP_ERR], with the parser in [ERROR], the whole
    [struct aws_uri] zeroed and the copy given back to the allocator. *)
Lemma aws_uri_init_parse_with_memory (uri_str : list ascii) (c : parse_ctx) :
  exists rc c',
    aws_uri_init_parse beyond true uri_str c = Some (rc, c') /\
    ((rc = AWS_OP_SUCCESS /\ state c' = FINISHED /\
      live_blocks c' = S (live_blocks c)) \/
     (rc = AWS_OP_ERR /\ state c' = ERROR /\
      uri c' = zero_uri /\ live_blocks c' = live_blocks c)).
Proof.
  unfold aws_uri_init_parse, aws_byte_buf_init_copy_from_cursor.
  change (nonzero AWS_OP_SUCCESS) with false. cbv iota.
  unfold s_init_from_uri_str.
  match goal with
  | |- context [s_parser_loop beyond 4 ?c0] =>
      destruct (s_parser_loop_total 4 c0) as (c' & Hrun & Hend & Hu & Hl);
        [cbn; lia|rewrite Hrun]
  end.
  cbn in Hu, Hl.
  destruct (state c') eqn:Hst; cbn in Hend; try lia.
  - exists AWS_OP_SUCCESS, c'. split; [reflexivity|]. left. auto.
  - eexists _, _. split; [reflexivity|]. right.
    unfold aws_byte_buf_clean_up. rewrite Hu. cbn. rewrite Hl, Hst. auto.
Qed.

(** C10, amended.  For every uri string (and whatever lies after its copy
    in memory) and whether or not the allocator has memory for the copy,
    [aws_uri_init_parse] returns, and it returns one of three things.
    [AWS_OP_SUCCESS], with the parser in [FINISHED] and the copy kept.
    [AWS_OP_ERR] from a failed parse, with the parser in [ERROR], the whole
    [struct aws_uri] zeroed (no scheme, authority, host name, port, path or
    query left from the fields parsed before the error) and the copy of the
    string given back to the allocator.  Or [AWS_OP_ERR] because the copy
    could not be allocated: then no field was parsed and no block is held,
    but the struct is not all zero, [self_size] and [allocator] stay set,
    and [AWS_ERROR_OOM] is the error raised. *)
Theorem C10_failed_init_parse_leaves_no_parsed_field
    (alloc_ok : bool) (uri_str : list ascii) (c : parse_ctx) :
  exists rc c',
    aws_uri_init_parse beyond alloc_ok uri_str c = Some (rc, c') /\
    ((rc = AWS_OP_SUCCESS /\ alloc_ok = true /\ state c' = FINISHED /\
      live_blocks c' = S (live_blocks c)) \/
     (rc = AWS_OP_ERR /\ alloc_ok = true /\ state c' = ERROR /\
      uri c' = zero_uri /\ live_blocks c' = live_blocks c) \/
     (rc = AWS_OP_ERR /\ alloc_ok = false /\
      uri c' = mk_uri sizeof_aws_uri true zero_buf zero_cursor zero_cursor
                 zero_cursor 0 zero_cursor zero_cursor zero_cursor /\
      live_blocks c' = live_blocks c /\ raised c' = AWS_ERROR_OOM /\
      state c' = state c /\ str c' = str c)).
Proof.
  destruct alloc_ok.
  - destruct (aws_uri_init_parse_with_memory uri_str c)
      as (rc & c' & Hrun & [(-> & Hst & Hl)|(-> & Hst & Hu & Hl)]);
      eexists _, c'; (split; [exact Hrun|]); [left|right; left]; auto.
  - rewrite aws_uri_init_parse_no_memory. eexists _, _. split; [reflexivity|].
    right. right. cbn. auto 8.
Qed.

End UriProofs.

(* ===================================================================== *)
(** * Part XIII: runs on the sample worlds                                *)
(* ===================================================================== *)

(** ** The definitions at work *)

(** Chunk size 4096 under a window of 10000, with 6000 bytes on the socket:
    one buffer of 4096 is read and forwarded, the quota is reached, and the
    follow-up read is scheduled at the clock's time. *)
Example pass_of_one_chunk :
  events (s_do_read (K := release_build)
            (sample_world (mk_socket_handler [] 4096 0 false) 10000 [ReadOk 6000])) =
  [EvAcquireMessage 0 4096;
   EvSocketRead 0 4096 (ReadOk 4096);
   EvSendMessage 0 4096 AWS_CHANNEL_DIR_READ 0;
   EvScheduleTask fn_s_read_task 77].
Proof. reflexivity. Qed.

(** A socket with nothing to deliver: the read would block, the buffer goes
    back to the pool and nothing else happens. *)
Example pass_on_idle_socket :
  events (s_do_read (K := release_build)
            (sample_world (mk_socket_handler [] 4096 0 false) 10000 [])) =
  [EvAcquireMessage 0 4096;
   EvSocketRead 0 4096 (ReadErr 1043);
   EvReleaseMessage 0].
Proof. reflexivity. Qed.

(** Shutting down with A, B and C queued: A and C have callbacks, B has
    none; the socket is closed and the notification is deferred. *)
Example shutdown_fails_queued_writes_in_order :
  events (s_socket_shutdown (K := release_build) AWS_CHANNEL_DIR_WRITE 5 false
            world_queued) =
  [EvOnCompletion 1 100 1047; EvReleaseMessage 100;
   EvReleaseMessage 101;
   EvOnCompletion 3 102 1047; EvReleaseMessage 102;
   EvSocketShutdown 0;
   EvScheduleTask fn_s_shutdown_task 77].
Proof. reflexivity. Qed.

Example parse_full_uri :
  match aws_uri_init_parse (K := release_build) zero true
          UriSamples.full_uri sample_ctx with
  | Some (rc, c) =>
      rc = AWS_OP_SUCCESS /\
      scheme (uri c) = mk_cursor 5 (Some (URI_STR, 0)) /\
      authority (uri c) = mk_cursor 15 (Some (URI_STR, 8)) /\
      host_name (uri c) = mk_cursor 11 (Some (URI_STR, 8)) /\
      port (uri c) = 443 /\
      path (uri c) = mk_cursor 5 (Some (URI_STR, 23)) /\
      query_string (uri c) = mk_cursor 3 (Some (URI_STR, 29)) /\
      path_and_query (uri c) = mk_cursor 9 (Some (URI_STR, 23))
  | None => False
  end.
Proof. vm_compute. repeat split. Qed.

Example parse_host_only :
  match aws_uri_init_parse (K := release_build) zero true
          UriSamples.host_only sample_ctx with
  | Some (rc, c) =>
      rc = AWS_OP_SUCCESS /\
      host_name (uri c) = mk_cursor 11 (Some (URI_STR, 0)) /\
      port (uri c) = 0 /\
      path (uri c) = mk_cursor 1 (Some (DEFAULT_PATH, 0))
  | None => False
  end.
Proof. vm_compute. repeat split. Qed.

(** A port that does not fit 16 bits: the host name was already parsed when
    the error is found, and nothing of it is left. *)
Example parse_port_out_of_range :
  match aws_uri_init_parse (K := release_build) zero true
          UriSamples.port_out_of_range sample_ctx with
  | Some (rc, c) =>
      rc = AWS_OP_ERR /\ uri c = zero_uri /\ live_blocks c = 0%nat /\ raised c = 30
  | None => False
  end.
Proof. vm_compute. repeat split. Qed.

(** ** C1: the second buffer of a pass *)

(** C1 at the world [world_two_reads] (chunk size 10, window 10, the socket
    delivers 6 bytes and then has 10 more).  The quota is 10.  Both buffers
    are asked for with size 10, though only 4 bytes of the quota remain
    when the second is acquired; the second read fills it, and the pass
    reads 16 bytes and forwards all 16. *)
Theorem C1_second_buffer_overshoots :
  let w := world_two_reads in
  let evs := events (s_do_read (K := release_build) w) in
  max_to_read w = 10 /\
  Z.min (downstream_read_window w) (max_rw_size (handler w)) = 10 /\
  acquired_sizes evs = [10; 10] /\
  bytes_read evs = 16 /\
  bytes_forwarded evs = 16.
Proof. vm_compute. repeat split. Qed.

(** ** Counterexamples to the claims as they are stated *)

(** C2 as stated fails at [world_small_window] (chunk size 10, window 5, 5
    bytes on the socket): exactly [max_to_read] = 5 bytes are obtained and
    shutdown is not in progress, yet no follow-up read is scheduled. *)
Lemma C2_counterexample :
  let w := world_small_window in
  let evs := events (s_do_read (K := release_build) w) in
  ~ (read_task_scheduled evs <->
     (total_read_of evs = max_to_read w /\
      shutdown_in_progress (handler w) = false)).
Proof.
  cbv zeta. intros [_ H].
  destruct H as [t Hin]; [split; reflexivity|].
  vm_compute in Hin. intuition discriminate.
Qed.

(** C3 as stated fails at [world_shutting_down]: shutdown is in progress,
    and the completion of message A with error 5 still asks the channel to
    shut down. *)
Lemma C3_counterexample :
  let w := world_shutting_down in
  let evs := events (s_on_socket_write_complete 5 (Some message_a) w) in
  ~ (In (EvChannelShutdown 5) evs <->
     (5 <> 0 /\ shutdown_in_progress (handler w) = false)).
Proof.
  cbv zeta. intros [H _].
  destruct H as [_ H]; [cbn; auto|]. discriminate.
Qed.

(** C4 as stated fails at [world_queued] with a clock that cannot be read:
    the write-direction shutdown drains the queue and closes the socket, and
    schedules no shutdown-complete notification. *)
Lemma C4_counterexample :
  let w := with_clock_error 9 world_queued in
  let r := s_socket_shutdown (K := release_build) AWS_CHANNEL_DIR_WRITE 0 false w in
  ~ (exists t, In (EvScheduleTask fn_s_shutdown_task t) (events r)).
Proof.
  cbv zeta. intros [t Hin]. vm_compute in Hin. intuition discriminate.
Qed.

(** C7 as stated fails at [world_queued] with a socket whose shutdown
    fails: the aborting read-direction shutdown returns [AWS_OP_ERR] and
    does not report shutdown-complete. *)
Lemma C7_counterexample :
  let w := with_socket_shutdown_error 7 world_queued in
  let r := s_socket_shutdown (K := release_build) AWS_CHANNEL_DIR_READ 0 true w in
  ~ In (EvShutdownComplete AWS_CHANNEL_DIR_READ 0 true) (events r).
Proof.
  cbv zeta. intros Hin. vm_compute in Hin. intuition discriminate.
Qed.

(** C8 as stated fails for the shutdown task: delivered cancelled, it is
    not a no-op. *)
Lemma C8_counterexample :
  ~ (s_shutdown_task AWS_TASK_STATUS_CANCELED world_queued = (tt, world_queued, [])).
Proof. intros H. discriminate. Qed.

(** C9 as stated fails in a build with assertions: the call does not
    return [AWS_OP_ERR] with the error raised, it aborts. *)
Lemma C9_counterexample :
  let r := s_socket_process_read_message (K := debug_build) message_a world_queued in
  ~ (value r = Returns AWS_OP_ERR /\
     last_error (final r) = AWS_IO_CHANNEL_ERROR_ERROR_CANT_ACCEPT_INPUT (build_constants := debug_build)).
Proof. cbv zeta. intros [H _]. discriminate. Qed.

(** C10 as stated fails when the allocator has no memory for the copy:
    [aws_uri_init_parse] returns [AWS_OP_ERR], and the struct is not left
    zeroed, its [self_size] and [allocator] are set. *)
Lemma C10_counterexample :
  let r := aws_uri_init_parse (K := release_build) zero false
             UriSamples.full_uri sample_ctx in
  exists c',
    r = Some (AWS_OP_ERR, c') /\ uri c' <> zero_uri /\
    self_size (uri c') = 184 /\ allocator (uri c') = true.
Proof.
  cbv zeta. eexists. split; [reflexivity|]. split; [|split; reflexivity].
  vm_compute. discriminate.
Qed.

(** ** Witnesses *)

(** C5 at [world_read_error]: 3 bytes, then the read fails with 1050. *)
Lemma C5_witness :
  let w := world_read_error in
  let r := s_do_read (K := release_build) w in
  let evs := events r in
  read_failure evs = Some 1050 /\
  (total_read_of evs < max_to_read w /\
   all_sends_ok evs = true /\
   last_error (final r) = 1050 /\
   control_events evs =
     (if (1050 =? AWS_IO_READ_WOULD_BLOCK (build_constants := release_build))
         || shutdown_in_progress (handler w)
      then [] else [EvChannelShutdown 1050])).
Proof.
  cbv zeta. split; [reflexivity|].
  apply (@C5_read_error_after_loop release_build world_read_error 1050).
  reflexivity.
Defined.

(** C6 at [world_shutting_down], through a history of six calls. *)
Lemma C6_witness :
  let w := world_shutting_down in
  let cs :=
    [CallReadableNotification 0;
     CallIncrementReadWindow 4096;
     CallReadableNotification 104;
     CallTask fn_s_read_task AWS_TASK_STATUS_RUN_READY;
     CallShutdown AWS_CHANNEL_DIR_WRITE 0 false;
     CallIncrementReadWindow 1] in
  let r := run_calls (K := release_build) cs w in
  shutdown_in_progress (handler w) = true /\
  (shutdown_in_progress (handler (final r)) = true /\
   filter is_read_task_scheduled (events r) = [] /\
   (exists n, filter is_channel_shutdown (events r) =
              write_completion_shutdowns (firstn n cs)) /\
   (existsb is_failed_write_completion cs = false ->
    filter is_channel_shutdown (events r) = [])).
Proof.
  cbv zeta. split; [reflexivity|].
  apply (@C6_shutdown_in_progress_is_quiet release_build).
  reflexivity.
Defined.

(* ===================================================================== *)
(** * Part XIV: more of the handler, proofs                               *)
(* ===================================================================== *)

Section HandlerMore.
Context {K : build_constants}.

Ltac run_prims :=
  cbv [bind ret gets modify emit aws_raise_error aws_last_error
       aws_channel_slot_downstream_read_window
       aws_channel_acquire_message_from_pool aws_channel_release_message_to_pool
       aws_socket_read aws_channel_slot_send_message aws_channel_shutdown
       aws_channel_current_clock_time aws_channel_schedule_task
       aws_socket_is_open aws_socket_shutdown aws_socket_write
       aws_channel_slot_on_handler_shutdown_complete call_on_completion];
  change (nonzero AWS_OP_SUCCESS) with false;
  change (nonzero AWS_OP_ERR) with true;
  cbn -[s_do_read_loop].

Lemma s_do_read_loop_settles fuel :
  forall max total read w,
    let evs := events (s_do_read_loop fuel max total read w) in
    (exists k, acquired_ids evs = seq (pool_next_id w) k /\
               settled_ids evs = seq (pool_next_id w) k) /\
    0 <= bytes_forwarded evs <= bytes_read evs.
Proof.
  induction fuel as [|fuel IH]; intros max total read w; cbv zeta.
  - cbn [s_do_read_loop]. destruct (total <? max); cbn; (split; [exists 0%nat; auto|lia]).
  - cbn [s_do_read_loop].
    destruct (total <? max) eqn:Hlt.
    2:{ cbn. split; [exists 0%nat; auto|lia]. }
    destruct w as [h win op rx se we sme ce cn st sc pn le].
    destruct rx as [|[n|code] rx].
    + cbn. split; [exists 1%nat; auto|lia].
    + run_prims.
      set (amount := Z.max 0 (Z.min n (max - 0))) in *.
      assert (Hamt : 0 <= amount) by (unfold amount; lia).
      destruct (nonzero (match sme with [] => 0 | e :: _ => e end)) eqn:Hnz.
      * run_prims. rewrite Hnz. split; [exists 1%nat; auto|].
        fold amount.
        destruct (match sme with [] => 0 | e :: _ => e end); cbn; lia.
      * run_prims.
        match goal with |- context [s_do_read_loop fuel ?a ?b ?c ?w1] =>
          specialize (IH a b c w1);
          destruct (s_do_read_loop fuel a b c w1) as [[v w2] ev] end.
        cbn [events snd pool_next_id with_send_message_errors with_socket_rx
             with_pool_next_id] in IH.
        destruct IH as ((k & Ha & Hs) & Hb).
        cbn. rewrite Hnz. fold amount.
        apply nonzero_false in Hnz. rewrite Hnz.
        split; [exists (S k); cbn; rewrite Ha, Hs; auto|lia].
    + cbn. split; [exists 1%nat; auto|lia].
Qed.

(** The events of a pass are those of its loop, followed by at most one
    control event. *)
Lemma s_do_read_events w :
  exists tail,
    events (s_do_read w) =
      (if nonzero (max_to_read w)
       then events (s_do_read_loop (S (List.length (socket_rx w))) (max_to_read w) 0 0 w)
       else []) ++ tail /\
    (tail = [] \/ exists e, tail = [e] /\ is_control e = true).
Proof.
  pose proof (s_do_read_unfold w) as Hu. rewrite Hu. clear Hu.
  destruct (nonzero (max_to_read w)); [|exists []; auto].
  cbv zeta.
  match goal with |- context [s_do_read_loop ?f ?m 0 0 w] =>
    destruct (s_do_read_loop f m 0 0 w) as [[v w1] lev] end.
  cbn [value final events fst snd].
  destruct v as [[|t]|]; try solve [exists []; rewrite app_nil_r; auto].
  exists (fst (after_loop w w1 t)). split; [reflexivity|].
  unfold after_loop.
  destruct (_ <? _); [destruct (negb _ && negb _); cbn; eauto|].
  destruct (negb _ && (_ =? _)); [destruct (nonzero (clock_error w1))|]; cbn; eauto.
Qed.

Lemma acquired_ids_app a b : acquired_ids (a ++ b) = acquired_ids a ++ acquired_ids b.
Proof.
  induction a as [|x a IH]; [reflexivity|].
  destruct x; cbn [app acquired_ids]; auto. now rewrite IH.
Qed.

Lemma settled_ids_app a b : settled_ids (a ++ b) = settled_ids a ++ settled_ids b.
Proof.
  induction a as [|x a IH]; [reflexivity|].
  destruct x; cbn [app settled_ids]; auto; [now rewrite IH|].
  destruct (nonzero err); [auto|now rewrite IH].
Qed.

Lemma bytes_forwarded_app a b :
  bytes_forwarded (a ++ b) = bytes_forwarded a + bytes_forwarded b.
Proof.
  induction a as [|x a IH]; [reflexivity|].
  destruct x; cbn [app bytes_forwarded]; auto.
  destruct dir; auto. destruct err; auto. lia.
Qed.

(** Every message a drain pass takes from the pool is settled exactly once,
    in the order taken: it is accepted by the upstream neighbour, or it is
    given back to the pool (after a failed read, or after the neighbour
    refused it), never both and never neither. *)
Theorem drain_pass_settles_every_message (w : world) :
  let evs := events (s_do_read w) in
  acquired_ids evs = settled_ids evs /\ NoDup (settled_ids evs).
Proof.
  cbv zeta. destruct (s_do_read_events w) as (tail & -> & Htail).
  rewrite acquired_ids_app, settled_ids_app.
  assert (Ht : acquired_ids tail = [] /\ settled_ids tail = []).
  { destruct Htail as [->|(e & -> & He)]; [auto|]. destruct e; try discriminate; auto. }
  destruct Ht as [-> ->]. rewrite !app_nil_r.
  destruct (nonzero (max_to_read w)); [|split; [reflexivity|constructor]].
  destruct (s_do_read_loop_settles (S (List.length (socket_rx w))) (max_to_read w) 0 0 w)
    as ((k & Ha & Hs) & _).
  rewrite Ha, Hs. split; [reflexivity|apply seq_NoDup].
Qed.

(** With a quota between 1 and 2^63, a drain pass asks the pool for the
    whole quota each time, forwards no more than it read, and reads less
    than twice the quota. *)
Theorem drain_pass_overshoot_is_bounded (w : world) :
  0 < max_to_read w <= 2 ^ 63 ->
  let evs := events (s_do_read w) in
  Forall (fun size => size = max_to_read w) (acquired_sizes evs) /\
  0 <= bytes_forwarded evs <= bytes_read evs /\
  bytes_read evs < 2 * max_to_read w.
Proof.
  intros [Hpos Hmax]. cbv zeta.
  destruct (pass_buffers_and_bytes w Hmax) as (Hall & _ & Hb).
  split; [exact Hall|]. split; [|lia].
  destruct (s_do_read_events w) as (tail & -> & Htail).
  rewrite bytes_forwarded_app, bytes_read_app.
  assert (Ht : bytes_forwarded tail = 0 /\ bytes_read tail = 0).
  { destruct Htail as [->|(e & -> & He)]; [auto|]. destruct e; try discriminate; auto. }
  destruct Ht as [-> ->].
  destruct (nonzero (max_to_read w)); [|cbn; lia].
  destruct (s_do_read_loop_settles (S (List.length (socket_rx w))) (max_to_read w) 0 0 w)
    as (_ & Hb').
  cbv zeta in Hb'. lia.
Qed.

(** With a quota of 0 (the downstream window or the chunk size is 0), a
    readable notification and a read task, run or cancelled, call no
    collaborator and change nothing. *)
Theorem closed_window_reads_nothing (w : world) (status : aws_task_status) :
  max_to_read w = 0 ->
  run_call (CallReadableNotification 0) w = (Returns 0, w, []) /\
  run_call (CallTask fn_s_read_task status) w = (Returns 0, w, []).
Proof.
  intros Hq.
  assert (Hr : s_do_read w = (tt, w, [])).
  { rewrite s_do_read_unfold, Hq. reflexivity. }
  unfold run_call. rewrite !bind_run. cbn [run_task].
  unfold s_on_readable_notification. cbn [nonzero Z.eqb negb].
  destruct status; cbn [s_read_task]; rewrite ?Hr; split; reflexivity.
Qed.

(** What one call does to the handler's own state: nothing, unless it is a
    shutdown; a shutdown keeps the chunk size and leaves the queue as it
    was (read direction) or empty (write direction). *)
Lemma run_call_handler (c : handler_call) (w : world) :
  let h' := handler (final (run_call c w)) in
  (is_shutdown_call c = false -> h' = handler w) /\
  max_rw_size h' = max_rw_size (handler w) /\
  (write_queue h' = write_queue (handler w) \/ write_queue h' = []).
Proof.
  cbv zeta.
  destruct c as [e|e ud|fn st|m|m|size|dir e abort];
    unfold run_call; rewrite bind_run || idtac; cbn [is_shutdown_call].
  - unfold s_on_readable_notification.
    destruct (negb (nonzero e)).
    + cbn [ret value final events fst snd]. rewrite s_do_read_handler. auto.
    + run_prims. destruct (negb _); cbn; auto.
  - unfold s_on_socket_write_complete. destruct ud as [m|]; [|cbn; auto].
    destruct (on_completion m); destruct (nonzero e); run_prims; auto.
  - destruct fn, st; cbn [run_task s_read_task s_shutdown_task];
      try (cbn [ret value final events fst snd]; rewrite s_do_read_handler; auto);
      run_prims; auto.
  - unfold s_socket_process_read_message. destruct NDEBUG; run_prims; auto.
  - unfold s_socket_process_write_message. run_prims.
    destruct (nonzero (socket_write_error w)); run_prims; auto.
  - unfold socket_increment_read_window. run_prims.
    destruct (negb _); [destruct (nonzero (clock_error w))|]; run_prims; auto.
  - cbn [ret value final events fst snd].
    destruct w as [h win op rx se we sme ce cn st sc pn le].
    destruct h as [q mrw sec sip].
    unfold s_socket_shutdown. destruct dir.
    + destruct abort, op; destruct (nonzero se) eqn:Hse;
        run_prims; rewrite ?Hse; run_prims; rewrite ?Hse; repeat split; auto; discriminate.
    + rewrite !bind_run.
      cbn [modify gets value final events handler write_queue with_handler
           with_shutdown_in_progress max_rw_size shutdown_err_code fst snd].
      rewrite s_drain_write_queue_run.
      cbn [value final events fst snd].
      destruct q as [|m q]; destruct op; destruct (nonzero se) eqn:Hse;
        destruct (nonzero ce) eqn:Hce; run_prims; rewrite ?Hse, ?Hce; run_prims;
        rewrite ?Hse, ?Hce; repeat split; auto; discriminate.
Qed.

(** Whatever calls reach the handler, as long as none is a shutdown, the
    handler's own state (queue, chunk size, recorded error code, flag) is
    what it was: reads, writes, completions, tasks and window increments
    never write to it. *)
Theorem handler_state_changes_only_by_shutdown (cs : list handler_call) :
  forall w : world,
    existsb is_shutdown_call cs = false ->
    handler (final (run_calls cs w)) = handler w.
Proof.
  induction cs as [|c cs IH]; intros w Hno; [reflexivity|].
  cbn [existsb] in Hno. apply orb_false_iff in Hno. destruct Hno as [Hc Hcs].
  cbn [run_calls]. rewrite bind_run.
  pose proof (run_call_handler c w) as (Hh & _). specialize (Hh Hc).
  destruct (run_call c w) as [[v w1] ev1]. cbn [value final events fst snd] in *.
  destruct v as [rc|]; cbn [value final events fst snd ret].
  - rewrite (IH w1 Hcs). exact Hh.
  - exact Hh.
Qed.

(** Over every history of calls, [max_rw_size] keeps its value and the write
    queue is what it was at the start or empty: no call of the handler
    appends to it. *)
Theorem chunk_size_is_fixed_and_queue_never_grows (cs : list handler_call) :
  forall w : world,
    let h' := handler (final (run_calls cs w)) in
    max_rw_size h' = max_rw_size (handler w) /\
    (write_queue h' = write_queue (handler w) \/ write_queue h' = []).
Proof.
  induction cs as [|c cs IH]; intros w; cbv zeta; [cbn; auto|].
  cbn [run_calls]. rewrite bind_run.
  pose proof (run_call_handler c w) as (_ & Hm & Hq).
  destruct (run_call c w) as [[v w1] ev1]. cbn [value final events fst snd] in *.
  destruct v as [rc|]; cbn [value final events fst snd ret]; [|auto].
  destruct (IH w1) as (Hm' & Hq'). split; [congruence|].
  destruct Hq' as [Hq'|Hq']; [rewrite Hq'; exact Hq|auto].
Qed.

Lemma s_drain_write_queue_all w :
  s_drain_write_queue (write_queue (handler w)) w =
  (tt, with_handler (with_write_queue [] (handler w)) w,
   drained AWS_IO_SOCKET_CLOSED (write_queue (handler w))).
Proof.
  rewrite s_drain_write_queue_run.
  destruct w as [h win op rx se we sme ce cn st sc pn le].
  destruct h as [q mrw sec sip]. destruct q; reflexivity.
Qed.

Lemma filter_drained_all code q :
  filter is_message_settlement (drained code q) = drained code q.
Proof.
  induction q as [|m q IH]; [reflexivity|].
  unfold drained in *. cbn [flat_map]. rewrite filter_app, IH.
  unfold drained_message. destruct (on_completion m); reflexivity.
Qed.

(** [s_socket_shutdown] in the write direction, with its calls run. *)
Lemma s_socket_shutdown_write_run w error_code abort :
  s_socket_shutdown AWS_CHANNEL_DIR_WRITE error_code abort w =
  let h1 := with_write_queue [] (with_shutdown_in_progress true (handler w)) in
  let closing := socket_open w in
  let failed := closing && nonzero (socket_shutdown_error w) in
  let w1 := with_handler h1 w in
  let w2 := if failed then with_last_error (socket_shutdown_error w) w1
            else if closing then with_socket_open false w1 else w1 in
  (if nonzero (clock_error w) then AWS_OP_ERR else schedule_task_rc w,
   if nonzero (clock_error w) then with_last_error (clock_error w) w2
   else with_handler (with_shutdown_err_code error_code h1) w2,
   drained AWS_IO_SOCKET_CLOSED (write_queue (handler w)) ++
   (if closing then [EvSocketShutdown (socket_shutdown_error w)] else []) ++
   (if nonzero (clock_error w) then []
    else [EvScheduleTask fn_s_shutdown_task (clock_now w)])).
Proof.
  unfold s_socket_shutdown. rewrite !bind_run.
  cbn [modify gets value final events fst snd].
  replace (write_queue (handler w))
    with (write_queue (handler (with_handler (with_shutdown_in_progress true (handler w)) w)))
    by (destruct w as [[] ]; reflexivity).
  rewrite s_drain_write_queue_all.
  destruct w as [h win op rx se we sme ce cn st sc pn le].
  destruct h as [q mrw sec sip].
  cbn [value final events fst snd].
  destruct op; destruct (nonzero se) eqn:Hse;
    destruct (nonzero ce) eqn:Hce; run_prims; rewrite ?Hse, ?Hce; run_prims;
    rewrite ?Hse, ?Hce, ?app_nil_r; reflexivity.
Qed.

(** A second shutdown in the write direction, right after a first one,
    fails no message again and releases none: it shuts the socket down only
    if the first attempt failed, and it schedules the notification task
    once more (when the clock can be read). *)
Theorem second_write_shutdown_fails_no_message (w : world)
    (e1 e2 : Z) (abort1 abort2 : bool) :
  let w1 := final (s_socket_shutdown AWS_CHANNEL_DIR_WRITE e1 abort1 w) in
  let r2 := s_socket_shutdown AWS_CHANNEL_DIR_WRITE e2 abort2 w1 in
  events r2 =
    (if socket_open w && nonzero (socket_shutdown_error w)
     then [EvSocketShutdown (socket_shutdown_error w)] else []) ++
    (if nonzero (clock_error w) then []
     else [EvScheduleTask fn_s_shutdown_task (clock_now w)]) /\
  filter is_message_settlement (events r2) = [].
Proof.
  cbv zeta. rewrite !s_socket_shutdown_write_run. cbv zeta.
  destruct w as [h win op rx se we sme ce cn st sc pn le].
  destruct h as [q mrw sec sip].
  cbn [value final events fst snd handler socket_open socket_shutdown_error
       clock_error clock_now].
  destruct op; destruct (nonzero se) eqn:Hse; destruct (nonzero ce) eqn:Hce;
    cbn; rewrite ?Hse, ?Hce; cbn; rewrite ?Hse, ?Hce; split; reflexivity.
Qed.

Lemma s_socket_shutdown_read_run w error_code abort :
  s_socket_shutdown AWS_CHANNEL_DIR_READ error_code abort w =
  let closing := abort && socket_open w in
  let failed := closing && nonzero (socket_shutdown_error w) in
  let w1 := with_handler (with_shutdown_in_progress true (handler w)) w in
  (if failed then AWS_OP_ERR else shutdown_complete_rc w,
   if failed then with_last_error (socket_shutdown_error w) w1
   else if closing then with_socket_open false w1 else w1,
   (if closing then [EvSocketShutdown (socket_shutdown_error w)] else []) ++
   (if failed then []
    else [EvShutdownComplete AWS_CHANNEL_DIR_READ error_code abort])).
Proof.
  destruct w as [h win op rx se we sme ce cn st sc pn le].
  destruct h as [q mrw sec sip].
  unfold s_socket_shutdown.
  destruct abort, op; destruct (nonzero se) eqn:Hse;
    run_prims; rewrite ?Hse; run_prims; rewrite ?Hse; reflexivity.
Qed.

(** The channel's shutdown sequence (read direction, then write direction,
    then the deferred task), with a socket that shuts down and a clock that
    can be read: shutdown-complete is reported once per direction, read
    first; the socket is shut down once if it was open, by whichever call
    found it open; the queued messages are failed once each, in queue
    order; and the socket ends closed and the queue empty. *)
Theorem shutdown_handshake_notifies_each_direction_once (w : world)
    (error_code : Z) (abort : bool) (status : aws_task_status) :
  socket_shutdown_error w = 0 ->
  clock_error w = 0 ->
  let r := run_calls [CallShutdown AWS_CHANNEL_DIR_READ error_code abort;
                      CallShutdown AWS_CHANNEL_DIR_WRITE error_code abort;
                      CallTask fn_s_shutdown_task status] w in
  filter is_shutdown_complete (events r) =
    [EvShutdownComplete AWS_CHANNEL_DIR_READ error_code abort;
     EvShutdownComplete AWS_CHANNEL_DIR_WRITE error_code false] /\
  filter is_socket_shutdown (events r) =
    (if socket_open w then [EvSocketShutdown 0] else []) /\
  filter is_message_settlement (events r) =
    drained AWS_IO_SOCKET_CLOSED (write_queue (handler w)) /\
  socket_open (final r) = false /\
  write_queue (handler (final r)) = [].
Proof.
  intros Hse Hce. cbv zeta.
  cbn [run_calls run_call run_task]. rewrite !bind_run.
  rewrite s_socket_shutdown_read_run. cbv zeta.
  rewrite Hse. change (nonzero 0) with false. rewrite andb_false_r.
  cbn [value final events fst snd ret].
  rewrite !bind_run, s_socket_shutdown_write_run. cbv zeta.
  cbn [value final events fst snd ret].
  assert (Hse' : forall w', socket_shutdown_error w' = socket_shutdown_error w ->
                            nonzero (socket_shutdown_error w') = false)
    by (intros w' ->; now rewrite Hse).
  assert (Hce' : forall w', clock_error w' = clock_error w ->
                            nonzero (clock_error w') = false)
    by (intros w' ->; now rewrite Hce).
  rewrite !Hse', !Hce' by (destruct abort, (socket_open w); reflexivity).
  cbn [value final events fst snd ret]. rewrite ?bind_run.
  cbn [value final events fst snd ret].
  destruct w as [h win op rx se we sme ce cn st sc pn le].
  destruct h as [q mrw sec sip].
  cbn in Hse, Hce. subst se ce.
  destruct abort, op; cbn -[drained];
    rewrite ?filter_app, ?filter_drained_all, ?filter_drained_nil by reflexivity;
    repeat split; cbn; rewrite ?app_nil_r; reflexivity.
Qed.

(** [aws_socket_handler_new] never leaks: when it returns NULL (an
    allocation or the subscription failed) every block it acquired has been
    released and the socket is not subscribed; when it returns a handler,
    two blocks are out, the socket is subscribed, the handler starts with an
    empty queue, the given chunk size and no shutdown in progress (its
    recorded error code is whatever the block held), and [socket_destroy]
    gives both blocks back.  It aborts only on the failed assertion. *)
Theorem handler_creation_never_leaks (has_event_loop : bool) (subscribe_error : Z)
    (fresh : socket_handler) (a : allocator_state) (max_rw_size : Z) :
  match aws_socket_handler_new has_event_loop subscribe_error fresh a max_rw_size with
  | CreationAborts => NDEBUG = false /\ has_event_loop = false
  | CreationReturns None a' subscribed =>
      blocks_out a' = blocks_out a /\ subscribed = false /\
      (In false (firstn 2 (acquire_script a)) \/ subscribe_error <> 0)
  | CreationReturns (Some impl) a' subscribed =>
      blocks_out a' = S (S (blocks_out a)) /\ subscribed = true /\
      subscribe_error = 0 /\
      impl = mk_socket_handler [] max_rw_size (shutdown_err_code fresh) false /\
      blocks_out (snd (socket_destroy a')) = blocks_out a
  end.
Proof.
  unfold aws_socket_handler_new, aws_mem_acquire.
  destruct NDEBUG, has_event_loop; cbn [negb andb]; auto;
    destruct a as [[|[|] [|[|] script]] n]; cbn;
    try (destruct (nonzero subscribe_error) eqn:Hs;
         [apply nonzero_true in Hs|apply nonzero_false in Hs]);
    cbn; repeat split; auto; destruct fresh; auto.
Qed.

End HandlerMore.

(* ===================================================================== *)
(** * Part XV: more of the handler, witnesses                             *)
(* ===================================================================== *)

Lemma drain_pass_overshoot_is_bounded_witness :
  let w := world_two_reads in
  let evs := events (s_do_read (K := release_build) w) in
  (0 < max_to_read w <= 2 ^ 63) /\
  (Forall (fun size => size = max_to_read w) (acquired_sizes evs) /\
   (0 <= bytes_forwarded evs <= bytes_read evs) /\
   bytes_read evs < 2 * max_to_read w).
Proof.
  cbv zeta. split; [vm_compute; split; [reflexivity | discriminate]|].
  apply (@drain_pass_overshoot_is_bounded release_build world_two_reads).
  vm_compute. split; [reflexivity | discriminate].
Defined.

Lemma closed_window_reads_nothing_witness :
  let w := world_closed_window in
  max_to_read w = 0 /\
  (run_call (K := release_build) (CallReadableNotification 0) w = (Returns 0, w, []) /\
   run_call (K := release_build) (CallTask fn_s_read_task AWS_TASK_STATUS_RUN_READY) w =
     (Returns 0, w, [])).
Proof.
  cbv zeta. split; [reflexivity|].
  apply (@closed_window_reads_nothing release_build world_closed_window
           AWS_TASK_STATUS_RUN_READY).
  reflexivity.
Defined.

Lemma handler_state_changes_only_by_shutdown_witness :
  let cs := [CallReadableNotification 0; CallProcessWriteMessage message_a;
             CallWriteComplete 5 (Some message_a); CallIncrementReadWindow 16;
             CallTask fn_s_read_task AWS_TASK_STATUS_RUN_READY;
             CallReadableNotification 104] in
  existsb is_shutdown_call cs = false /\
  handler (final (run_calls (K := release_build) cs world_queued)) = handler world_queued.
Proof.
  cbv zeta. split; [reflexivity|].
  apply (@handler_state_changes_only_by_shutdown release_build).
  reflexivity.
Defined.

Lemma shutdown_handshake_witness :
  let w := world_queued in
  let r := run_calls (K := release_build)
             [CallShutdown AWS_CHANNEL_DIR_READ 5 true;
              CallShutdown AWS_CHANNEL_DIR_WRITE 5 true;
              CallTask fn_s_shutdown_task AWS_TASK_STATUS_RUN_READY] w in
  socket_shutdown_error w = 0 /\
  clock_error w = 0 /\
  (filter is_shutdown_complete (events r) =
     [EvShutdownComplete AWS_CHANNEL_DIR_READ 5 true;
      EvShutdownComplete AWS_CHANNEL_DIR_WRITE 5 false] /\
   filter is_socket_shutdown (events r) =
     (if socket_open w then [EvSocketShutdown 0] else []) /\
   filter is_message_settlement (events r) =
     drained (AWS_IO_SOCKET_CLOSED (build_constants := release_build))
             (write_queue (handler w)) /\
   socket_open (final r) = false /\
   write_queue (handler (final r)) = []).
Proof.
  cbv zeta. split; [reflexivity|]. split; [reflexivity|].
  apply (@shutdown_handshake_notifies_each_direction_once release_build world_queued
           5 true AWS_TASK_STATUS_RUN_READY); reflexivity.
Defined.

(* ===================================================================== *)
(** * Part XVI: more of the URI parser, proofs                            *)
(* ===================================================================== *)

Create HintDb uri_inv.

Lemma str_ok_in_copy n x : str_ok n x -> in_copy n x.
Proof. intros (off & Hp & H). unfold in_copy. rewrite Hp. exact H. Qed.

Lemma str_ok_prefix n x k :
  str_ok n x -> 0 <= k <= cur_len x -> in_copy n (mk_cursor k (cur_ptr x)).
Proof. intros (off & Hp & H) Hk. unfold in_copy. cbn. rewrite Hp. lia. Qed.

Lemma in_copy_zero n : in_copy n zero_cursor.
Proof. reflexivity. Qed.

Lemma advance_cases cur k :
  aws_byte_cursor_advance cur k = (zero_cursor, cur) \/
  (k <= cur_len cur /\
   aws_byte_cursor_advance cur k =
   (mk_cursor k (cur_ptr cur), mk_cursor (cur_len cur - k) (ptr_add (cur_ptr cur) k))).
Proof.
  unfold aws_byte_cursor_advance.
  destruct (_ || _) eqn:H; [left; reflexivity|right].
  apply orb_false_iff in H. destruct H as [_ H]. split; [lia|reflexivity].
Qed.

Lemma advance_ok n cur k a rest :
  str_ok n cur -> 0 <= k ->
  aws_byte_cursor_advance cur k = (a, rest) ->
  in_copy n a /\ str_ok n rest.
Proof.
  intros Hs Hk H. destruct (advance_cases cur k) as [E|[Hle E]]; rewrite E in H;
    inversion H; subst.
  - split; [apply in_copy_zero|assumption].
  - split; [apply str_ok_prefix; auto; lia|].
    destruct Hs as (off & Hp & H0). exists (off + k). cbn. rewrite Hp. cbn.
    split; [reflexivity|lia].
Qed.

Lemma in_copy_or_default_of n x : in_copy n x -> in_copy_or_default n x.
Proof. left; assumption. Qed.

Lemma default_path_ok n : in_copy_or_default n (mk_cursor 1 (Some (DEFAULT_PATH, 0))).
Proof. right; reflexivity. Qed.

Lemma str_ok_whole n x :
  str_ok n x -> in_copy n (mk_cursor (cur_len x) (cur_ptr x)).
Proof. intros H. apply str_ok_prefix; auto. destruct H as (o & _ & H). lia. Qed.

Lemma port_range x : 0 <= x mod (UINT16_MAX + 1) <= UINT16_MAX.
Proof.
  unfold UINT16_MAX. change (65535 + 1) with 65536.
  pose proof (Z.mod_pos_bound x 65536 eq_refl). lia.
Qed.

Lemma size_sub_one_le x : 0 <= x -> nonzero x = true -> 0 <= size_sub x 1 <= x - 1.
Proof.
  intros Hx Hnz. unfold nonzero in Hnz. apply negb_true_iff, Z.eqb_neq in Hnz.
  unfold size_sub. pose proof (Z.mod_pos_bound (x - 1) (SIZE_MAX + 1) eq_refl).
  split; [lia|]. apply Z.mod_le; [lia|reflexivity].
Qed.

Lemma size_add_nonneg a b : 0 <= size_add a b.
Proof. unfold size_add. pose proof (Z.mod_pos_bound (a + b) (SIZE_MAX + 1) eq_refl). lia. Qed.

Lemma size_sub_exact a b : 0 <= a - b <= SIZE_MAX -> size_sub a b = a - b.
Proof. intros H. unfold size_sub. apply Z.mod_small. lia. Qed.

#[local] Hint Resolve in_copy_or_default_of default_path_ok in_copy_zero str_ok_in_copy : uri_inv.

Ltac inv_fields I :=
  destruct I as [Iss Ial Ius Istr Isch Iau Iho Iqs Ipa Ipq Ipo].

Ltac inv_close :=
  constructor; cbn; auto using in_copy_zero, str_ok_in_copy.

Section UriInvariant.
Context {K : build_constants}.
Variable beyond : ascii.

Lemma memchr_from_found mem b r ch n : forall off p,
  memchr_from mem b r off ch n = Some p ->
  exists off', p = (r, off') /\ off <= off' < off + Z.of_nat n /\
               load mem b r off' = ch.
Proof.
  induction n as [|n IH]; intros off p H; cbn [memchr_from] in H; [discriminate|].
  destruct (Ascii.eqb _ _) eqn:He.
  - inversion H; subst. exists off. apply Ascii.eqb_eq in He. repeat split; auto; lia.
  - destruct (IH _ _ H) as (off' & -> & Hb & Hl). exists off'. repeat split; auto; lia.
Qed.

Lemma memchr_found mem b off ch len p :
  memchr mem b (Some (URI_STR, off)) ch len = Some p ->
  exists off', p = (URI_STR, off') /\ off <= off' < off + len /\
               load mem b URI_STR off' = ch.
Proof.
  unfold memchr. intros H. destruct (memchr_from_found _ _ _ _ _ _ _ H) as (o & -> & Hb & Hl).
  exists o. repeat split; auto; lia.
Qed.



Lemma mem_of_inv input c : parser_inv input c -> mem_of c = input.
Proof. intros I. unfold mem_of. rewrite (inv_uri_str _ _ I). reflexivity. Qed.

Lemma s_parse_scheme_inv input c :
  parser_inv input c -> parser_inv input (s_parse_scheme beyond c).
Proof.
  intros I. unfold s_parse_scheme. rewrite (mem_of_inv _ _ I).
  inv_fields I.
  destruct Istr as (off & Hp & Hb). rewrite Hp.
  destruct (memchr _ _ _ _ _) as [p|] eqn:Hm; cbn [is_null].
  2:{ inv_close. exists off; auto. }
  destruct (memchr_found _ _ _ _ _ _ Hm) as (o & -> & Ho & Hl).
  cbn [ptr_diff ptr_add].
  destruct (_ && _).
  { inv_close. exists off; auto. }
  destruct (aws_byte_cursor_advance (str c) (o - off)) as [sch rest] eqn:Ha.
  assert (Hstr : str_ok (Z.of_nat (length input)) (str c)) by (exists off; auto).
  assert (Hk : 0 <= o - off) by lia.
  destruct (advance_ok _ _ _ _ _ Hstr Hk Ha) as [Hsch Hrest].
  cbn.
  destruct (_ || _).
  { inv_close. }
  destruct (aws_byte_cursor_advance rest 3) as [x rest'] eqn:Ha'.
  destruct (advance_ok _ _ 3 _ _ Hrest ltac:(lia) Ha') as [_ Hrest'].
  inv_close.
Qed.


Lemma s_parse_authority_port_inv input c :
  parser_inv input c -> parser_inv input (s_parse_authority_port beyond c).
Proof.
  intros I. unfold s_parse_authority_port. rewrite (mem_of_inv _ _ I).
  inv_fields I.
  destruct (nonzero _) eqn:Hnz; [|inv_close].
  pose proof Iau as Hau. unfold in_copy in Hau.
  destruct (cur_ptr (authority (uri c))) as [[[|] off]|] eqn:Hp;
    [| contradiction | rewrite Hau in Hnz; discriminate].
  destruct (memchr _ _ _ _ _) as [p|] eqn:Hm; cbn [is_null].
  2:{ inv_close. unfold UINT16_MAX; lia. }
  destruct (memchr_found _ _ _ _ _ _ Hm) as (o & -> & Ho & Hl).
  cbn [ptr_diff ptr_add].
  assert (Hhost : in_copy (Z.of_nat (length input))
                    (mk_cursor (o - off) (Some (URI_STR, off)))).
  { unfold in_copy. cbn. lia. }
  cbn.
  repeat match goal with
  | |- context [if ?b then _ else _] => destruct b
  end; inv_close; try apply port_range.
Qed.


Lemma s_parse_authority_inv input c :
  parser_inv input c -> parser_inv input (s_parse_authority beyond c).
Proof.
  intros I. unfold s_parse_authority. rewrite (mem_of_inv _ _ I).
  pose proof (inv_str _ _ I) as Hstr.
  destruct (is_null (memchr _ _ _ "/"%char _) && _ && _).
  - destruct (aws_byte_cursor_advance _ _) as [x rest] eqn:Ha. cbn in Ha.
    assert (Hk : 0 <= cur_len (str c)) by (destruct Hstr as (o & _ & H); lia).
    destruct (advance_ok _ _ _ _ _ Hstr Hk Ha) as [_ Hrest].
    apply s_parse_authority_port_inv. inv_fields I.
    constructor; cbn; auto using str_ok_whole with uri_inv.
  - destruct (negb (nonzero _)).
    { inv_fields I. constructor; cbn; auto. }
    destruct Hstr as (off & Hp & Hb).
    assert (Hstr : str_ok (Z.of_nat (length input)) (str c)) by (exists off; auto).
    rewrite Hp in *.
    destruct (memchr _ _ _ "/"%char _) as [p|] eqn:Hs; cbn [is_null negb].
    + destruct (memchr_found _ _ _ _ _ _ Hs) as (o & -> & Ho & Hl).
      cbn [str set_state]. rewrite Hp. cbn [ptr_diff].
      destruct (aws_byte_cursor_advance _ _) as [x rest] eqn:Ha.
      assert (Hk : 0 <= o - off) by lia.
      destruct (advance_ok _ _ _ _ _ Hstr Hk Ha) as [Hx Hrest].
      apply s_parse_authority_port_inv. inv_fields I.
      constructor; cbn; auto.
    + destruct (memchr _ _ _ "?"%char _) as [p|] eqn:Hq; cbn [is_null negb].
      * destruct (memchr_found _ _ _ _ _ _ Hq) as (o & -> & Ho & Hl).
        cbn [str set_state]. rewrite Hp. cbn [ptr_diff].
        destruct (aws_byte_cursor_advance _ _) as [x rest] eqn:Ha.
        assert (Hk : 0 <= o - off) by lia.
        destruct (advance_ok _ _ _ _ _ Hstr Hk Ha) as [Hx Hrest].
        apply s_parse_authority_port_inv. inv_fields I.
        constructor; cbn; auto.
      * rewrite Hp. cbn [ptr_add ptr_diff].
        destruct (aws_byte_cursor_advance _ _) as [x rest] eqn:Ha.
        assert (Hk : 0 <= off + cur_len (str c) - off) by lia.
        destruct (advance_ok _ _ _ _ _ Hstr Hk Ha) as [Hx Hrest].
        apply s_parse_authority_port_inv. inv_fields I.
        constructor; cbn; auto.
Qed.

Lemma s_parse_path_inv input c :
  parser_inv input c -> parser_inv input (s_parse_path beyond c).
Proof.
  intros I. unfold s_parse_path. rewrite (mem_of_inv _ _ I).
  pose proof (inv_str _ _ I) as Hstr.
  cbn [str set_uri uri].
  destruct Hstr as (off & Hp & Hb).
  assert (Hstr : str_ok (Z.of_nat (length input)) (str c)) by (exists off; auto).
  destruct (memchr _ _ _ _ _) as [p|] eqn:Hq; cbn [is_null].
  - rewrite Hp in Hq.
    destruct (memchr_found _ _ _ _ _ _ Hq) as (o & -> & Ho & Hl).
    destruct (negb (nonzero _)).
    { inv_fields I. constructor; cbn; auto with uri_inv. }
    rewrite Hp. cbn [ptr_diff]. cbn [path set_path set_uri uri cur_len str].
    destruct (aws_byte_cursor_advance _ _) as [x rest] eqn:Ha.
    assert (Hk : 0 <= o - off) by lia.
    destruct (advance_ok _ _ _ _ _ Hstr Hk Ha) as [Hx Hrest].
    inv_fields I. constructor; cbn; auto with uri_inv.
    apply in_copy_or_default_of. unfold in_copy; cbn. lia.
  - cbn [path set_path set_uri uri cur_len str set_state].
    destruct (aws_byte_cursor_advance _ _) as [x rest] eqn:Ha.
    assert (Hk : 0 <= cur_len (str c)) by lia.
    destruct (advance_ok _ _ _ _ _ Hstr Hk Ha) as [Hx Hrest].
    inv_fields I. constructor; cbn; auto using str_ok_whole with uri_inv.
Qed.


Lemma s_parse_query_string_inv input c :
  parser_inv input c -> parser_inv input (s_parse_query_string c).
Proof.
  intros I. unfold s_parse_query_string.
  pose proof (inv_str _ _ I) as Hstr.
  set (c1 := if is_null _ then _ else c).
  assert (I1 : parser_inv input c1).
  { subst c1. destruct (is_null _); [|assumption].
    inv_fields I. constructor; cbn; auto with uri_inv. }
  assert (Hstr1 : str c1 = str c) by (subst c1; destruct (is_null _); reflexivity).
  clearbody c1. clear I. rewrite <- Hstr1 in Hstr. clear Hstr1.
  set (c2 := if nonzero _ then _ else c1).
  assert (I2 : parser_inv input c2).
  { subst c2. destruct (nonzero _) eqn:Hnz; [|assumption].
    destruct Hstr as (off & Hp & Hb).
    pose proof (size_sub_one_le (cur_len (str c1)) ltac:(lia) Hnz).
    inv_fields I1. constructor; cbn; auto.
    unfold in_copy. cbn. rewrite Hp. cbn. lia. }
  assert (Hstr2 : str c2 = str c1) by (subst c2; destruct (nonzero _); reflexivity).
  clearbody c2. rewrite <- Hstr2 in Hstr. clear Hstr2 I1.
  destruct (aws_byte_cursor_advance _ _) as [x rest] eqn:Ha.
  destruct (advance_ok _ _ _ _ _ Hstr (size_add_nonneg _ _) Ha) as [Hx Hrest].
  inv_fields I2. constructor; cbn; auto.
Qed.

Lemma s_states_inv input c :
  parser_inv input c -> parser_inv input (s_states beyond (state c) c).
Proof.
  intros I. destruct (state c); cbn [s_states];
    auto using s_parse_scheme_inv, s_parse_authority_inv, s_parse_path_inv,
               s_parse_query_string_inv.
Qed.

Lemma s_parser_loop_inv input fuel : forall c c',
  parser_inv input c -> s_parser_loop beyond fuel c = Some c' -> parser_inv input c'.
Proof.
  induction fuel as [|fuel IH]; intros c c' I H; cbn [s_parser_loop] in H;
    destruct (_ <? _); try discriminate; try (inversion H; subst; assumption).
  eapply IH; [|exact H]. apply s_states_inv, I.
Qed.

Lemma parser_start_inv input c : parser_inv input (parser_start input c).
Proof.
  constructor; cbn; auto with uri_inv; try reflexivity.
  - exists 0. cbn. split; [reflexivity|lia].
  - unfold UINT16_MAX; lia.
Qed.

Lemma aws_uri_init_parse_unfold input c :
  aws_uri_init_parse beyond true input c =
  match s_parser_loop beyond 4 (parser_start input c) with
  | None => None
  | Some c =>
      match state c with
      | FINISHED => Some (AWS_OP_SUCCESS, c)
      | _ => Some (AWS_OP_ERR, set_uri zero_uri (aws_byte_buf_clean_up c))
      end
  end.
Proof. reflexivity. Qed.


End UriInvariant.

(** ** The byte after the copy *)

Section UriBeyond.
Context {K : build_constants}.
Variables b1 b2 : ascii.

Lemma load_indep mem off :
  0 <= off < Z.of_nat (length mem) ->
  load mem b1 URI_STR off = load mem b2 URI_STR off.
Proof.
  intros H. unfold load. destruct (off <? 0) eqn:E; [apply Z.ltb_lt in E; lia|].
  cbn [region_bytes]. apply nth_indep. lia.
Qed.

Lemma memchr_from_indep mem ch n : forall off,
  0 <= off -> off + Z.of_nat n <= Z.of_nat (length mem) ->
  memchr_from mem b1 URI_STR off ch n = memchr_from mem b2 URI_STR off ch n.
Proof.
  induction n as [|n IH]; intros off H0 H; cbn [memchr_from]; [reflexivity|].
  rewrite load_indep by lia. destruct (Ascii.eqb _ _); [reflexivity|].
  apply IH; lia.
Qed.

Lemma load_bytes_indep mem n : forall off,
  0 <= off -> off + Z.of_nat n <= Z.of_nat (length mem) ->
  load_bytes mem b1 URI_STR off n = load_bytes mem b2 URI_STR off n.
Proof.
  induction n as [|n IH]; intros off H0 H; cbn [load_bytes]; [reflexivity|].
  rewrite load_indep by lia. f_equal. apply IH; lia.
Qed.

Lemma memchr_indep mem x ch :
  in_copy (Z.of_nat (length mem)) x ->
  memchr mem b1 (cur_ptr x) ch (cur_len x) = memchr mem b2 (cur_ptr x) ch (cur_len x).
Proof.
  unfold in_copy, memchr. destruct (cur_ptr x) as [[[|] off]|]; intros H;
    [|contradiction|reflexivity].
  apply memchr_from_indep; lia.
Qed.

Lemma nth_last_any (l : list ascii) d d' :
  l <> [] -> nth (length l - 1) l d = last l d'.
Proof.
  induction l as [|a l IH]; intros H; [contradiction|].
  destruct l as [|a' l]; [reflexivity|].
  specialize (IH ltac:(discriminate)).
  cbn [length] in *. rewrite Nat.sub_succ, Nat.sub_0_r in *.
  exact IH.
Qed.

Lemma load_last mem b d off :
  off = Z.of_nat (length mem) - 1 -> 0 <= off ->
  load mem b URI_STR off = last mem d.
Proof.
  intros -> H. unfold load. destruct (_ <? 0) eqn:E; [apply Z.ltb_lt in E; lia|].
  cbn [region_bytes]. rewrite <- (nth_last_any mem b d).
  - f_equal. lia.
  - destruct mem; [cbn in H; lia|discriminate].
Qed.

Lemma s_parse_scheme_indep input c :
  parser_inv input c -> last input zero <> ":"%char ->
  s_parse_scheme b1 c = s_parse_scheme b2 c.
Proof.
  intros I Hlast. unfold s_parse_scheme. rewrite (mem_of_inv _ _ I).
  pose proof (inv_str _ _ I) as Hstr.
  rewrite (memchr_indep input (str c) ":"%char (str_ok_in_copy _ _ Hstr)).
  destruct Hstr as (off & Hp & Hb).
  assert (Hstr : str_ok (Z.of_nat (length input)) (str c)) by (exists off; auto).
  rewrite Hp.
  destruct (memchr input b2 _ _ _) as [p|] eqn:Hm; cbn [is_null]; [|reflexivity].
  destruct (memchr_found _ _ _ _ _ _ Hm) as (o & -> & Ho & Hl).
  cbn [ptr_diff ptr_add deref].
  assert (Hin : o + 1 < Z.of_nat (length input)).
  { destruct (Z.eq_dec o (Z.of_nat (length input) - 1)) as [E|E]; [|lia].
    exfalso. apply Hlast. rewrite <- Hl. symmetry. apply load_last; lia. }
  rewrite (load_indep input (o + 1)) by lia.
  destruct (_ && _); [reflexivity|].
  destruct (aws_byte_cursor_advance (str c) (o - off)) as [sch rest] eqn:Ha.
  assert (Hk : 0 <= o - off) by lia.
  destruct (advance_ok _ _ _ _ _ Hstr Hk Ha) as [_ (off' & Hp' & Hb')].
  cbn. rewrite Hp'. cbn [ptr_add deref].
  destruct (cur_len rest <? 3) eqn:Hlen; cbn [orb]; [reflexivity|].
  apply Z.ltb_ge in Hlen.
  rewrite !(load_indep input) by lia. reflexivity.
Qed.

Lemma s_parse_authority_port_indep input c :
  parser_inv input c -> Z.of_nat (length input) <= SIZE_MAX ->
  s_parse_authority_port b1 c = s_parse_authority_port b2 c.
Proof.
  intros I Hn. unfold s_parse_authority_port. rewrite (mem_of_inv _ _ I).
  rewrite (memchr_indep input (authority (uri c)) ":"%char (inv_authority _ _ I)).
  destruct (nonzero _) eqn:Hnz; [|reflexivity].
  pose proof (inv_authority _ _ I) as Hau. unfold in_copy in Hau.
  destruct (cur_ptr (authority (uri c))) as [[[|] off]|] eqn:Hp;
    [| contradiction | rewrite Hau in Hnz; discriminate].
  destruct (memchr input b2 _ _ _) as [p|] eqn:Hm; cbn [is_null]; [|reflexivity].
  destruct (memchr_found _ _ _ _ _ _ Hm) as (o & -> & Ho & Hl).
  cbn [ptr_diff ptr_add]. cbn [uri set_uri authority host_name set_host_name cur_len].
  rewrite (size_sub_exact (cur_len (authority (uri c)))) by lia.
  rewrite size_sub_exact by lia.
  unfold bytes_at. rewrite load_bytes_indep by lia. reflexivity.
Qed.

Lemma s_parse_authority_indep input c :
  parser_inv input c -> Z.of_nat (length input) <= SIZE_MAX ->
  s_parse_authority b1 c = s_parse_authority b2 c.
Proof.
  intros I Hn. unfold s_parse_authority. rewrite (mem_of_inv _ _ I).
  pose proof (inv_str _ _ I) as Hstr.
  rewrite !(memchr_indep input (str c) _ (str_ok_in_copy _ _ Hstr)).
  destruct (is_null (memchr _ _ _ "/"%char _) && _ && _).
  - destruct (aws_byte_cursor_advance _ _) as [x rest] eqn:Ha. cbn in Ha.
    assert (Hk : 0 <= cur_len (str c)) by (destruct Hstr as (o & _ & H); lia).
    destruct (advance_ok _ _ _ _ _ Hstr Hk Ha) as [_ Hrest].
    apply (s_parse_authority_port_indep input); [|assumption]. inv_fields I.
    constructor; cbn; auto using str_ok_whole with uri_inv.
  - destruct (negb (nonzero _)); [reflexivity|].
    destruct Hstr as (off & Hp & Hb).
    assert (Hstr : str_ok (Z.of_nat (length input)) (str c)) by (exists off; auto).
    rewrite Hp in *.
    destruct (memchr _ _ _ "/"%char _) as [p|] eqn:Hs; cbn [is_null negb].
    + destruct (memchr_found _ _ _ _ _ _ Hs) as (o & -> & Ho & Hl).
      cbn [str set_state]. rewrite Hp. cbn [ptr_diff].
      destruct (aws_byte_cursor_advance _ _) as [x rest] eqn:Ha.
      assert (Hk : 0 <= o - off) by lia.
      destruct (advance_ok _ _ _ _ _ Hstr Hk Ha) as [Hx Hrest].
      apply (s_parse_authority_port_indep input); [|assumption]. inv_fields I.
      constructor; cbn; auto.
    + destruct (memchr _ _ _ "?"%char _) as [p|] eqn:Hq; cbn [is_null negb].
      * destruct (memchr_found _ _ _ _ _ _ Hq) as (o & -> & Ho & Hl).
        cbn [str set_state]. rewrite Hp. cbn [ptr_diff].
        destruct (aws_byte_cursor_advance _ _) as [x rest] eqn:Ha.
        assert (Hk : 0 <= o - off) by lia.
        destruct (advance_ok _ _ _ _ _ Hstr Hk Ha) as [Hx Hrest].
        apply (s_parse_authority_port_indep input); [|assumption]. inv_fields I.
        constructor; cbn; auto.
      * rewrite Hp. cbn [ptr_add ptr_diff].
        destruct (aws_byte_cursor_advance _ _) as [x rest] eqn:Ha.
        assert (Hk : 0 <= off + cur_len (str c) - off) by lia.
        destruct (advance_ok _ _ _ _ _ Hstr Hk Ha) as [Hx Hrest].
        apply (s_parse_authority_port_indep input); [|assumption]. inv_fields I.
        constructor; cbn; auto.
Qed.

Lemma s_parse_path_indep input c :
  parser_inv input c -> s_parse_path b1 c = s_parse_path b2 c.
Proof.
  intros I. unfold s_parse_path. rewrite (mem_of_inv _ _ I).
  cbn [str set_uri uri].
  rewrite (memchr_indep input (str c) _ (str_ok_in_copy _ _ (inv_str _ _ I))).
  reflexivity.
Qed.

Lemma s_states_indep input c :
  parser_inv input c -> Z.of_nat (length input) <= SIZE_MAX ->
  last input zero <> ":"%char ->
  s_states b1 (state c) c = s_states b2 (state c) c.
Proof.
  intros I Hn Hlast. destruct (state c); cbn [s_states];
    eauto using s_parse_scheme_indep, s_parse_authority_indep, s_parse_path_indep.
Qed.

Lemma s_parser_loop_indep input fuel : forall c,
  parser_inv input c -> Z.of_nat (length input) <= SIZE_MAX ->
  last input zero <> ":"%char ->
  s_parser_loop b1 fuel c = s_parser_loop b2 fuel c.
Proof.
  induction fuel as [|fuel IH]; intros c I Hn Hlast; cbn [s_parser_loop];
    [reflexivity|].
  destruct (_ <? _); [|reflexivity].
  rewrite (s_states_indep input c I Hn Hlast).
  apply IH; auto. apply (s_states_inv b2), I.
Qed.

End UriBeyond.

Section UriResults.
Context {K : build_constants}.
Variable beyond : ascii.

Lemma aws_uri_init_parse_runs input c :
  exists c1,
    s_parser_loop beyond 4 (parser_start input c) = Some c1 /\
    parser_inv input c1 /\
    live_blocks c1 = S (live_blocks c) /\
    (state c1 = FINISHED \/ state c1 = ERROR).
Proof.
  destruct (s_parser_loop_total beyond 4 (parser_start input c)) as (c1 & Hrun & Hend & Hu & Hl).
  { cbn. lia. }
  exists c1. split; [assumption|]. split.
  - eapply s_parser_loop_inv; [apply parser_start_inv|exact Hrun].
  - split; [exact Hl|]. destruct (state c1); cbn in Hend; auto; lia.
Qed.

(** Whatever [aws_uri_init_parse] returned (success, a failed parse, or no
    memory for the copy), [aws_uri_clean_up] afterwards leaves the struct
    zeroed and the allocator with the blocks it had before the
    initialisation; cleaning up a second time changes nothing, so the copy
    is never released twice. *)
Theorem clean_up_after_init_gives_the_copy_back_once
    (alloc_ok : bool) (input : list ascii) (c : parse_ctx) :
  exists rc c1,
    aws_uri_init_parse beyond alloc_ok input c = Some (rc, c1) /\
    uri (aws_uri_clean_up c1) = zero_uri /\
    live_blocks (aws_uri_clean_up c1) = live_blocks c /\
    aws_uri_clean_up (aws_uri_clean_up c1) = aws_uri_clean_up c1.
Proof.
  destruct alloc_ok.
  - rewrite aws_uri_init_parse_unfold.
    destruct (aws_uri_init_parse_runs input c) as (c1 & -> & I & Hl & [Hs|Hs]); rewrite Hs.
    + exists AWS_OP_SUCCESS, c1. split; [reflexivity|].
      unfold aws_uri_clean_up, aws_byte_buf_clean_up.
      rewrite (inv_uri_str _ _ I). cbn. rewrite Hl. auto.
    + eexists _, _. split; [reflexivity|].
      unfold aws_uri_clean_up, aws_byte_buf_clean_up.
      rewrite (inv_uri_str _ _ I). cbn. rewrite Hl. auto.
  - rewrite aws_uri_init_parse_no_memory. eexists _, _. split; [reflexivity|].
    cbn. auto.
Qed.


(** For an input that does not end in a colon (and whose length fits
    [size_t]), the result does not depend on the byte that follows the
    copy in memory: no state function reads outside the copy. *)
Theorem parse_ignores_the_byte_after_the_copy
    (alloc_ok : bool) (input : list ascii) (c : parse_ctx) (other : ascii) :
  Z.of_nat (length input) <= SIZE_MAX ->
  last input zero <> ":"%char ->
  aws_uri_init_parse beyond alloc_ok input c = aws_uri_init_parse other alloc_ok input c.
Proof.
  intros Hn Hlast. destruct alloc_ok; [|reflexivity].
  rewrite !aws_uri_init_parse_unfold.
  rewrite (s_parser_loop_indep beyond other input 4 _ (parser_start_inv input c) Hn Hlast).
  reflexivity.
Qed.

End UriResults.

Lemma load_app mem1 x mem2 b :
  load (mem1 ++ x :: mem2) b URI_STR (Z.of_nat (length mem1)) = x.
Proof.
  unfold load. destruct (_ <? 0) eqn:E; [apply Z.ltb_lt in E; lia|].
  cbn [region_bytes]. rewrite Nat2Z.id. apply nth_middle.
Qed.

Lemma load_end mem b : load mem b URI_STR (Z.of_nat (length mem)) = b.
Proof.
  unfold load. destruct (_ <? 0) eqn:E; [apply Z.ltb_lt in E; lia|].
  cbn [region_bytes]. rewrite Nat2Z.id. apply nth_overflow. lia.
Qed.

Lemma memchr_from_skip b ch mid : forall pre post n,
  ~ In ch mid ->
  memchr_from (pre ++ mid ++ post) b URI_STR (Z.of_nat (length pre)) ch n =
  if (n <=? length mid)%nat then None
  else memchr_from (pre ++ mid ++ post) b URI_STR
         (Z.of_nat (length pre) + Z.of_nat (length mid)) ch (n - length mid).
Proof.
  induction mid as [|a mid IH]; intros pre post n Hin.
  - cbn [length app]. rewrite Z.add_0_r, Nat.sub_0_r.
    destruct n; [reflexivity|]. reflexivity.
  - destruct n as [|n]; [reflexivity|].
    cbn [memchr_from]. cbn [app]. rewrite load_app.
    destruct (Ascii.eqb a ch) eqn:E.
    { apply Ascii.eqb_eq in E. exfalso. apply Hin. left. assumption. }
    change (pre ++ a :: mid ++ post) with (pre ++ [a] ++ mid ++ post).
    rewrite app_assoc.
    replace (Z.of_nat (length pre) + 1) with (Z.of_nat (length (pre ++ [a])))
      by (rewrite length_app; cbn; lia).
    rewrite IH by (intros H; apply Hin; right; assumption).
    cbn [length]. change (S n <=? S (length mid))%nat with (n <=? length mid)%nat.
    destruct (n <=? length mid)%nat; [reflexivity|].
    rewrite length_app. cbn [length]. f_equal. lia.
Qed.

Lemma memchr_some mem b ch pre mid post n :
  mem = pre ++ mid ++ ch :: post ->
  ~ In ch mid ->
  Z.of_nat (length mid) < n ->
  memchr mem b (Some (URI_STR, Z.of_nat (length pre))) ch n =
  Some (URI_STR, Z.of_nat (length pre) + Z.of_nat (length mid)).
Proof.
  intros -> Hin Hn. unfold memchr. rewrite memchr_from_skip by assumption.
  destruct (_ <=? _)%nat eqn:E; [apply Nat.leb_le in E; lia|].
  apply Nat.leb_gt in E.
  destruct (Z.to_nat n - length mid)%nat eqn:En; [lia|].
  cbn [memchr_from].
  replace (Z.of_nat (length pre) + Z.of_nat (length mid))
    with (Z.of_nat (length (pre ++ mid))) by (rewrite length_app; lia).
  rewrite app_assoc, load_app, Ascii.eqb_refl. reflexivity.
Qed.

Lemma memchr_none mem b ch pre mid post n :
  mem = pre ++ mid ++ post ->
  ~ In ch mid ->
  n <= Z.of_nat (length mid) ->
  memchr mem b (Some (URI_STR, Z.of_nat (length pre))) ch n = None.
Proof.
  intros -> Hin Hn. unfold memchr. rewrite memchr_from_skip by assumption.
  destruct (_ <=? _)%nat eqn:E; [reflexivity|]. apply Nat.leb_gt in E. lia.
Qed.

Lemma load_bytes_app b x : forall pre post,
  load_bytes (pre ++ x ++ post) b URI_STR (Z.of_nat (length pre)) (length x) = x.
Proof.
  induction x as [|a x IH]; intros pre post; [reflexivity|].
  cbn [length load_bytes app]. rewrite load_app. f_equal.
  change (pre ++ a :: x ++ post) with (pre ++ [a] ++ x ++ post).
  rewrite app_assoc.
  replace (Z.of_nat (length pre) + 1) with (Z.of_nat (length (pre ++ [a])))
    by (rewrite length_app; cbn; lia).
  apply IH.
Qed.

Lemma advance_exact cur k :
  cur_len cur <= Z.shiftr SIZE_MAX 1 -> 0 <= k <= cur_len cur ->
  aws_byte_cursor_advance cur k =
  (mk_cursor k (cur_ptr cur), mk_cursor (cur_len cur - k) (ptr_add (cur_ptr cur) k)).
Proof.
  intros H1 H2. unfold aws_byte_cursor_advance.
  destruct (_ || _) eqn:E; [|reflexivity].
  apply orb_true_iff in E. destruct E as [E|E]; [apply orb_true_iff in E; destruct E as [E|E]|];
    apply Z.gtb_lt in E; lia.
Qed.

Lemma load_at mem b pre x post off :
  mem = pre ++ x :: post -> off = Z.of_nat (length pre) ->
  load mem b URI_STR off = x.
Proof. intros -> ->. apply load_app. Qed.

Lemma memchr_at mem b ch pre mid post off n :
  mem = pre ++ mid ++ ch :: post ->
  off = Z.of_nat (length pre) ->
  ~ In ch mid ->
  Z.of_nat (length mid) < n ->
  memchr mem b (Some (URI_STR, off)) ch n = Some (URI_STR, off + Z.of_nat (length mid)).
Proof. intros E -> H1 H2. eapply memchr_some; eauto. Qed.

Lemma memchr_absent mem b ch pre mid post off n :
  mem = pre ++ mid ++ post ->
  off = Z.of_nat (length pre) ->
  ~ In ch mid ->
  n <= Z.of_nat (length mid) ->
  memchr mem b (Some (URI_STR, off)) ch n = None.
Proof. intros E -> H1 H2. eapply memchr_none; eauto. Qed.

Lemma bytes_at_eq mem b pre x post off n :
  mem = pre ++ x ++ post ->
  off = Z.of_nat (length pre) ->
  n = Z.of_nat (length x) ->
  bytes_at mem b (Some (URI_STR, off)) n = x.
Proof. intros -> -> ->. unfold bytes_at. rewrite Nat2Z.id. apply load_bytes_app. Qed.

Ltac list_eq := repeat rewrite <- app_assoc; rewrite ?app_nil_r; cbn [app]; reflexivity.
Ltac rec_eq :=
  repeat match goal with
  | |- mk_ctx _ _ _ _ _ = mk_ctx _ _ _ _ _ => f_equal
  | |- mk_uri _ _ _ _ _ _ _ _ _ _ = mk_uri _ _ _ _ _ _ _ _ _ _ => f_equal
  | |- mk_cursor _ _ = mk_cursor _ _ => f_equal
  | |- Some _ = Some _ => f_equal
  | |- (_, _) = (_, _) => f_equal
  | |- ?f (mk_cursor _ _) ?u = ?f (mk_cursor _ _) ?u => f_equal
  end; try reflexivity; try lia.
Ltac ctx_simpl :=
  cbn [uri state str raised live_blocks
       self_size allocator uri_str scheme authority host_name port path query_string
       path_and_query
       set_scheme set_authority set_host_name set_port set_path set_query_string
       set_path_and_query set_uri_str
       buf_len buffer capacity buf_allocator
       is_null cur_ptr cur_len andb negb orb Ascii.eqb Bool.eqb Nat.pred].
Lemma ctx_eta c : c = mk_ctx (uri c) (state c) (str c) (raised c) (live_blocks c).
Proof. destruct c; reflexivity. Qed.

Lemma uri_eta u :
  u = mk_uri (self_size u) (allocator u) (uri_str u) (scheme u) (authority u)
        (host_name u) (port u) (path u) (query_string u) (path_and_query u).
Proof. destruct u; reflexivity. Qed.

Ltac ctx_fields :=
  cbn [uri state str raised live_blocks
       self_size allocator uri_str scheme authority host_name port path query_string
       path_and_query
       set_uri set_state set_str set_raised set_live_blocks uri_raise_error
       set_scheme set_authority set_host_name set_port set_path set_query_string
       set_path_and_query set_uri_str aws_byte_buf_clean_up parser_start
       buf_len buffer capacity buf_allocator zero_uri zero_buf zero_cursor
       is_null cur_ptr cur_len andb negb orb Nat.pred].

Ltac ctx_norm :=
  match goal with
  | |- Some (_, ?X) = _ => rewrite (ctx_eta X); rewrite (uri_eta (uri X))
  end; ctx_fields.

Ltac len_eq :=
  repeat (rewrite length_app in * || (progress cbn [length] in * ));
  lia.

Section UriSteps.
Context {K : build_constants}.
Variable beyond : ascii.

Lemma s_parse_scheme_found input c sch rest :
  mem_of c = input ->
  input = sch ++ ":"%char :: "/"%char :: "/"%char :: rest ->
  str c = mk_cursor (Z.of_nat (length input)) (Some (URI_STR, 0)) ->
  ~ In ":"%char sch ->
  Z.of_nat (length input) <= Z.shiftr SIZE_MAX 1 ->
  s_parse_scheme beyond c =
  set_state ON_AUTHORITY
    (set_str (mk_cursor (Z.of_nat (length rest))
                (Some (URI_STR, Z.of_nat (length sch) + 3)))
       (set_uri (set_scheme (mk_cursor (Z.of_nat (length sch)) (Some (URI_STR, 0)))
                   (uri c)) c)).
Proof.
  intros Hmem Hin Hstr Hsch Hlen. unfold s_parse_scheme. rewrite Hmem, Hstr.
  cbn [cur_ptr cur_len].
  assert (Hn : Z.of_nat (length input) = Z.of_nat (length sch) + 3 + Z.of_nat (length rest)).
  { rewrite Hin. len_eq. }
  rewrite (memchr_at input beyond ":"%char [] sch ("/"%char :: "/"%char :: rest) 0)
    by (auto; lia).
  cbn [is_null ptr_diff ptr_add deref].
  rewrite (load_at input beyond (sch ++ [":"%char]) "/"%char ("/"%char :: rest))
    by (try len_eq; rewrite Hin; list_eq).
  cbn [Ascii.eqb negb andb]. rewrite andb_false_r.
  rewrite Z.add_0_l, Z.sub_0_r.
  rewrite advance_exact by (cbn [cur_len]; lia).
  cbn [cur_len cur_ptr ptr_add str set_str set_uri deref].
  rewrite !Z.add_0_l, ?Z.add_0_r.
  rewrite (load_at input beyond sch ":"%char ("/"%char :: "/"%char :: rest))
    by (auto; rewrite Hin; list_eq).
  rewrite (load_at input beyond (sch ++ [":"%char]) "/"%char ("/"%char :: rest))
    by (try len_eq; rewrite Hin; list_eq).
  rewrite (load_at input beyond (sch ++ [":"%char; "/"%char]) "/"%char rest)
    by (try len_eq; rewrite Hin; list_eq).
  destruct (_ <? 3) eqn:E; [apply Z.ltb_lt in E; lia|].
  cbn [Ascii.eqb negb orb].
  rewrite advance_exact by (cbn [cur_len]; lia).
  cbn [cur_len cur_ptr ptr_add].
  unfold set_state, set_str, set_uri. ctx_simpl.
  rec_eq.
Qed.


Lemma s_parse_authority_slash input c pre a rest :
  mem_of c = input ->
  input = pre ++ a ++ "/"%char :: rest ->
  str c = mk_cursor (Z.of_nat (length a) + 1 + Z.of_nat (length rest))
            (Some (URI_STR, Z.of_nat (length pre))) ->
  ~ In "/"%char a ->
  Z.of_nat (length input) <= Z.shiftr SIZE_MAX 1 ->
  s_parse_authority beyond c =
  s_parse_authority_port beyond
    (set_str (mk_cursor (1 + Z.of_nat (length rest))
                (Some (URI_STR, Z.of_nat (length pre) + Z.of_nat (length a))))
       (set_uri (set_authority (mk_cursor (Z.of_nat (length a))
                                  (Some (URI_STR, Z.of_nat (length pre))))
                   (uri c))
          (set_state ON_PATH c))).
Proof.
  intros Hmem Hin Hstr Ha Hlen. unfold s_parse_authority. rewrite Hmem, Hstr.
  cbn [cur_ptr cur_len].
  assert (Hn : Z.of_nat (length input) =
               Z.of_nat (length pre) + Z.of_nat (length a) + 1 + Z.of_nat (length rest)).
  { rewrite Hin. len_eq. }
  rewrite (memchr_at input beyond "/"%char pre a rest) by (auto; lia).
  cbn [is_null andb negb].
  destruct (nonzero _) eqn:Hnz;
    [|unfold nonzero in Hnz; apply negb_false_iff, Z.eqb_eq in Hnz; lia].
  cbn [negb str set_state]. rewrite Hstr. cbn [cur_ptr cur_len ptr_diff].
  rewrite advance_exact by (cbn [cur_len]; lia).
  cbn [cur_len cur_ptr ptr_add].
  f_equal. unfold set_state, set_str, set_uri. ctx_simpl.
  rec_eq.
Qed.

Lemma s_parse_authority_bare input c pre a :
  mem_of c = input ->
  input = pre ++ a ->
  a <> [] ->
  str c = mk_cursor (Z.of_nat (length a)) (Some (URI_STR, Z.of_nat (length pre))) ->
  ~ In "/"%char a -> ~ In "?"%char a ->
  Z.of_nat (length input) <= Z.shiftr SIZE_MAX 1 ->
  s_parse_authority beyond c =
  s_parse_authority_port beyond
    (set_str (mk_cursor 0 (Some (URI_STR, Z.of_nat (length pre) + Z.of_nat (length a))))
       (set_state FINISHED
          (set_uri
             (set_path_and_query (mk_cursor 1 (Some (DEFAULT_PATH, 0)))
                (set_path (mk_cursor 1 (Some (DEFAULT_PATH, 0)))
                   (set_authority (mk_cursor (Z.of_nat (length a))
                                     (Some (URI_STR, Z.of_nat (length pre))))
                      (uri c))))
             c))).
Proof.
  intros Hmem Hin Hne Hstr Hs Hq Hlen. unfold s_parse_authority. rewrite Hmem, Hstr.
  cbn [cur_ptr cur_len].
  assert (Hn : Z.of_nat (length input) = Z.of_nat (length pre) + Z.of_nat (length a)).
  { rewrite Hin. len_eq. }
  rewrite (memchr_absent input beyond "/"%char pre a [])
    by (auto; try lia; rewrite Hin; list_eq).
  rewrite (memchr_absent input beyond "?"%char pre a [])
    by (auto; try lia; rewrite Hin; list_eq).
  cbn [is_null andb].
  destruct (nonzero _) eqn:Hnz.
  2:{ unfold nonzero in Hnz. apply negb_false_iff, Z.eqb_eq in Hnz.
      destruct a; [contradiction|cbn in Hnz; lia]. }
  cbn [str set_state set_uri uri authority set_authority set_path set_path_and_query
       path cur_len].
  rewrite Hstr.
  rewrite advance_exact by (cbn [cur_len]; lia).
  cbn [cur_len cur_ptr ptr_add].
  f_equal. unfold set_state, set_str, set_uri. ctx_simpl.
  rec_eq.
Qed.

Lemma s_parse_authority_port_none input c pre a post :
  mem_of c = input ->
  input = pre ++ a ++ post ->
  a <> [] ->
  authority (uri c) =
    mk_cursor (Z.of_nat (length a)) (Some (URI_STR, Z.of_nat (length pre))) ->
  ~ In ":"%char a ->
  s_parse_authority_port beyond c =
  set_uri (set_host_name (authority (uri c)) (set_port 0 (uri c))) c.
Proof.
  intros Hmem Hin Hne Hau Ha. unfold s_parse_authority_port. rewrite Hmem.
  cbv zeta. rewrite !Hau. cbn [cur_len cur_ptr].
  destruct (nonzero _) eqn:Hnz.
  2:{ unfold nonzero in Hnz. apply negb_false_iff, Z.eqb_eq in Hnz.
      destruct a; [contradiction|cbn in Hnz; lia]. }
  rewrite (memchr_absent input beyond ":"%char pre a post) by (auto; lia).
  reflexivity.
Qed.

Lemma s_parse_authority_port_some input c pre host d post :
  mem_of c = input ->
  input = pre ++ (host ++ ":"%char :: d) ++ post ->
  authority (uri c) =
    mk_cursor (Z.of_nat (length (host ++ ":"%char :: d)))
      (Some (URI_STR, Z.of_nat (length pre))) ->
  ~ In ":"%char host ->
  Z.of_nat (length input) <= SIZE_MAX ->
  s_parse_authority_port beyond c =
  let c1 :=
    set_uri (set_host_name (mk_cursor (Z.of_nat (length host))
                              (Some (URI_STR, Z.of_nat (length pre))))
               (uri c)) c in
  if negb (forallb isdigit d) then
    uri_raise_error AWS_ERROR_MALFORMED_INPUT_STRING (set_state ERROR c1)
  else if Z.of_nat (length d) >? 5 then
    uri_raise_error AWS_ERROR_MALFORMED_INPUT_STRING (set_state ERROR c1)
  else if atoi_digits 0 d >? UINT16_MAX then
    uri_raise_error AWS_ERROR_MALFORMED_INPUT_STRING (set_state ERROR c1)
  else set_uri (set_port (atoi_digits 0 d mod (UINT16_MAX + 1)) (uri c1)) c1.
Proof.
  intros Hmem Hin Hau Hh Hlen. unfold s_parse_authority_port. rewrite Hmem.
  cbv zeta. rewrite !Hau. cbn [cur_len cur_ptr].
  assert (Hn : Z.of_nat (length input) =
               Z.of_nat (length pre) + Z.of_nat (length host) + 1 + Z.of_nat (length d)
               + Z.of_nat (length post)).
  { rewrite Hin. len_eq. }
  assert (Ha : Z.of_nat (length (host ++ ":"%char :: d)) =
               Z.of_nat (length host) + 1 + Z.of_nat (length d)) by len_eq.
  destruct (nonzero _) eqn:Hnz.
  2:{ unfold nonzero in Hnz. apply negb_false_iff, Z.eqb_eq in Hnz. lia. }
  rewrite (memchr_at input beyond ":"%char pre host (d ++ post))
    by (auto; try lia; rewrite Hin; list_eq).
  cbn [is_null ptr_diff ptr_add].
  cbn [uri set_uri authority host_name set_host_name cur_len].
  rewrite ?Hau. cbn [cur_len].
  replace (Z.of_nat (length pre) + Z.of_nat (length host) - Z.of_nat (length pre))
    with (Z.of_nat (length host)) by lia.
  rewrite (size_sub_exact (Z.of_nat (length (host ++ ":"%char :: d)))) by lia.
  rewrite size_sub_exact by lia.
  rewrite (bytes_at_eq input beyond (pre ++ host ++ [":"%char]) d post)
    by (try len_eq; rewrite Hin; list_eq).
  replace (Z.of_nat (length (host ++ ":"%char :: d)) - Z.of_nat (length host) - 1)
    with (Z.of_nat (length d)) by lia.
  reflexivity.
Qed.


Lemma s_parse_path_whole input c pre p :
  mem_of c = input ->
  input = pre ++ p ->
  str c = mk_cursor (Z.of_nat (length p)) (Some (URI_STR, Z.of_nat (length pre))) ->
  ~ In "?"%char p ->
  Z.of_nat (length input) <= Z.shiftr SIZE_MAX 1 ->
  s_parse_path beyond c =
  set_str (mk_cursor 0 (Some (URI_STR, Z.of_nat (length pre) + Z.of_nat (length p))))
    (set_state FINISHED
       (set_uri (set_path (str c) (set_path_and_query (str c) (uri c))) c)).
Proof.
  intros Hmem Hin Hstr Hp Hlen. unfold s_parse_path. rewrite Hmem.
  cbn [str set_uri uri]. rewrite !Hstr. cbn [cur_ptr cur_len].
  assert (Hn : Z.of_nat (length input) = Z.of_nat (length pre) + Z.of_nat (length p)).
  { rewrite Hin. len_eq. }
  rewrite (memchr_absent input beyond "?"%char pre p [])
    by (auto; try lia; rewrite Hin; list_eq).
  cbn [is_null]. cbn [str set_state set_uri uri path set_path cur_len].
  rewrite ?Hstr.
  rewrite advance_exact by (cbn [cur_len]; lia).
  cbn [cur_len cur_ptr ptr_add].
  unfold set_state, set_str, set_uri. ctx_simpl.
  rec_eq.
Qed.

Lemma s_parse_path_query input c pre p q :
  mem_of c = input ->
  input = pre ++ p ++ "?"%char :: q ->
  str c = mk_cursor (Z.of_nat (length p) + 1 + Z.of_nat (length q))
            (Some (URI_STR, Z.of_nat (length pre))) ->
  ~ In "?"%char p ->
  Z.of_nat (length input) <= Z.shiftr SIZE_MAX 1 ->
  s_parse_path beyond c =
  set_state ON_QUERY_STRING
    (set_str (mk_cursor (1 + Z.of_nat (length q))
                (Some (URI_STR, Z.of_nat (length pre) + Z.of_nat (length p))))
       (set_uri (set_path (mk_cursor (Z.of_nat (length p))
                             (Some (URI_STR, Z.of_nat (length pre))))
                   (set_path_and_query (str c) (uri c))) c)).
Proof.
  intros Hmem Hin Hstr Hp Hlen. unfold s_parse_path. rewrite Hmem.
  cbn [str set_uri uri]. rewrite !Hstr. cbn [cur_ptr cur_len].
  assert (Hn : Z.of_nat (length input) =
               Z.of_nat (length pre) + Z.of_nat (length p) + 1 + Z.of_nat (length q)).
  { rewrite Hin. len_eq. }
  rewrite (memchr_at input beyond "?"%char pre p q) by (auto; lia).
  cbn [is_null].
  destruct (nonzero _) eqn:Hnz;
    [|unfold nonzero in Hnz; apply negb_false_iff, Z.eqb_eq in Hnz; lia].
  cbn [negb ptr_diff]. cbn [str set_state set_uri uri path set_path cur_len].
  rewrite ?Hstr.
  replace (Z.of_nat (length pre) + Z.of_nat (length p) - Z.of_nat (length pre))
    with (Z.of_nat (length p)) by lia.
  rewrite advance_exact by (cbn [cur_len]; lia).
  cbn [cur_len cur_ptr ptr_add].
  unfold set_state, set_str, set_uri. ctx_simpl.
  rec_eq.
Qed.

End UriSteps.

Lemma size_add_exact a b : 0 <= a + b <= SIZE_MAX -> size_add a b = a + b.
Proof. intros H. unfold size_add. apply Z.mod_small. lia. Qed.

Lemma s_parse_query_string_run c off (q : list ascii) :
  str c = mk_cursor (1 + Z.of_nat (length q)) (Some (URI_STR, off)) ->
  1 + Z.of_nat (length q) <= Z.shiftr SIZE_MAX 1 ->
  s_parse_query_string c =
  let c1 :=
    if is_null (cur_ptr (path_and_query (uri c)))
    then set_uri (set_path_and_query (str c) (uri c)) c
    else c in
  set_state FINISHED
    (set_str (mk_cursor 0 (Some (URI_STR, off + (1 + Z.of_nat (length q)))))
       (set_uri (set_query_string
                   (mk_cursor (Z.of_nat (length q)) (Some (URI_STR, off + 1)))
                   (uri c1)) c1)).
Proof.
  intros Hstr Hlen. unfold s_parse_query_string. cbv zeta.
  set (c1 := if is_null _ then _ else c).
  assert (Hstr1 : str c1 = str c) by (subst c1; destruct (is_null _); reflexivity).
  clearbody c1. rewrite Hstr1, Hstr. cbn [cur_len cur_ptr ptr_add].
  assert (Hmax : Z.shiftr SIZE_MAX 1 <= SIZE_MAX) by (vm_compute; discriminate).
  destruct (nonzero _) eqn:Hnz;
    [|unfold nonzero in Hnz; apply negb_false_iff, Z.eqb_eq in Hnz; lia].
  cbn [str set_uri uri query_string set_query_string cur_len].
  rewrite ?Hstr1, ?Hstr.
  rewrite size_sub_exact by lia.
  replace (1 + Z.of_nat (length q) - 1) with (Z.of_nat (length q)) by lia.
  rewrite size_add_exact by lia.
  rewrite advance_exact by (cbn [cur_len]; lia).
  cbn [cur_len cur_ptr ptr_add].
  unfold set_state, set_str, set_uri. ctx_simpl.
  rec_eq.
Qed.

Section UriShapes.
Context {K : build_constants}.
Variable beyond : ascii.

Lemma s_parser_loop_step fuel c :
  state_rank (state c) < state_rank FINISHED ->
  s_parser_loop beyond (S fuel) c = s_parser_loop beyond fuel (s_states beyond (state c) c).
Proof.
  intros H. cbn [s_parser_loop]. apply Z.ltb_lt in H. rewrite H. reflexivity.
Qed.

Lemma s_parser_loop_done fuel c :
  state_rank FINISHED <= state_rank (state c) ->
  s_parser_loop beyond fuel c = Some c.
Proof.
  intros H. apply Z.ltb_ge in H. destruct fuel; cbn [s_parser_loop]; rewrite H; reflexivity.
Qed.

Lemma atoi_range_mod x : 0 <= x <= UINT16_MAX -> x mod (UINT16_MAX + 1) = x.
Proof. intros H. apply Z.mod_small. unfold UINT16_MAX in *. lia. Qed.

Lemma atoi_digits_nonneg l : forall acc, 0 <= acc -> 0 <= atoi_digits acc l.
Proof.
  induction l as [|ch l IH]; intros acc H; cbn [atoi_digits]; [assumption|].
  destruct (isdigit ch) eqn:E; [|assumption].
  apply IH. unfold isdigit in E. apply andb_true_iff in E. destruct E as [E _].
  apply Z.leb_le in E. lia.
Qed.

Lemma s_parse_authority_port_ok input c pre host port_digits post :
  mem_of c = input ->
  input = pre ++ (host ++ port_text port_digits) ++ post ->
  authority (uri c) =
    mk_cursor (Z.of_nat (length (host ++ port_text port_digits)))
      (Some (URI_STR, Z.of_nat (length pre))) ->
  host ++ port_text port_digits <> [] ->
  ~ In ":"%char host ->
  port_text_ok port_digits = true ->
  Z.of_nat (length input) <= SIZE_MAX ->
  s_parse_authority_port beyond c =
  set_uri (set_port (match port_digits with Some d => atoi_digits 0 d | None => 0 end)
             (set_host_name (mk_cursor (Z.of_nat (length host))
                               (Some (URI_STR, Z.of_nat (length pre))))
                (uri c))) c.
Proof.
  intros Hmem Hin Hau Hne Hh Hok Hlen. destruct port_digits as [d|]; cbn [port_text] in *.
  - rewrite (s_parse_authority_port_some beyond input c pre host d post) by assumption.
    cbv zeta. unfold port_text_ok, port_digits_ok in Hok.
    apply andb_true_iff in Hok. destruct Hok as [Hok H3].
    apply andb_true_iff in Hok. destruct Hok as [H1 H2].
    rewrite H1. cbn [negb].
    apply Z.leb_le in H2, H3.
    destruct (_ >? 5) eqn:E; [apply Z.gtb_lt in E; lia|].
    destruct (_ >? UINT16_MAX) eqn:E'; [apply Z.gtb_lt in E'; lia|].
    rewrite atoi_range_mod by (split; [apply atoi_digits_nonneg; lia|assumption]).
    reflexivity.
  - rewrite app_nil_r in *.
    rewrite (s_parse_authority_port_none beyond input c pre host post) by assumption.
    rewrite Hau. destruct c as [u st sr ra lb]. destruct u. reflexivity.
Qed.

Lemma aws_uri_init_parse_full_uri
    (sch host : list ascii) (port_digits : option (list ascii))
    (p : list ascii) (query : option (list ascii)) (c : parse_ctx) :
  let input := uri_text sch host port_digits ("/"%char :: p) query in
  let n := Z.of_nat (length input) in
  let a := Z.of_nat (length sch) + 3 in
  let al := Z.of_nat (length (host ++ port_text port_digits)) in
  let pl := 1 + Z.of_nat (length p) in
  ~ In ":"%char sch ->
  host <> [] -> ~ In ":"%char host -> ~ In "/"%char host ->
  port_text_ok port_digits = true ->
  ~ In "?"%char p ->
  n <= Z.shiftr SIZE_MAX 1 ->
  aws_uri_init_parse beyond true input c =
  Some (AWS_OP_SUCCESS,
        mk_ctx
          (mk_uri sizeof_aws_uri true (mk_buf n (Some input) n true)
             (mk_cursor (Z.of_nat (length sch)) (Some (URI_STR, 0)))
             (mk_cursor al (Some (URI_STR, a)))
             (mk_cursor (Z.of_nat (length host)) (Some (URI_STR, a)))
             (match port_digits with Some d => atoi_digits 0 d | None => 0 end)
             (mk_cursor pl (Some (URI_STR, a + al)))
             (match query with
              | Some q => mk_cursor (Z.of_nat (length q)) (Some (URI_STR, a + al + pl + 1))
              | None => zero_cursor
              end)
             (mk_cursor (pl + Z.of_nat (length (query_text query))) (Some (URI_STR, a + al))))
          FINISHED (mk_cursor 0 (Some (URI_STR, n))) (raised c) (S (live_blocks c))).
Proof.
  intros input n a al pl Hsch Hne Hhc Hhs Hport Hp Hlen.
  assert (Hmax : Z.shiftr SIZE_MAX 1 <= SIZE_MAX) by (vm_compute; discriminate).
  assert (Hin : input = (sch ++ [":"%char; "/"%char; "/"%char]) ++
                        (host ++ port_text port_digits) ++
                        "/"%char :: p ++ query_text query).
  { unfold input, uri_text. list_eq. }
  assert (Hpt : ~ In "/"%char (host ++ port_text port_digits)).
  { intros H. apply in_app_or in H. destruct H as [H|H]; [auto|].
    destruct port_digits as [d|]; [|contradiction]. destruct H as [H|H]; [discriminate|].
    unfold port_text_ok, port_digits_ok in Hport.
    apply andb_true_iff in Hport. destruct Hport as [Hport _].
    apply andb_true_iff in Hport. destruct Hport as [Hd _].
    rewrite forallb_forall in Hd. specialize (Hd _ H). discriminate. }
  rewrite aws_uri_init_parse_unfold.
  (* the scheme *)
  rewrite s_parser_loop_step by (cbn; lia).
  change (state (parser_start input c)) with ON_SCHEME. cbn [s_states].
  erewrite (s_parse_scheme_found beyond input _ sch
              ((host ++ port_text port_digits) ++ ("/"%char :: p) ++ query_text query));
    [|reflexivity|reflexivity|reflexivity|assumption|assumption].
  (* the authority *)
  match goal with |- context [s_parser_loop beyond 3 ?X] => set (c1 := X) end.
  rewrite s_parser_loop_step by (cbn; lia).
  change (state c1) with ON_AUTHORITY. cbn [s_states].
  rewrite (s_parse_authority_slash beyond input c1
             (sch ++ [":"%char; "/"%char; "/"%char]) (host ++ port_text port_digits)
             (p ++ query_text query));
    [|reflexivity|assumption| |assumption|assumption].
  2:{ subst c1. cbn [str set_state set_str]. rec_eq; len_eq. }
  match goal with |- context [s_parse_authority_port beyond ?X] => set (c2 := X) end.
  rewrite (s_parse_authority_port_ok input c2
             (sch ++ [":"%char; "/"%char; "/"%char]) host port_digits
             ("/"%char :: p ++ query_text query));
    [|reflexivity|assumption|reflexivity| |assumption|assumption|fold n; lia].
  2:{ destruct host; [contradiction|discriminate]. }
  match goal with |- context [s_parser_loop beyond 2 ?X] => set (c3 := X) end.
  (* the path *)
  rewrite s_parser_loop_step by (cbn; lia).
  change (state c3) with ON_PATH. cbn [s_states].
  assert (Hstr3 : str c3 =
            mk_cursor (Z.of_nat (length ("/"%char :: p)) + Z.of_nat (length (query_text query)))
              (Some (URI_STR, Z.of_nat (length ((sch ++ [":"%char; "/"%char; "/"%char]) ++
                                                host ++ port_text port_digits))))).
  { subst c3 c2. cbn [str set_uri set_str]. rec_eq; len_eq. }
  assert (Hp' : ~ In "?"%char ("/"%char :: p)).
  { intros [H|H]; [discriminate|auto]. }
  destruct query as [q|]; cbn [query_text] in *.
  - rewrite (s_parse_path_query beyond input c3
               ((sch ++ [":"%char; "/"%char; "/"%char]) ++ host ++ port_text port_digits)
               ("/"%char :: p) q);
      [|reflexivity|rewrite Hin; list_eq| |assumption|assumption].
    2:{ rewrite Hstr3. rec_eq; len_eq. }
    match goal with |- context [s_parser_loop beyond 1 ?X] => set (c4 := X) end.
    rewrite s_parser_loop_step by (cbn; lia).
    change (state c4) with ON_QUERY_STRING. cbn [s_states].
    erewrite (s_parse_query_string_run c4 _ q); [|reflexivity|].
    2:{ assert (Z.of_nat (length input) = a + al + pl + 1 + Z.of_nat (length q)).
        { rewrite Hin. subst a al pl. len_eq. }
        fold n in H. lia. }
    rewrite s_parser_loop_done by (cbn; lia).
    cbv zeta. cbn [state set_state].
    assert (Z.of_nat (length input) = a + al + pl + 1 + Z.of_nat (length q)).
    { rewrite Hin. subst a al pl. len_eq. }
    subst c4. ctx_norm. rewrite Hstr3. subst c3 c2 c1. ctx_fields.
    subst n a al pl. rec_eq; len_eq.
  - rewrite (s_parse_path_whole beyond input c3
               ((sch ++ [":"%char; "/"%char; "/"%char]) ++ host ++ port_text port_digits)
               ("/"%char :: p));
      [|reflexivity|rewrite Hin; list_eq| |assumption|assumption].
    2:{ rewrite Hstr3. rec_eq; len_eq. }
    rewrite s_parser_loop_done by (cbn; lia).
    cbn [state set_state set_str].
    assert (Z.of_nat (length input) = a + al + pl).
    { rewrite Hin. subst a al pl. len_eq. }
    rewrite Hstr3.
    subst c3 c2 c1. ctx_norm.
    subst n a al pl. rec_eq; len_eq.
Qed.

(** A uri [scheme://host[:port]/path[?query]] is parsed into its parts: the
    scheme before the first colon, the authority up to the first slash after
    ["://"], the host name up to the colon of the authority, the port as the
    value of its digits (0 without a port), the path from the slash to the
    question mark, the query after it, and [path_and_query] from the slash
    to the end.  The host may hold question marks: the first slash ends the
    authority even when a question mark comes before it. *)
Theorem parse_of_a_full_uri
    (sch host : list ascii) (port_digits : option (list ascii))
    (p : list ascii) (query : option (list ascii)) (c : parse_ctx) :
  let input := uri_text sch host port_digits ("/"%char :: p) query in
  let n := Z.of_nat (length input) in
  let a := Z.of_nat (length sch) + 3 in
  let al := Z.of_nat (length (host ++ port_text port_digits)) in
  let pl := 1 + Z.of_nat (length p) in
  ~ In ":"%char sch ->
  host <> [] -> ~ In ":"%char host -> ~ In "/"%char host ->
  port_text_ok port_digits = true ->
  ~ In "?"%char p ->
  n <= Z.shiftr SIZE_MAX 1 ->
  aws_uri_init_parse beyond true input c =
  Some (AWS_OP_SUCCESS,
        mk_ctx
          (mk_uri sizeof_aws_uri true (mk_buf n (Some input) n true)
             (mk_cursor (Z.of_nat (length sch)) (Some (URI_STR, 0)))
             (mk_cursor al (Some (URI_STR, a)))
             (mk_cursor (Z.of_nat (length host)) (Some (URI_STR, a)))
             (match port_digits with Some d => atoi_digits 0 d | None => 0 end)
             (mk_cursor pl (Some (URI_STR, a + al)))
             (match query with
              | Some q => mk_cursor (Z.of_nat (length q)) (Some (URI_STR, a + al + pl + 1))
              | None => zero_cursor
              end)
             (mk_cursor (pl + Z.of_nat (length (query_text query))) (Some (URI_STR, a + al))))
          FINISHED (mk_cursor 0 (Some (URI_STR, n))) (raised c) (S (live_blocks c))).
Proof.
  intros input n a al pl. subst input n a al pl.
  apply aws_uri_init_parse_full_uri.
Qed.

Lemma s_parse_scheme_no_colon input c :
  mem_of c = input ->
  str c = mk_cursor (Z.of_nat (length input)) (Some (URI_STR, 0)) ->
  ~ In ":"%char input ->
  s_parse_scheme beyond c = set_state ON_AUTHORITY c.
Proof.
  intros Hmem Hstr Hno. unfold s_parse_scheme. rewrite Hmem, Hstr.
  cbn [cur_ptr cur_len].
  rewrite (memchr_absent input beyond ":"%char [] input [])
    by (auto; try lia; rewrite app_nil_r; reflexivity).
  reflexivity.
Qed.

(** The byte [s_parse_scheme] compares with a slash: the one after the
    first colon, which is [beyond] when the colon is the last byte. *)
Lemma s_parse_scheme_colon input c pre post :
  mem_of c = input ->
  input = pre ++ ":"%char :: post ->
  str c = mk_cursor (Z.of_nat (length input)) (Some (URI_STR, 0)) ->
  ~ In ":"%char pre ->
  hd beyond post <> "/"%char ->
  s_parse_scheme beyond c = set_state ON_AUTHORITY c.
Proof.
  intros Hmem Hin Hstr Hno Hnext. unfold s_parse_scheme. rewrite Hmem, Hstr.
  cbn [cur_ptr cur_len].
  assert (Hn : Z.of_nat (length input) = Z.of_nat (length pre) + 1 + Z.of_nat (length post)).
  { rewrite Hin. len_eq. }
  rewrite (memchr_at input beyond ":"%char [] pre post 0) by (auto; lia).
  cbn [is_null ptr_diff ptr_add deref].
  rewrite Z.add_0_l, Z.sub_0_r.
  destruct (_ <? _) eqn:E; [|apply Z.ltb_ge in E; lia].
  assert (Hload : load input beyond URI_STR (Z.of_nat (length pre) + 1) = hd beyond post).
  { destruct post as [|x post].
    - cbn [hd]. replace (Z.of_nat (length pre) + 1) with (Z.of_nat (length input))
        by (cbn in Hn; lia). apply load_end.
    - cbn [hd]. apply (load_at input beyond (pre ++ [":"%char]) x post);
        [rewrite Hin; list_eq|len_eq]. }
  rewrite Hload.
  destruct (Ascii.eqb _ _) eqn:E'; [apply Ascii.eqb_eq in E'; contradiction|].
  reflexivity.
Qed.


Lemma port_text_has_no ch port_digits :
  port_text_ok port_digits = true -> isdigit ch = false -> ch <> ":"%char ->
  ~ In ch (port_text port_digits).
Proof.
  intros Hok Hch Hc H. destruct port_digits as [d|]; [|contradiction].
  destruct H as [H|H]; [congruence|].
  unfold port_text_ok, port_digits_ok in Hok.
  apply andb_true_iff in Hok. destruct Hok as [Hok _].
  apply andb_true_iff in Hok. destruct Hok as [Hd _].
  rewrite forallb_forall in Hd. specialize (Hd _ H). congruence.
Qed.

(** A string [host] or [host:port] with no scheme, slash or question mark
    is parsed as the authority, with the path and [path_and_query] set to
    the literal [s_default_path] and the scheme and query left empty. *)
Theorem parse_of_a_bare_host
    (host : list ascii) (port_digits : option (list ascii)) (c : parse_ctx) :
  let input := host ++ port_text port_digits in
  let n := Z.of_nat (length input) in
  host <> [] ->
  ~ In ":"%char host -> ~ In "/"%char host -> ~ In "?"%char host ->
  port_text_ok port_digits = true ->
  port_digits <> Some [] ->
  n <= Z.shiftr SIZE_MAX 1 ->
  aws_uri_init_parse beyond true input c =
  Some (AWS_OP_SUCCESS,
        mk_ctx
          (mk_uri sizeof_aws_uri true (mk_buf n (Some input) n true)
             zero_cursor
             (mk_cursor n (Some (URI_STR, 0)))
             (mk_cursor (Z.of_nat (length host)) (Some (URI_STR, 0)))
             (match port_digits with Some d => atoi_digits 0 d | None => 0 end)
             (mk_cursor 1 (Some (DEFAULT_PATH, 0)))
             zero_cursor
             (mk_cursor 1 (Some (DEFAULT_PATH, 0))))
          FINISHED (mk_cursor 0 (Some (URI_STR, n))) (raised c) (S (live_blocks c))).
Proof.
  intros input n Hne Hhc Hhs Hhq Hport Hd Hlen.
  assert (Hmax : Z.shiftr SIZE_MAX 1 <= SIZE_MAX) by (vm_compute; discriminate).
  assert (Hs : ~ In "/"%char input).
  { intros H. apply in_app_or in H. destruct H as [H|H]; [auto|].
    revert H. apply port_text_has_no; auto. discriminate. }
  assert (Hq : ~ In "?"%char input).
  { intros H. apply in_app_or in H. destruct H as [H|H]; [auto|].
    revert H. apply port_text_has_no; auto. discriminate. }
  assert (Hne' : input <> []).
  { unfold input. destruct host; [contradiction|discriminate]. }
  rewrite aws_uri_init_parse_unfold.
  rewrite s_parser_loop_step by (cbn; lia).
  change (state (parser_start input c)) with ON_SCHEME. cbn [s_states].
  assert (Hscheme : s_parse_scheme beyond (parser_start input c) =
                    set_state ON_AUTHORITY (parser_start input c)).
  { destruct port_digits as [[|x d]|] eqn:Hpd.
    - contradiction Hd; reflexivity.
    - apply (s_parse_scheme_colon input _ host (x :: d)); auto.
      cbn [hd]. intros ->.
      unfold port_text_ok, port_digits_ok in Hport. cbn in Hport. discriminate.
    - apply (s_parse_scheme_no_colon input); auto.
      unfold input. cbn [port_text]. rewrite app_nil_r. assumption. }
  rewrite Hscheme.
  match goal with |- context [s_parser_loop beyond 3 ?X] => set (c1 := X) end.
  rewrite s_parser_loop_step by (cbn; lia).
  change (state c1) with ON_AUTHORITY. cbn [s_states].
  rewrite (s_parse_authority_bare beyond input c1 [] input);
    [|reflexivity|reflexivity|assumption|reflexivity|assumption|assumption|assumption].
  match goal with |- context [s_parse_authority_port beyond ?X] => set (c2 := X) end.
  rewrite (s_parse_authority_port_ok input c2 [] host port_digits []);
    [|reflexivity|unfold input; list_eq|reflexivity|assumption|assumption|assumption
     |fold n; lia].
  rewrite s_parser_loop_done by (cbn; lia).
  subst c2 c1. ctx_fields. ctx_norm.
  subst n. rec_eq; len_eq.
Qed.


Lemma s_parse_scheme_trailing_colon input c pre :
  mem_of c = input ->
  input = pre ++ [":"%char] ->
  str c = mk_cursor (Z.of_nat (length input)) (Some (URI_STR, 0)) ->
  ~ In ":"%char pre ->
  beyond = "/"%char ->
  Z.of_nat (length input) <= Z.shiftr SIZE_MAX 1 ->
  s_parse_scheme beyond c =
  set_state ERROR
    (uri_raise_error AWS_ERROR_MALFORMED_INPUT_STRING
       (set_str (mk_cursor 1 (Some (URI_STR, Z.of_nat (length pre))))
          (set_uri (set_scheme (mk_cursor (Z.of_nat (length pre)) (Some (URI_STR, 0)))
                      (uri c)) c))).
Proof.
  intros Hmem Hin Hstr Hno Hb Hlen. unfold s_parse_scheme. rewrite Hmem, Hstr.
  cbn [cur_ptr cur_len].
  assert (Hn : Z.of_nat (length input) = Z.of_nat (length pre) + 1).
  { rewrite Hin. len_eq. }
  rewrite (memchr_at input beyond ":"%char [] pre [] 0) by (auto; lia).
  cbn [is_null ptr_diff ptr_add deref].
  rewrite Z.add_0_l, Z.sub_0_r.
  replace (Z.of_nat (length pre) + 1) with (Z.of_nat (length input)) by lia.
  rewrite load_end. rewrite Hb at 1. cbn [Ascii.eqb negb]. rewrite andb_false_r.
  rewrite advance_exact by (cbn [cur_len]; lia).
  cbn [cur_len cur_ptr ptr_add str set_str set_uri deref].
  destruct (_ <? 3) eqn:E; [|apply Z.ltb_ge in E; lia].
  cbn [orb].
  unfold set_state, uri_raise_error, set_raised, set_str, set_uri. ctx_simpl.
  rec_eq.
Qed.

(** For [host:] (the first colon is the last byte), [s_parse_scheme] reads
    the byte after the copy: when that byte is a slash the parse fails, and
    otherwise it succeeds with port 0. *)
Theorem trailing_colon_is_decided_by_the_byte_after_the_copy
    (host : list ascii) (c : parse_ctx) :
  let input := host ++ [":"%char] in
  let n := Z.of_nat (length input) in
  ~ In ":"%char host -> ~ In "/"%char host -> ~ In "?"%char host ->
  n <= Z.shiftr SIZE_MAX 1 ->
  aws_uri_init_parse beyond true input c =
  if Ascii.eqb beyond "/"%char then
    Some (AWS_OP_ERR,
          mk_ctx zero_uri ERROR (mk_cursor 1 (Some (URI_STR, Z.of_nat (length host))))
            AWS_ERROR_MALFORMED_INPUT_STRING (live_blocks c))
  else
    Some (AWS_OP_SUCCESS,
          mk_ctx
            (mk_uri sizeof_aws_uri true (mk_buf n (Some input) n true)
               zero_cursor
               (mk_cursor n (Some (URI_STR, 0)))
               (mk_cursor (Z.of_nat (length host)) (Some (URI_STR, 0)))
               0
               (mk_cursor 1 (Some (DEFAULT_PATH, 0)))
               zero_cursor
               (mk_cursor 1 (Some (DEFAULT_PATH, 0))))
            FINISHED (mk_cursor 0 (Some (URI_STR, n))) (raised c) (S (live_blocks c))).
Proof.
  intros input n Hhc Hhs Hhq Hlen.
  assert (Hmax : Z.shiftr SIZE_MAX 1 <= SIZE_MAX) by (vm_compute; discriminate).
  rewrite aws_uri_init_parse_unfold.
  rewrite s_parser_loop_step by (cbn; lia).
  change (state (parser_start input c)) with ON_SCHEME. cbn [s_states].
  destruct (Ascii.eqb beyond "/"%char) eqn:Hb.
  - apply Ascii.eqb_eq in Hb.
    rewrite (s_parse_scheme_trailing_colon input _ host) by auto.
    rewrite s_parser_loop_done by (cbn; lia).
    cbn [state set_state].
    ctx_norm. reflexivity.
  - assert (Hscheme : s_parse_scheme beyond (parser_start input c) =
                      set_state ON_AUTHORITY (parser_start input c)).
    { apply (s_parse_scheme_colon input _ host []); auto.
      cbn [hd]. intros E. rewrite E in Hb. discriminate. }
    rewrite Hscheme.
    assert (Hs : ~ In "/"%char input).
    { intros H. apply in_app_or in H. destruct H as [H|[H|[]]]; [auto|discriminate]. }
    assert (Hq : ~ In "?"%char input).
    { intros H. apply in_app_or in H. destruct H as [H|[H|[]]]; [auto|discriminate]. }
    match goal with |- context [s_parser_loop beyond 3 ?X] => set (c1 := X) end.
    rewrite s_parser_loop_step by (cbn; lia).
    change (state c1) with ON_AUTHORITY. cbn [s_states].
    rewrite (s_parse_authority_bare beyond input c1 [] input);
      [|reflexivity|reflexivity| |reflexivity|assumption|assumption|assumption].
    2:{ unfold input. destruct host; discriminate. }
    match goal with |- context [s_parse_authority_port beyond ?X] => set (c2 := X) end.
    rewrite (s_parse_authority_port_ok input c2 [] host (Some []) []);
      [|reflexivity|unfold input; cbn [port_text]; list_eq|reflexivity| |assumption
       |reflexivity|fold n; lia].
    2:{ cbn [port_text]. destruct host; discriminate. }
    rewrite s_parser_loop_done by (cbn; lia).
    subst c2 c1. ctx_fields. ctx_norm.
    subst n. rec_eq; len_eq.
Qed.


Lemma s_parse_authority_port_bad input c pre host d post :
  mem_of c = input ->
  input = pre ++ (host ++ ":"%char :: d) ++ post ->
  authority (uri c) =
    mk_cursor (Z.of_nat (length (host ++ ":"%char :: d)))
      (Some (URI_STR, Z.of_nat (length pre))) ->
  ~ In ":"%char host ->
  port_digits_ok d = false ->
  Z.of_nat (length input) <= SIZE_MAX ->
  s_parse_authority_port beyond c =
  uri_raise_error AWS_ERROR_MALFORMED_INPUT_STRING
    (set_state ERROR
       (set_uri (set_host_name (mk_cursor (Z.of_nat (length host))
                                  (Some (URI_STR, Z.of_nat (length pre))))
                   (uri c)) c)).
Proof.
  intros Hmem Hin Hau Hh Hbad Hlen.
  rewrite (s_parse_authority_port_some beyond input c pre host d post) by assumption.
  cbv zeta. unfold port_digits_ok in Hbad.
  destruct (forallb isdigit d); cbn [negb]; [|reflexivity].
  destruct (_ >? 5) eqn:E; [reflexivity|].
  destruct (_ >? UINT16_MAX) eqn:E'; [reflexivity|].
  exfalso. rewrite Z.gtb_ltb in E, E'. apply Z.ltb_ge in E, E'.
  apply Z.leb_le in E, E'. rewrite E, E' in Hbad. discriminate.
Qed.

(** In [scheme://host:port/...], a port that is not made of digits, or has
    more than five of them, or is above 65535, fails the parse: the struct
    is zeroed (the scheme, authority and host name assigned before are
    gone), the copy is released and [AWS_ERROR_MALFORMED_INPUT_STRING] is
    raised. *)
Theorem a_port_that_fails_its_tests_fails_the_parse
    (sch host d p : list ascii) (query : option (list ascii)) (c : parse_ctx) :
  let input := uri_text sch host (Some d) ("/"%char :: p) query in
  ~ In ":"%char sch ->
  ~ In ":"%char host -> ~ In "/"%char host ->
  ~ In "/"%char d ->
  port_digits_ok d = false ->
  Z.of_nat (length input) <= Z.shiftr SIZE_MAX 1 ->
  aws_uri_init_parse beyond true input c =
  Some (AWS_OP_ERR,
        mk_ctx zero_uri ERROR
          (mk_cursor (1 + Z.of_nat (length (p ++ query_text query)))
             (Some (URI_STR, Z.of_nat (length sch) + 3 +
                             Z.of_nat (length (host ++ ":"%char :: d)))))
          AWS_ERROR_MALFORMED_INPUT_STRING (live_blocks c)).
Proof.
  intros input Hsch Hhc Hhs Hds Hbad Hlen.
  assert (Hmax : Z.shiftr SIZE_MAX 1 <= SIZE_MAX) by (vm_compute; discriminate).
  assert (Hin : input = (sch ++ [":"%char; "/"%char; "/"%char]) ++
                        (host ++ ":"%char :: d) ++
                        "/"%char :: p ++ query_text query).
  { unfold input, uri_text. cbn [port_text]. list_eq. }
  assert (Hpt : ~ In "/"%char (host ++ ":"%char :: d)).
  { intros H. apply in_app_or in H. destruct H as [H|[H|H]]; [auto|discriminate|auto]. }
  rewrite aws_uri_init_parse_unfold.
  rewrite s_parser_loop_step by (cbn; lia).
  change (state (parser_start input c)) with ON_SCHEME. cbn [s_states].
  erewrite (s_parse_scheme_found beyond input _ sch
              ((host ++ ":"%char :: d) ++ ("/"%char :: p) ++ query_text query));
    [|reflexivity|reflexivity|reflexivity|assumption|assumption].
  match goal with |- context [s_parser_loop beyond 3 ?X] => set (c1 := X) end.
  rewrite s_parser_loop_step by (cbn; lia).
  change (state c1) with ON_AUTHORITY. cbn [s_states].
  rewrite (s_parse_authority_slash beyond input c1
             (sch ++ [":"%char; "/"%char; "/"%char]) (host ++ ":"%char :: d)
             (p ++ query_text query));
    [|reflexivity|assumption| |assumption|assumption].
  2:{ subst c1. cbn [str set_state set_str]. rec_eq; len_eq. }
  match goal with |- context [s_parse_authority_port beyond ?X] => set (c2 := X) end.
  rewrite (s_parse_authority_port_bad input c2
             (sch ++ [":"%char; "/"%char; "/"%char]) host d
             ("/"%char :: p ++ query_text query));
    [|reflexivity|assumption|reflexivity|assumption|assumption|lia].
  rewrite s_parser_loop_done by (cbn; lia).
  subst c2 c1. ctx_fields. ctx_norm.
  rec_eq; len_eq.
Qed.

End UriShapes.

Section UriRaises.
Context {K : build_constants}.
Variable beyond : ascii.

Lemma s_parse_authority_port_raises c :
  (state (s_parse_authority_port beyond c) = state c /\
   raised (s_parse_authority_port beyond c) = raised c) \/
  (state (s_parse_authority_port beyond c) = ERROR /\
   raised (s_parse_authority_port beyond c) = AWS_ERROR_MALFORMED_INPUT_STRING).
Proof.
  unfold s_parse_authority_port.
  repeat match goal with
  | |- context [if ?b then _ else _] => destruct b
  end; cbn; auto.
Qed.

Lemma s_parse_scheme_raises c : quiet_or_malformed c (s_parse_scheme beyond c).
Proof.
  unfold quiet_or_malformed, s_parse_scheme.
  destruct (is_null _); [left; cbn; split; [discriminate|reflexivity]|].
  destruct (_ && _); [left; cbn; split; [discriminate|reflexivity]|].
  destruct (aws_byte_cursor_advance _ _) as [? ?]. cbn.
  destruct (_ || _); [right; cbn; auto|].
  destruct (aws_byte_cursor_advance _ _) as [? ?]. left. cbn.
  split; [discriminate|reflexivity].
Qed.

Lemma s_parse_authority_raises c : quiet_or_malformed c (s_parse_authority beyond c).
Proof.
  unfold quiet_or_malformed, s_parse_authority.
  destruct (is_null (memchr _ _ _ "/"%char _)) eqn:Hslash;
    destruct (is_null (memchr _ _ _ "?"%char _)) eqn:Hqmark;
    destruct (nonzero (cur_len (str c))) eqn:Hlen;
    cbn [andb negb];
    repeat match goal with
    | |- context [aws_byte_cursor_advance ?x ?n] =>
        destruct (aws_byte_cursor_advance x n) as [? ?]
    end;
    match goal with
    | |- context [s_parse_authority_port beyond ?x] =>
        destruct (s_parse_authority_port_raises x) as [[Hs Hr]|[Hs Hr]];
        rewrite Hs, Hr; cbn; auto;
        left; split; [discriminate|reflexivity]
    | _ => right; cbn; auto
    end.
Qed.

(** [s_parse_path] never fails: its error branch asks for a question mark
    found in an empty string. *)
Lemma s_parse_path_never_fails c :
  (state (s_parse_path beyond c) = FINISHED \/
   state (s_parse_path beyond c) = ON_QUERY_STRING) /\
  raised (s_parse_path beyond c) = raised c.
Proof.
  unfold s_parse_path. cbn [str set_uri uri].
  destruct (memchr _ _ _ _ _) as [p|] eqn:Hm; cbn [is_null].
  - assert (Hnz : nonzero (cur_len (str c)) = true).
    { unfold memchr in Hm. destruct (cur_ptr (str c)) as [[r off]|]; [|discriminate].
      unfold nonzero. destruct (cur_len (str c)); cbn in Hm |- *; auto; discriminate. }
    rewrite Hnz. cbn [negb].
    destruct (aws_byte_cursor_advance _ _) as [? ?]. cbn. auto.
  - destruct (aws_byte_cursor_advance _ _) as [? ?]. cbn. auto.
Qed.

Lemma s_parse_query_string_raises c :
  state (s_parse_query_string c) = FINISHED /\
  raised (s_parse_query_string c) = raised c.
Proof.
  unfold s_parse_query_string.
  destruct (is_null _); destruct (nonzero _);
    destruct (aws_byte_cursor_advance _ _) as [? ?]; cbn; auto.
Qed.

Lemma s_states_raises c :
  state_rank (state c) < state_rank FINISHED ->
  quiet_or_malformed c (s_states beyond (state c) c).
Proof.
  intros Hlive. destruct (state c) eqn:Hst; cbn [s_states]; cbn in Hlive; try lia.
  - apply s_parse_scheme_raises.
  - apply s_parse_authority_raises.
  - destruct (s_parse_path_never_fails c) as [[H|H] Hr]; left; rewrite H, Hr;
      split; [discriminate|reflexivity|discriminate|reflexivity].
  - destruct (s_parse_query_string_raises c) as [H Hr]. left. rewrite H, Hr.
    split; [discriminate|reflexivity].
Qed.

Lemma s_parser_loop_raises fuel : forall c c',
  state c <> ERROR ->
  s_parser_loop beyond fuel c = Some c' ->
  quiet_or_malformed c c'.
Proof.
  induction fuel as [|fuel IH]; intros c c' Hne H; cbn [s_parser_loop] in H;
    destruct (_ <? _) eqn:Hlt; try discriminate.
  - inversion H; subst. left. auto.
  - apply Z.ltb_lt in Hlt.
    destruct (s_states_raises c Hlt) as [[Hs Hr]|[Hs Hr]].
    + destruct (IH _ _ Hs H) as [[Hs' Hr']|[Hs' Hr']]; [left|right]; split; congruence.
    + rewrite (s_parser_loop_done beyond fuel (s_states beyond (state c) c)) in H
        by (rewrite Hs; cbn; lia).
      inversion H; subst. right. auto.
  - inversion H; subst. left. auto.
Qed.

(** Once the copy is made, [aws_uri_init_parse] returns [AWS_OP_SUCCESS]
    having raised no error, or [AWS_OP_ERR] having raised
    [AWS_ERROR_MALFORMED_INPUT_STRING]; [s_parse_path] and
    [s_parse_query_string] never fail. *)
Theorem a_failed_parse_has_raised_malformed_input (input : list ascii) (c : parse_ctx) :
  exists rc c',
    aws_uri_init_parse beyond true input c = Some (rc, c') /\
    ((rc = AWS_OP_SUCCESS /\ raised c' = raised c) \/
     (rc = AWS_OP_ERR /\ raised c' = AWS_ERROR_MALFORMED_INPUT_STRING)).
Proof.
  rewrite aws_uri_init_parse_unfold.
  destruct (aws_uri_init_parse_runs beyond input c) as (c1 & Hrun & I & Hl & Hs).
  rewrite Hrun.
  assert (Hne : state (parser_start input c) <> ERROR) by (cbn; discriminate).
  pose proof (s_parser_loop_raises 4 _ _ Hne Hrun) as Hq.
  destruct Hs as [Hs|Hs]; rewrite Hs.
  - exists AWS_OP_SUCCESS, c1. split; [reflexivity|]. left.
    destruct Hq as [[_ Hr]|[Hs' _]]; [auto|congruence].
  - eexists _, _. split; [reflexivity|]. right.
    destruct Hq as [[Hs' _]|[_ Hr]]; [congruence|]. split; [reflexivity|].
    cbn. unfold aws_byte_buf_clean_up.
    destruct (_ && _); cbn; exact Hr.
Qed.

End UriRaises.

Section UriMoreShapes.
Context {K : build_constants}.
Variable beyond : ascii.

Lemma s_parse_authority_qmark input c pre a q :
  mem_of c = input ->
  input = pre ++ a ++ "?"%char :: q ->
  str c = mk_cursor (Z.of_nat (length a) + 1 + Z.of_nat (length q))
            (Some (URI_STR, Z.of_nat (length pre))) ->
  ~ In "/"%char a -> ~ In "/"%char q -> ~ In "?"%char a ->
  Z.of_nat (length input) <= Z.shiftr SIZE_MAX 1 ->
  s_parse_authority beyond c =
  s_parse_authority_port beyond
    (set_str (mk_cursor (1 + Z.of_nat (length q))
                (Some (URI_STR, Z.of_nat (length pre) + Z.of_nat (length a))))
       (set_uri (set_authority (mk_cursor (Z.of_nat (length a))
                                  (Some (URI_STR, Z.of_nat (length pre))))
                   (uri c))
          (set_state ON_QUERY_STRING c))).
Proof.
  intros Hmem Hin Hstr Ha Hq Haq Hlen. unfold s_parse_authority. rewrite Hmem, Hstr.
  cbn [cur_ptr cur_len].
  assert (Hn : Z.of_nat (length input) =
               Z.of_nat (length pre) + Z.of_nat (length a) + 1 + Z.of_nat (length q)).
  { rewrite Hin. len_eq. }
  rewrite (memchr_absent input beyond "/"%char pre (a ++ "?"%char :: q) []).
  2:{ rewrite Hin. list_eq. }
  2:{ reflexivity. }
  2:{ intros H. apply in_app_or in H. destruct H as [H|[H|H]]; [auto|discriminate|auto]. }
  2:{ len_eq. }
  rewrite (memchr_at input beyond "?"%char pre a q) by (auto; lia).
  cbn [is_null andb negb].
  destruct (nonzero _) eqn:Hnz;
    [|unfold nonzero in Hnz; apply negb_false_iff, Z.eqb_eq in Hnz; lia].
  cbn [negb str set_state]. rewrite Hstr. cbn [cur_ptr cur_len ptr_diff].
  replace (Z.of_nat (length pre) + Z.of_nat (length a) - Z.of_nat (length pre))
    with (Z.of_nat (length a)) by lia.
  rewrite advance_exact by (cbn [cur_len]; lia).
  cbn [cur_len cur_ptr ptr_add].
  f_equal. unfold set_state, set_str, set_uri. ctx_simpl.
  rec_eq.
Qed.

(** A uri [scheme://host[:port]?query] with no path: the path stays empty
    and NULL, the query is what follows the question mark, and
    [path_and_query] starts at the question mark and includes it. *)
Theorem parse_of_a_uri_without_path
    (sch host : list ascii) (port_digits : option (list ascii))
    (q : list ascii) (c : parse_ctx) :
  let input := uri_text sch host port_digits [] (Some q) in
  let n := Z.of_nat (length input) in
  let a := Z.of_nat (length sch) + 3 in
  let al := Z.of_nat (length (host ++ port_text port_digits)) in
  ~ In ":"%char sch ->
  host <> [] ->
  ~ In ":"%char host -> ~ In "/"%char host -> ~ In "?"%char host ->
  port_text_ok port_digits = true ->
  ~ In "/"%char q ->
  n <= Z.shiftr SIZE_MAX 1 ->
  aws_uri_init_parse beyond true input c =
  Some (AWS_OP_SUCCESS,
        mk_ctx
          (mk_uri sizeof_aws_uri true (mk_buf n (Some input) n true)
             (mk_cursor (Z.of_nat (length sch)) (Some (URI_STR, 0)))
             (mk_cursor al (Some (URI_STR, a)))
             (mk_cursor (Z.of_nat (length host)) (Some (URI_STR, a)))
             (match port_digits with Some d => atoi_digits 0 d | None => 0 end)
             zero_cursor
             (mk_cursor (Z.of_nat (length q)) (Some (URI_STR, a + al + 1)))
             (mk_cursor (1 + Z.of_nat (length q)) (Some (URI_STR, a + al))))
          FINISHED (mk_cursor 0 (Some (URI_STR, n))) (raised c) (S (live_blocks c))).
Proof.
  intros input n a al Hsch Hne Hhc Hhs Hhq Hport Hq Hlen.
  assert (Hmax : Z.shiftr SIZE_MAX 1 <= SIZE_MAX) by (vm_compute; discriminate).
  assert (Hin : input = (sch ++ [":"%char; "/"%char; "/"%char]) ++
                        (host ++ port_text port_digits) ++ "?"%char :: q).
  { unfold input, uri_text. cbn [app query_text]. list_eq. }
  assert (Hps : ~ In "/"%char (host ++ port_text port_digits)).
  { intros H. apply in_app_or in H. destruct H as [H|H]; [auto|].
    revert H. apply port_text_has_no; auto. discriminate. }
  assert (Hpq : ~ In "?"%char (host ++ port_text port_digits)).
  { intros H. apply in_app_or in H. destruct H as [H|H]; [auto|].
    revert H. apply port_text_has_no; auto. discriminate. }
  assert (Hn : Z.of_nat (length input) = a + al + 1 + Z.of_nat (length q)).
  { rewrite Hin. subst a al. len_eq. }
  rewrite aws_uri_init_parse_unfold.
  rewrite s_parser_loop_step by (cbn; lia).
  change (state (parser_start input c)) with ON_SCHEME. cbn [s_states].
  erewrite (s_parse_scheme_found beyond input _ sch
              ((host ++ port_text port_digits) ++ [] ++ "?"%char :: q));
    [|reflexivity|reflexivity|reflexivity|assumption|assumption].
  match goal with |- context [s_parser_loop beyond 3 ?X] => set (c1 := X) end.
  rewrite s_parser_loop_step by (cbn; lia).
  change (state c1) with ON_AUTHORITY. cbn [s_states].
  rewrite (s_parse_authority_qmark input c1
             (sch ++ [":"%char; "/"%char; "/"%char]) (host ++ port_text port_digits) q);
    [|reflexivity|assumption| |assumption|assumption|assumption|assumption].
  2:{ subst c1. cbn [str set_state set_str]. rec_eq; len_eq. }
  match goal with |- context [s_parse_authority_port beyond ?X] => set (c2 := X) end.
  rewrite (s_parse_authority_port_ok beyond input c2
             (sch ++ [":"%char; "/"%char; "/"%char]) host port_digits
             ("?"%char :: q));
    [|reflexivity|assumption|reflexivity| |assumption|assumption|fold n; lia].
  2:{ destruct host; [contradiction|discriminate]. }
  match goal with |- context [s_parser_loop beyond 2 ?X] => set (c3 := X) end.
  rewrite s_parser_loop_step by (cbn; lia).
  change (state c3) with ON_QUERY_STRING. cbn [s_states].
  erewrite (s_parse_query_string_run c3 _ q); [|reflexivity|lia].
  rewrite s_parser_loop_done by (cbn; lia).
  cbv zeta. subst c3 c2 c1. ctx_fields. ctx_norm.
  subst n a al. rec_eq; len_eq.
Qed.

(** A uri [scheme://host[:port]] with nothing after the authority: the path
    and [path_and_query] are the literal [s_default_path], outside the
    copy. *)
Theorem parse_of_a_scheme_and_host
    (sch host : list ascii) (port_digits : option (list ascii)) (c : parse_ctx) :
  let input := uri_text sch host port_digits [] None in
  let n := Z.of_nat (length input) in
  let a := Z.of_nat (length sch) + 3 in
  ~ In ":"%char sch ->
  host <> [] ->
  ~ In ":"%char host -> ~ In "/"%char host -> ~ In "?"%char host ->
  port_text_ok port_digits = true ->
  n <= Z.shiftr SIZE_MAX 1 ->
  aws_uri_init_parse beyond true input c =
  Some (AWS_OP_SUCCESS,
        mk_ctx
          (mk_uri sizeof_aws_uri true (mk_buf n (Some input) n true)
             (mk_cursor (Z.of_nat (length sch)) (Some (URI_STR, 0)))
             (mk_cursor (n - a) (Some (URI_STR, a)))
             (mk_cursor (Z.of_nat (length host)) (Some (URI_STR, a)))
             (match port_digits with Some d => atoi_digits 0 d | None => 0 end)
             (mk_cursor 1 (Some (DEFAULT_PATH, 0)))
             zero_cursor
             (mk_cursor 1 (Some (DEFAULT_PATH, 0))))
          FINISHED (mk_cursor 0 (Some (URI_STR, n))) (raised c) (S (live_blocks c))).
Proof.
  intros input n a Hsch Hne Hhc Hhs Hhq Hport Hlen.
  assert (Hmax : Z.shiftr SIZE_MAX 1 <= SIZE_MAX) by (vm_compute; discriminate).
  assert (Hin : input = (sch ++ [":"%char; "/"%char; "/"%char]) ++
                        (host ++ port_text port_digits)).
  { unfold input, uri_text. cbn [app query_text]. rewrite app_nil_r. list_eq. }
  assert (Hps : ~ In "/"%char (host ++ port_text port_digits)).
  { intros H. apply in_app_or in H. destruct H as [H|H]; [auto|].
    revert H. apply port_text_has_no; auto. discriminate. }
  assert (Hpq : ~ In "?"%char (host ++ port_text port_digits)).
  { intros H. apply in_app_or in H. destruct H as [H|H]; [auto|].
    revert H. apply port_text_has_no; auto. discriminate. }
  assert (Hn : Z.of_nat (length input) =
               a + Z.of_nat (length (host ++ port_text port_digits))).
  { rewrite Hin. subst a. len_eq. }
  rewrite aws_uri_init_parse_unfold.
  rewrite s_parser_loop_step by (cbn; lia).
  change (state (parser_start input c)) with ON_SCHEME. cbn [s_states].
  erewrite (s_parse_scheme_found beyond input _ sch (host ++ port_text port_digits)).
  2:{ reflexivity. }
  2:{ unfold input, uri_text. cbn [app query_text]. rewrite app_nil_r. reflexivity. }
  2:{ reflexivity. }
  2:{ assumption. }
  2:{ assumption. }
  match goal with |- context [s_parser_loop beyond 3 ?X] => set (c1 := X) end.
  rewrite s_parser_loop_step by (cbn; lia).
  change (state c1) with ON_AUTHORITY. cbn [s_states].
  rewrite (s_parse_authority_bare beyond input c1
             (sch ++ [":"%char; "/"%char; "/"%char]) (host ++ port_text port_digits));
    [|reflexivity|assumption| | |assumption|assumption|assumption].
  2:{ destruct host; [contradiction|discriminate]. }
  2:{ subst c1. cbn [str set_state set_str]. rec_eq; len_eq. }
  match goal with |- context [s_parse_authority_port beyond ?X] => set (c2 := X) end.
  rewrite (s_parse_authority_port_ok beyond input c2
             (sch ++ [":"%char; "/"%char; "/"%char]) host port_digits []);
    [|reflexivity|rewrite Hin; list_eq|reflexivity| |assumption|assumption|fold n; lia].
  2:{ destruct host; [contradiction|discriminate]. }
  rewrite s_parser_loop_done by (cbn; lia).
  subst c2 c1. ctx_fields. ctx_norm.
  subst n a. rec_eq; len_eq.
Qed.


Lemma s_parse_authority_empty c :
  cur_len (str c) = 0 ->
  s_parse_authority beyond c =
  uri_raise_error AWS_ERROR_MALFORMED_INPUT_STRING (set_state ERROR c).
Proof.
  intros Hlen. unfold s_parse_authority. rewrite Hlen.
  change (nonzero 0) with false. rewrite !andb_false_r. reflexivity.
Qed.

(** The empty string, and a scheme with ["://"] and nothing after it, fail
    to parse: [s_parse_authority] finds the string empty. *)
Theorem parse_fails_where_nothing_follows_the_scheme
    (scheme_part : option (list ascii)) (c : parse_ctx) :
  let input :=
    match scheme_part with
    | Some sch => sch ++ [":"%char; "/"%char; "/"%char]
    | None => []
    end in
  let n := Z.of_nat (length input) in
  match scheme_part with Some sch => ~ In ":"%char sch | None => True end ->
  n <= Z.shiftr SIZE_MAX 1 ->
  aws_uri_init_parse beyond true input c =
  Some (AWS_OP_ERR,
        mk_ctx zero_uri ERROR (mk_cursor 0 (Some (URI_STR, n)))
          AWS_ERROR_MALFORMED_INPUT_STRING (live_blocks c)).
Proof.
  intros input n Hsch Hlen.
  rewrite aws_uri_init_parse_unfold.
  rewrite s_parser_loop_step by (cbn; lia).
  change (state (parser_start input c)) with ON_SCHEME. cbn [s_states].
  destruct scheme_part as [sch|].
  - erewrite (s_parse_scheme_found beyond input _ sch []);
      [|reflexivity|reflexivity|reflexivity|assumption|assumption].
    match goal with |- context [s_parser_loop beyond 3 ?X] => set (c1 := X) end.
    rewrite s_parser_loop_step by (cbn; lia).
    change (state c1) with ON_AUTHORITY. cbn [s_states].
    rewrite s_parse_authority_empty by reflexivity.
    rewrite s_parser_loop_done by (cbn; lia).
    subst c1. ctx_fields. ctx_norm. subst n input. rec_eq; len_eq.
  - rewrite (s_parse_scheme_no_colon beyond input) by (auto; reflexivity).
    match goal with |- context [s_parser_loop beyond 3 ?X] => set (c1 := X) end.
    rewrite s_parser_loop_step by (cbn; lia).
    change (state c1) with ON_AUTHORITY. cbn [s_states].
    rewrite s_parse_authority_empty by reflexivity.
    rewrite s_parser_loop_done by (cbn; lia).
    subst c1. ctx_fields. ctx_norm. reflexivity.
Qed.

Lemma s_parse_scheme_single_slash input c pre rest :
  mem_of c = input ->
  input = pre ++ ":"%char :: "/"%char :: rest ->
  str c = mk_cursor (Z.of_nat (length input)) (Some (URI_STR, 0)) ->
  ~ In ":"%char pre ->
  (forall r, rest <> "/"%char :: r) ->
  Z.of_nat (length input) <= Z.shiftr SIZE_MAX 1 ->
  s_parse_scheme beyond c =
  set_state ERROR
    (uri_raise_error AWS_ERROR_MALFORMED_INPUT_STRING
       (set_str (mk_cursor (2 + Z.of_nat (length rest))
                   (Some (URI_STR, Z.of_nat (length pre))))
          (set_uri (set_scheme (mk_cursor (Z.of_nat (length pre)) (Some (URI_STR, 0)))
                      (uri c)) c))).
Proof.
  intros Hmem Hin Hstr Hno Hrest Hlen. unfold s_parse_scheme. rewrite Hmem, Hstr.
  cbn [cur_ptr cur_len].
  assert (Hn : Z.of_nat (length input) = Z.of_nat (length pre) + 2 + Z.of_nat (length rest)).
  { rewrite Hin. len_eq. }
  rewrite (memchr_at input beyond ":"%char [] pre ("/"%char :: rest) 0) by (auto; lia).
  cbn [is_null ptr_diff ptr_add deref].
  rewrite (load_at input beyond (pre ++ [":"%char]) "/"%char rest)
    by (try len_eq; rewrite Hin; list_eq).
  cbn [Ascii.eqb Bool.eqb negb andb]. rewrite andb_false_r.
  rewrite Z.add_0_l, Z.sub_0_r.
  rewrite advance_exact by (cbn [cur_len]; lia).
  cbn [cur_len cur_ptr ptr_add str set_str set_uri deref].
  rewrite ?Z.add_0_l.
  assert (Hcond :
    (Z.of_nat (length input) - Z.of_nat (length pre) <? 3)
    || negb (Ascii.eqb (load input beyond URI_STR (Z.of_nat (length pre) + 0)) ":"%char)
    || negb (Ascii.eqb (load input beyond URI_STR (Z.of_nat (length pre) + 1)) "/"%char)
    || negb (Ascii.eqb (load input beyond URI_STR (Z.of_nat (length pre) + 2)) "/"%char)
    = true).
  { destruct rest as [|x rest].
    - destruct (_ <? 3) eqn:E; [reflexivity|]. apply Z.ltb_ge in E. cbn in Hn. lia.
    - rewrite (load_at input beyond (pre ++ [":"%char; "/"%char]) x rest
                 (Z.of_nat (length pre) + 2))
        by (try len_eq; rewrite Hin; list_eq).
      destruct (Ascii.eqb x "/"%char) eqn:E.
      + apply Ascii.eqb_eq in E. subst x. exfalso. apply (Hrest rest). reflexivity.
      + cbn [negb]. rewrite !orb_true_r. reflexivity. }
  rewrite Hcond.
  unfold set_state, uri_raise_error, set_raised, set_str, set_uri. ctx_simpl.
  rec_eq.
Qed.

(** Where the first colon of the input is followed by one slash and no
    second one, the parse fails, wherever the colon is: [host:/path] and
    [host/a:/b] are not parsed as a host with a path. *)
Theorem parse_fails_where_one_slash_follows_the_first_colon
    (pre rest : list ascii) (c : parse_ctx) :
  let input := pre ++ ":"%char :: "/"%char :: rest in
  ~ In ":"%char pre ->
  (forall r, rest <> "/"%char :: r) ->
  Z.of_nat (length input) <= Z.shiftr SIZE_MAX 1 ->
  aws_uri_init_parse beyond true input c =
  Some (AWS_OP_ERR,
        mk_ctx zero_uri ERROR
          (mk_cursor (2 + Z.of_nat (length rest)) (Some (URI_STR, Z.of_nat (length pre))))
          AWS_ERROR_MALFORMED_INPUT_STRING (live_blocks c)).
Proof.
  intros input Hpre Hrest Hlen.
  rewrite aws_uri_init_parse_unfold.
  rewrite s_parser_loop_step by (cbn; lia).
  change (state (parser_start input c)) with ON_SCHEME. cbn [s_states].
  rewrite (s_parse_scheme_single_slash input _ pre rest) by auto.
  rewrite s_parser_loop_done by (cbn; lia).
  ctx_fields. ctx_norm. reflexivity.
Qed.

End UriMoreShapes.

(* ===================================================================== *)
(** * Part XVII: more of the URI parser, witnesses                        *)
(* ===================================================================== *)

Ltac side_condition :=
  first [ reflexivity
        | vm_compute; discriminate
        | vm_compute; intuition discriminate
        | intros; vm_compute; discriminate ].

(** [https://example.com:443/path?x=1], with nothing and with a slash
    after its copy. *)
Lemma parse_ignores_the_byte_after_the_copy_witness :
  Z.of_nat (length UriSamples.full_uri) <= SIZE_MAX /\
  last UriSamples.full_uri zero <> ":"%char /\
  aws_uri_init_parse (K := release_build) zero true UriSamples.full_uri sample_ctx =
  aws_uri_init_parse (K := release_build) "/"%char true UriSamples.full_uri sample_ctx.
Proof.
  split; [side_condition|]. split; [side_condition|].
  apply (@parse_ignores_the_byte_after_the_copy release_build zero true
           UriSamples.full_uri sample_ctx "/"%char); side_condition.
Defined.

(** [https://example.com:443/path?x=1]. *)
Lemma parse_of_a_full_uri_witness :
  ~ In ":"%char UriParts.https /\
  UriParts.example_com <> [] /\
  ~ In ":"%char UriParts.example_com /\
  ~ In "/"%char UriParts.example_com /\
  port_text_ok (Some UriParts.digits_443) = true /\
  ~ In "?"%char UriParts.path_tail /\
  aws_uri_init_parse (K := release_build) zero true
    (uri_text UriParts.https UriParts.example_com (Some UriParts.digits_443)
       ("/"%char :: UriParts.path_tail) (Some UriParts.x_is_1))
    sample_ctx =
  Some (AWS_OP_SUCCESS,
        mk_ctx
          (mk_uri 184 true (mk_buf 32 (Some UriSamples.full_uri) 32 true)
             (mk_cursor 5 (Some (URI_STR, 0)))
             (mk_cursor 15 (Some (URI_STR, 8)))
             (mk_cursor 11 (Some (URI_STR, 8)))
             443
             (mk_cursor 5 (Some (URI_STR, 23)))
             (mk_cursor 3 (Some (URI_STR, 29)))
             (mk_cursor 9 (Some (URI_STR, 23))))
          FINISHED (mk_cursor 0 (Some (URI_STR, 32))) 0 1%nat).
Proof.
  repeat (split; [side_condition|]).
  apply (@parse_of_a_full_uri release_build zero UriParts.https UriParts.example_com
           (Some UriParts.digits_443) UriParts.path_tail (Some UriParts.x_is_1)
           sample_ctx); side_condition.
Defined.

(** [example.com:443]. *)
Lemma parse_of_a_bare_host_witness :
  UriParts.example_com <> [] /\
  ~ In ":"%char UriParts.example_com /\
  ~ In "/"%char UriParts.example_com /\
  ~ In "?"%char UriParts.example_com /\
  port_text_ok (Some UriParts.digits_443) = true /\
  Some UriParts.digits_443 <> Some [] /\
  aws_uri_init_parse (K := release_build) zero true
    (UriParts.example_com ++ port_text (Some UriParts.digits_443)) sample_ctx =
  Some (AWS_OP_SUCCESS,
        mk_ctx
          (mk_uri 184 true
             (mk_buf 15 (Some (UriParts.example_com ++ port_text (Some UriParts.digits_443)))
                15 true)
             zero_cursor
             (mk_cursor 15 (Some (URI_STR, 0)))
             (mk_cursor 11 (Some (URI_STR, 0)))
             443
             (mk_cursor 1 (Some (DEFAULT_PATH, 0)))
             zero_cursor
             (mk_cursor 1 (Some (DEFAULT_PATH, 0))))
          FINISHED (mk_cursor 0 (Some (URI_STR, 15))) 0 1%nat).
Proof.
  repeat (split; [side_condition|]).
  apply (@parse_of_a_bare_host release_build zero UriParts.example_com
           (Some UriParts.digits_443) sample_ctx); side_condition.
Defined.

(** [example.com:], with a slash after the copy: the parse fails. *)
Lemma trailing_colon_witness :
  ~ In ":"%char UriParts.example_com /\
  ~ In "/"%char UriParts.example_com /\
  ~ In "?"%char UriParts.example_com /\
  aws_uri_init_parse (K := release_build) "/"%char true
    (UriParts.example_com ++ [":"%char]) sample_ctx =
  Some (AWS_OP_ERR,
        mk_ctx zero_uri ERROR (mk_cursor 1 (Some (URI_STR, 11))) 30 0%nat).
Proof.
  repeat (split; [side_condition|]).
  apply (@trailing_colon_is_decided_by_the_byte_after_the_copy release_build "/"%char
           UriParts.example_com sample_ctx); side_condition.
Defined.

(** [https://example.com:70000/path]. *)
Lemma a_port_that_fails_its_tests_witness :
  ~ In ":"%char UriParts.https /\
  ~ In ":"%char UriParts.example_com /\
  ~ In "/"%char UriParts.example_com /\
  ~ In "/"%char UriParts.digits_70000 /\
  port_digits_ok UriParts.digits_70000 = false /\
  aws_uri_init_parse (K := release_build) zero true
    (uri_text UriParts.https UriParts.example_com (Some UriParts.digits_70000)
       ("/"%char :: UriParts.path_tail) None)
    sample_ctx =
  Some (AWS_OP_ERR,
        mk_ctx zero_uri ERROR (mk_cursor 5 (Some (URI_STR, 25))) 30 0%nat).
Proof.
  repeat (split; [side_condition|]).
  apply (@a_port_that_fails_its_tests_fails_the_parse release_build zero
           UriParts.https UriParts.example_com UriParts.digits_70000 UriParts.path_tail
           None sample_ctx); side_condition.
Defined.

(** [https://example.com?x=1]. *)
Lemma parse_of_a_uri_without_path_witness :
  ~ In ":"%char UriParts.https /\
  UriParts.example_com <> [] /\
  ~ In ":"%char UriParts.example_com /\
  ~ In "/"%char UriParts.example_com /\
  ~ In "?"%char UriParts.example_com /\
  ~ In "/"%char UriParts.x_is_1 /\
  aws_uri_init_parse (K := release_build) zero true
    (uri_text UriParts.https UriParts.example_com None [] (Some UriParts.x_is_1))
    sample_ctx =
  Some (AWS_OP_SUCCESS,
        mk_ctx
          (mk_uri 184 true
             (mk_buf 23
                (Some (uri_text UriParts.https UriParts.example_com None []
                         (Some UriParts.x_is_1)))
                23 true)
             (mk_cursor 5 (Some (URI_STR, 0)))
             (mk_cursor 11 (Some (URI_STR, 8)))
             (mk_cursor 11 (Some (URI_STR, 8)))
             0
             zero_cursor
             (mk_cursor 3 (Some (URI_STR, 20)))
             (mk_cursor 4 (Some (URI_STR, 19))))
          FINISHED (mk_cursor 0 (Some (URI_STR, 23))) 0 1%nat).
Proof.
  repeat (split; [side_condition|]).
  apply (@parse_of_a_uri_without_path release_build zero UriParts.https
           UriParts.example_com None UriParts.x_is_1 sample_ctx); side_condition.
Defined.

(** [https://example.com:443]. *)
Lemma parse_of_a_scheme_and_host_witness :
  ~ In ":"%char UriParts.https /\
  UriParts.example_com <> [] /\
  ~ In ":"%char UriParts.example_com /\
  ~ In "/"%char UriParts.example_com /\
  ~ In "?"%char UriParts.example_com /\
  port_text_ok (Some UriParts.digits_443) = true /\
  aws_uri_init_parse (K := release_build) zero true
    (uri_text UriParts.https UriParts.example_com (Some UriParts.digits_443) [] None)
    sample_ctx =
  Some (AWS_OP_SUCCESS,
        mk_ctx
          (mk_uri 184 true
             (mk_buf 23
                (Some (uri_text UriParts.https UriParts.example_com
                         (Some UriParts.digits_443) [] None))
                23 true)
             (mk_cursor 5 (Some (URI_STR, 0)))
             (mk_cursor 15 (Some (URI_STR, 8)))
             (mk_cursor 11 (Some (URI_STR, 8)))
             443
             (mk_cursor 1 (Some (DEFAULT_PATH, 0)))
             zero_cursor
             (mk_cursor 1 (Some (DEFAULT_PATH, 0))))
          FINISHED (mk_cursor 0 (Some (URI_STR, 23))) 0 1%nat).
Proof.
  repeat (split; [side_condition|]).
  apply (@parse_of_a_scheme_and_host release_build zero UriParts.https
           UriParts.example_com (Some UriParts.digits_443) sample_ctx); side_condition.
Defined.

(** [https://]. *)
Lemma parse_fails_where_nothing_follows_the_scheme_witness :
  ~ In ":"%char UriParts.https /\
  aws_uri_init_parse (K := release_build) zero true
    (UriParts.https ++ [":"%char; "/"%char; "/"%char]) sample_ctx =
  Some (AWS_OP_ERR,
        mk_ctx zero_uri ERROR (mk_cursor 0 (Some (URI_STR, 8))) 30 0%nat).
Proof.
  repeat (split; [side_condition|]).
  apply (@parse_fails_where_nothing_follows_the_scheme release_build zero
           (Some UriParts.https) sample_ctx); side_condition.
Defined.

(** [example.com:/path]. *)
Lemma parse_fails_where_one_slash_follows_the_first_colon_witness :
  ~ In ":"%char UriParts.example_com /\
  (forall r, UriParts.path_tail <> "/"%char :: r) /\
  aws_uri_init_parse (K := release_build) zero true
    (UriParts.example_com ++ ":"%char :: "/"%char :: UriParts.path_tail) sample_ctx =
  Some (AWS_OP_ERR,
        mk_ctx zero_uri ERROR (mk_cursor 6 (Some (URI_STR, 11))) 30 0%nat).
Proof.
  repeat (split; [side_condition|]).
  apply (@parse_fails_where_one_slash_follows_the_first_colon release_build zero
           UriParts.example_com UriParts.path_tail sample_ctx); side_condition.
Defined.

(* ===================================================================== *)
(** * Part XVIII: the query parameters, proofs                            *)
(* ===================================================================== *)

Lemma memchr_from_first mem b r ch n : forall off o,
  memchr_from mem b r off ch n = Some (r, o) ->
  forall i, off <= i < o -> load mem b r i <> ch.
Proof.
  induction n as [|n IH]; intros off o H i Hi; cbn [memchr_from] in H; [discriminate|].
  destruct (Ascii.eqb _ _) eqn:He.
  - inversion H; subst. lia.
  - destruct (Z.eq_dec i off) as [->|Hne].
    + apply Ascii.eqb_neq. assumption.
    + apply (IH _ _ H). lia.
Qed.

Lemma memchr_from_none mem b r ch n : forall off,
  memchr_from mem b r off ch n = None ->
  forall i, off <= i < off + Z.of_nat n -> load mem b r i <> ch.
Proof.
  induction n as [|n IH]; intros off H i Hi; [lia|]. cbn [memchr_from] in H.
  destruct (Ascii.eqb _ _) eqn:He; [discriminate|].
  destruct (Z.eq_dec i off) as [->|Hne].
  - apply Ascii.eqb_neq. assumption.
  - apply (IH _ H). lia.
Qed.

Section ParamsProofs.
Context {K : build_constants}.
Variable beyond : ascii.
Variable split : ascii -> list ascii -> aws_byte_cursor -> split_result.

Lemma param_value_splits mem key_val :
  cur_len key_val <= SIZE_MAX ->
  splits_at_first_equals mem beyond key_val (param_value beyond mem key_val).
Proof.
  intros Hmax. unfold splits_at_first_equals, param_value.
  destruct (cur_ptr key_val) as [[r off]|] eqn:Hp.
  2:{ cbn. auto. }
  unfold memchr.
  destruct (memchr_from _ _ _ _ _ _) as [p|] eqn:Hm; cbn [is_null negb].
  - destruct (memchr_from_found _ _ _ _ _ _ _ Hm) as (o & -> & Ho & Hl).
    cbn [Param.key Param.value cur_ptr cur_len ptr_diff ptr_add].
    split; [reflexivity|]. split.
    + intros i Hi. apply (memchr_from_first _ _ _ _ _ _ _ Hm). lia.
    + right.
      assert (Hlen : o < off + cur_len key_val).
      { destruct (cur_len key_val); cbn in Ho; lia. }
      split; [lia|]. split.
      * replace (off + (o - off)) with o by lia. assumption.
      * rewrite (size_sub_exact (cur_len key_val)) by lia.
        rewrite size_sub_exact by lia.
        f_equal. f_equal. f_equal. lia.
  - cbn [Param.key Param.value cur_ptr cur_len].
    split; [reflexivity|]. split; [|left; auto].
    intros i Hi. apply (memchr_from_none _ _ _ _ _ _ Hm). lia.
Qed.

Lemma s_push_params_ok mem key_val_array : forall out_params c,
  (length key_val_array <= room out_params)%nat ->
  s_push_params beyond mem key_val_array out_params c =
  (AWS_OP_SUCCESS,
   mk_array_list (items out_params ++ map (param_value beyond mem) key_val_array)
     (room out_params - length key_val_array) (alloc out_params),
   c).
Proof.
  induction key_val_array as [|kv rest IH]; intros out c Hroom; cbn [s_push_params].
  - cbn [map length]. rewrite app_nil_r, Nat.sub_0_r. destruct out; reflexivity.
  - unfold aws_array_list_push_back. cbn [length] in Hroom.
    destruct (room out) as [|r] eqn:Hr; [lia|].
    change (nonzero AWS_OP_SUCCESS) with false. cbv iota.
    rewrite IH by (cbn [room]; lia).
    cbn [items room alloc map length]. rewrite <- app_assoc. reflexivity.
Qed.

(** The push that finds the list full ends the loop: the error of that
    push is raised, and the list holds what it held and could hold. *)
Lemma s_push_params_full mem key_val_array : forall out_params c,
  (room out_params < length key_val_array)%nat ->
  exists out,
    s_push_params beyond mem key_val_array out_params c =
    (AWS_OP_ERR, out, uri_raise_error (push_back_error out_params) c) /\
    (length (items out) + room out = length (items out_params) + room out_params)%nat /\
    alloc out = alloc out_params.
Proof.
  induction key_val_array as [|kv rest IH]; intros out c Hroom; cbn [s_push_params].
  - cbn in Hroom. lia.
  - unfold aws_array_list_push_back. cbn [length] in Hroom.
    destruct (room out) as [|r] eqn:Hr.
    + change (nonzero AWS_OP_ERR) with true. cbv iota.
      exists out. rewrite Hr. auto.
    + change (nonzero AWS_OP_SUCCESS) with false. cbv iota.
      destruct (IH (mk_array_list (items out ++ [param_value beyond mem kv]) r (alloc out)) c)
        as (out' & Hrun & Hlen & Hal).
      { cbn [room]. lia. }
      exists out'. split; [exact Hrun|].
      cbn [items room alloc] in Hlen, Hal. rewrite length_app in Hlen. cbn [length] in Hlen.
      split; [lia|assumption].
Qed.

(** [aws_uri_query_string_params] touches three things: [out_params], the
    thread's last error, and the block of [key_val_array], which it gives
    back on every path; the uri is left as it is.  With an empty query it
    does nothing.  When [key_val_array] cannot be initialised it fails with
    [AWS_ERROR_OOM] raised and leaves [out_params] as it was.  When the
    split fails, with the error the split has raised, or [out_params] has
    no room for one parameter for each cursor of the split, with the error
    of the push that failed ([AWS_ERROR_LIST_EXCEEDS_MAX_SIZE] for a static
    list), it fails and [out_params] is left cleared, the elements it held
    before the call gone with the new ones.  Otherwise it raises nothing
    and adds one parameter for each cursor, in order, and each cursor is
    split at its first equals sign. *)
Theorem query_string_params_are_split_at_the_first_equals_sign
    (init_ok : bool) (c : parse_ctx) (out_params : aws_array_list) :
  (forall key_val_array,
     split "&"%char (mem_of c) (query_string (uri c)) = SplitGave key_val_array ->
     Forall (fun key_val => cur_len key_val <= SIZE_MAX) key_val_array) ->
  let r := aws_uri_query_string_params beyond split init_ok c out_params in
  let rc := fst (fst r) in
  let c' := snd (fst r) in
  let out' := snd r in
  (cur_len (query_string (uri c)) = 0 /\
   rc = AWS_OP_SUCCESS /\ c' = c /\ out' = out_params) \/
  (cur_len (query_string (uri c)) <> 0 /\ init_ok = false /\
   rc = AWS_OP_ERR /\ c' = uri_raise_error AWS_ERROR_OOM c /\ out' = out_params) \/
  (cur_len (query_string (uri c)) <> 0 /\ init_ok = true /\
   match split "&"%char (mem_of c) (query_string (uri c)) with
   | SplitFailed error =>
       rc = AWS_OP_ERR /\ c' = uri_raise_error error c /\
       out' = aws_array_list_clear out_params
   | SplitGave key_val_array =>
       Forall (fun key_val =>
                 splits_at_first_equals (mem_of c) beyond key_val
                   (param_value beyond (mem_of c) key_val)) key_val_array /\
       if (length key_val_array <=? room out_params)%nat
       then rc = AWS_OP_SUCCESS /\ c' = c /\
            out' = mk_array_list
                     (items out_params ++
                      map (param_value beyond (mem_of c)) key_val_array)
                     (room out_params - length key_val_array) (alloc out_params)
       else rc = AWS_OP_ERR /\
            c' = uri_raise_error (push_back_error out_params) c /\
            out' = aws_array_list_clear out_params
   end).
Proof.
  intros Hsegs r rc c' out'. subst rc c' out' r.
  unfold aws_uri_query_string_params.
  destruct (_ =? 0) eqn:Hq.
  { apply Z.eqb_eq in Hq. cbn. auto. }
  apply Z.eqb_neq in Hq.
  destruct init_ok; cbn [negb].
  2:{ cbn [fst snd]. right. left. auto 6. }
  change (mem_of (set_live_blocks (S (live_blocks c)) c)) with (mem_of c).
  cbn [uri set_live_blocks live_blocks Nat.pred].
  assert (Hc : mk_ctx (uri c) (state c) (str c) (raised c) (live_blocks c) = c)
    by (destruct c; reflexivity).
  destruct (split _ _ _) as [segs|error] eqn:Hsplit.
  2:{ cbn [fst snd]. right. right. repeat split; auto. }
  specialize (Hsegs _ eq_refl).
  assert (Hall : Forall (fun key_val =>
                   splits_at_first_equals (mem_of c) beyond key_val
                     (param_value beyond (mem_of c) key_val)) segs).
  { rewrite Forall_forall in *. intros kv Hin. apply param_value_splits. auto. }
  right. right. split; [assumption|]. split; [reflexivity|]. split; [assumption|].
  destruct (length segs <=? room out_params)%nat eqn:Hroom.
  - apply Nat.leb_le in Hroom. rewrite s_push_params_ok by assumption.
    change (nonzero AWS_OP_SUCCESS) with false. cbv iota.
    cbn [fst snd]. unfold set_live_blocks. cbn. rewrite Hc. auto.
  - apply Nat.leb_gt in Hroom.
    match goal with
    | |- context [s_push_params beyond (mem_of c) segs out_params ?c1] =>
        destruct (s_push_params_full (mem_of c) segs out_params c1 Hroom)
          as (out & Hrun & Hlen & Hal)
    end.
    rewrite Hrun.
    change (nonzero AWS_OP_ERR) with true. cbv iota.
    cbn [fst snd]. split; [reflexivity|]. split.
    + destruct c; reflexivity.
    + unfold aws_array_list_clear. rewrite Hlen, Hal. reflexivity.
Qed.

End ParamsProofs.

(* ===================================================================== *)
(** * Part XIX: the query parameters, runs and witness                    *)
(* ===================================================================== *)

(** The query [a=1&b&c=] of [h/p?a=1&b&c=] into a list with room for three:
    the parameters are added after the one the list held, and nothing is
    raised. *)
Example params_of_a_query :
  let r := aws_uri_query_string_params (K := release_build) zero split_on_char true
             ParamSamples.parsed ParamSamples.roomy in
  fst (fst r) = AWS_OP_SUCCESS /\
  snd (fst r) = ParamSamples.parsed /\
  items (snd r) =
    [ParamSamples.old_param;
     mk_param (mk_cursor 1 (Some (URI_STR, 4))) (mk_cursor 1 (Some (URI_STR, 6)));
     mk_param (mk_cursor 1 (Some (URI_STR, 8))) zero_cursor;
     mk_param (mk_cursor 1 (Some (URI_STR, 10))) (mk_cursor 0 (Some (URI_STR, 12)))].
Proof. vm_compute. repeat split. Qed.

(** The same into a static list with room for two: the third push fails
    and raises [AWS_ERROR_LIST_EXCEEDS_MAX_SIZE], and the list loses the
    parameter it held before the call as well. *)
Example params_into_a_full_list :
  let r := aws_uri_query_string_params (K := release_build) zero split_on_char true
             ParamSamples.parsed ParamSamples.tight in
  fst (fst r) = AWS_OP_ERR /\
  snd (fst r) = uri_raise_error 16 ParamSamples.parsed /\
  snd r = mk_array_list [] 3 false.
Proof. vm_compute. repeat split. Qed.

(** When [key_val_array] gets no block, [AWS_ERROR_OOM] is raised and the
    list is left alone. *)
Example params_without_memory :
  aws_uri_query_string_params (K := release_build) zero split_on_char false
    ParamSamples.parsed ParamSamples.roomy =
  (AWS_OP_ERR, uri_raise_error 1 ParamSamples.parsed, ParamSamples.roomy).
Proof. reflexivity. Qed.

Lemma query_string_params_witness :
  let c := ParamSamples.parsed in
  let out_params := ParamSamples.roomy in
  (forall key_val_array,
     split_on_char "&"%char (mem_of c) (query_string (uri c)) = SplitGave key_val_array ->
     Forall (fun key_val => cur_len key_val <= SIZE_MAX) key_val_array) /\
  (let r := aws_uri_query_string_params (K := release_build) zero split_on_char true
              c out_params in
   let rc := fst (fst r) in
   let c' := snd (fst r) in
   let out' := snd r in
   (cur_len (query_string (uri c)) = 0 /\
    rc = AWS_OP_SUCCESS /\ c' = c /\ out' = out_params) \/
   (cur_len (query_string (uri c)) <> 0 /\ true = false /\
    rc = AWS_OP_ERR /\
    c' = uri_raise_error (AWS_ERROR_OOM (build_constants := release_build)) c /\
    out' = out_params) \/
   (cur_len (query_string (uri c)) <> 0 /\ true = true /\
    match split_on_char "&"%char (mem_of c) (query_string (uri c)) with
    | SplitFailed error =>
        rc = AWS_OP_ERR /\ c' = uri_raise_error error c /\
        out' = aws_array_list_clear out_params
    | SplitGave key_val_array =>
        Forall (fun key_val =>
                  splits_at_first_equals (mem_of c) zero key_val
                    (param_value zero (mem_of c) key_val)) key_val_array /\
        if (length key_val_array <=? room out_params)%nat
        then rc = AWS_OP_SUCCESS /\ c' = c /\
             out' = mk_array_list
                      (items out_params ++
                       map (param_value zero (mem_of c)) key_val_array)
                      (room out_params - length key_val_array) (alloc out_params)
        else rc = AWS_OP_ERR /\
             c' = uri_raise_error (push_back_error (K := release_build) out_params) c /\
             out' = aws_array_list_clear out_params
    end)).
Proof.
  cbv zeta.
  assert (Hsegs : forall key_val_array,
            split_on_char "&"%char (mem_of ParamSamples.parsed)
              (query_string (uri ParamSamples.parsed)) = SplitGave key_val_array ->
            Forall (fun key_val => cur_len key_val <= SIZE_MAX) key_val_array).
  { intros kva H. vm_compute in H. inversion H; subst.
    repeat apply Forall_cons; try apply Forall_nil; vm_compute; discriminate. }
  split; [exact Hsegs|].
  apply (@query_string_params_are_split_at_the_first_equals_sign release_build zero
           split_on_char true ParamSamples.parsed ParamSamples.roomy Hsegs).
Defined.

(* ===================================================================== *)
(** * Part XX: the builder, proofs                                        *)
(* ===================================================================== *)

(** ** The digits [sprintf] writes *)

Lemma digit_char d :
  0 <= d <= 9 ->
  Z.of_nat (nat_of_ascii (ascii_of_nat (Z.to_nat (48 + d)))) = 48 + d.
Proof.
  intros H. rewrite nat_ascii_embedding by lia. lia.
Qed.

Lemma isdigit_digit d :
  0 <= d <= 9 -> isdigit (ascii_of_nat (Z.to_nat (48 + d))) = true.
Proof.
  intros H. unfold isdigit. rewrite digit_char by assumption.
  apply andb_true_iff. split; apply Z.leb_le; lia.
Qed.

Lemma atoi_digits_app l1 : forall acc l2,
  forallb isdigit l1 = true ->
  atoi_digits acc (l1 ++ l2) = atoi_digits (atoi_digits acc l1) l2.
Proof.
  induction l1 as [|x l1 IH]; intros acc l2 H; [reflexivity|].
  cbn [forallb] in H. apply andb_true_iff in H. destruct H as [Hx H].
  cbn [app atoi_digits]. rewrite Hx. apply IH. assumption.
Qed.

Lemma decimal_digits_spec fuel : forall n,
  0 <= n < 10 ^ Z.of_nat fuel ->
  (1 <= fuel)%nat ->
  forallb isdigit (decimal_digits fuel n) = true /\
  (1 <= length (decimal_digits fuel n) <= fuel)%nat /\
  atoi_digits 0 (decimal_digits fuel n) = n.
Proof.
  induction fuel as [|fuel IH]; intros n Hn Hf; [lia|].
  cbn [decimal_digits].
  assert (Hmod : 0 <= n mod 10 <= 9) by (pose proof (Z.mod_pos_bound n 10); lia).
  assert (Hdiv : n = 10 * (n / 10) + n mod 10) by (apply Z.div_mod; lia).
  destruct (n / 10 =? 0) eqn:E.
  - apply Z.eqb_eq in E. cbn [app forallb length atoi_digits].
    rewrite isdigit_digit by assumption. rewrite digit_char by assumption.
    repeat split; try reflexivity; lia.
  - apply Z.eqb_neq in E.
    assert (Hq : 0 <= n / 10 < 10 ^ Z.of_nat fuel).
    { split; [apply Z.div_pos; lia|].
      apply Z.div_lt_upper_bound; [lia|].
      replace (10 * 10 ^ Z.of_nat fuel) with (10 ^ Z.of_nat (S fuel)); [lia|].
      rewrite Nat2Z.inj_succ, Z.pow_succ_r by lia. reflexivity. }
    assert (Hf' : (1 <= fuel)%nat).
    { destruct fuel; [|lia]. cbn in Hq. lia. }
    destruct (IH _ Hq Hf') as (Hd & Hl & Ha).
    rewrite forallb_app, Hd. cbn [forallb]. rewrite isdigit_digit by assumption.
    rewrite length_app. cbn [length].
    rewrite atoi_digits_app by assumption. rewrite Ha.
    cbn [atoi_digits]. rewrite isdigit_digit by assumption.
    rewrite digit_char by assumption.
    repeat split; try reflexivity; lia.
Qed.

Lemma sprintf_PRIu16_spec n :
  0 <= n <= UINT16_MAX ->
  forallb isdigit (sprintf_PRIu16 n) = true /\
  (1 <= length (sprintf_PRIu16 n) <= 5)%nat /\
  atoi_digits 0 (sprintf_PRIu16 n) = n.
Proof.
  intros H. apply decimal_digits_spec; [|lia].
  unfold UINT16_MAX in H. change (10 ^ Z.of_nat 5) with 100000. lia.
Qed.

Lemma sprintf_PRIu16_ok n :
  0 <= n <= UINT16_MAX -> port_digits_ok (sprintf_PRIu16 n) = true.
Proof.
  intros H. destruct (sprintf_PRIu16_spec n H) as (Hd & Hl & Ha).
  unfold port_digits_ok. rewrite Hd, Ha. cbn [andb].
  apply andb_true_iff. split; apply Z.leb_le; lia.
Qed.

(** ** The parser does not look at the capacity *)

Section UriCapacity.
Context {K : build_constants}.
Variable beyond : ascii.
Variable cap : Z.

Ltac split_ifs :=
  repeat (cbn [uri state str raised live_blocks
               self_size allocator uri_str scheme authority host_name port path
               query_string path_and_query
               set_uri set_state set_str set_raised set_live_blocks uri_raise_error
               set_scheme set_authority set_host_name set_port set_path set_query_string
               set_path_and_query set_uri_str
               buf_len buffer capacity buf_allocator
               cur_len cur_ptr ptr_diff ptr_add fst snd negb andb orb is_null];
          match goal with
          | |- context [if ?b then _ else _] =>
              lazymatch b with
              | context [if _ then _ else _] => fail
              | _ => destruct b
              end
          | |- context [aws_byte_cursor_advance ?x ?n] =>
              lazymatch constr:((x, n)) with
              | context [if _ then _ else _] => fail
              | _ => destruct (aws_byte_cursor_advance x n) as [? ?]
              end
          end).

Ltac open_ctx c :=
  destruct c as [[ss al [bl bf cp ba] sc au ho po pa qs pq] st sr ra lb].

Lemma s_parse_authority_port_capacity c :
  s_parse_authority_port beyond (with_capacity cap c) =
  with_capacity cap (s_parse_authority_port beyond c).
Proof.
  open_ctx c. unfold s_parse_authority_port, with_capacity, mem_of.
  split_ifs; reflexivity.
Qed.

Lemma s_parse_scheme_capacity c :
  s_parse_scheme beyond (with_capacity cap c) =
  with_capacity cap (s_parse_scheme beyond c).
Proof.
  open_ctx c. unfold s_parse_scheme, with_capacity, mem_of.
  split_ifs; reflexivity.
Qed.

Lemma s_parse_authority_capacity c :
  s_parse_authority beyond (with_capacity cap c) =
  with_capacity cap (s_parse_authority beyond c).
Proof.
  open_ctx c. unfold s_parse_authority, with_capacity, mem_of.
  split_ifs; try reflexivity;
    match goal with
    | |- s_parse_authority_port beyond _ = ?R =>
        match R with
        | context [s_parse_authority_port beyond ?Y] =>
            change R with (with_capacity cap (s_parse_authority_port beyond Y));
            rewrite <- (s_parse_authority_port_capacity Y); reflexivity
        end
    end.
Qed.

Lemma s_parse_path_capacity c :
  s_parse_path beyond (with_capacity cap c) =
  with_capacity cap (s_parse_path beyond c).
Proof.
  open_ctx c. unfold s_parse_path, with_capacity, mem_of.
  split_ifs; reflexivity.
Qed.

Lemma s_parse_query_string_capacity c :
  s_parse_query_string (with_capacity cap c) =
  with_capacity cap (s_parse_query_string c).
Proof.
  open_ctx c. unfold s_parse_query_string, with_capacity.
  split_ifs; reflexivity.
Qed.

Lemma s_states_capacity c :
  s_states beyond (state c) (with_capacity cap c) =
  with_capacity cap (s_states beyond (state c) c).
Proof.
  destruct (state c); cbn [s_states];
    auto using s_parse_scheme_capacity, s_parse_authority_capacity,
               s_parse_path_capacity, s_parse_query_string_capacity.
Qed.

Lemma s_parser_loop_capacity fuel : forall c,
  s_parser_loop beyond fuel (with_capacity cap c) =
  match s_parser_loop beyond fuel c with
  | Some c' => Some (with_capacity cap c')
  | None => None
  end.
Proof.
  induction fuel as [|fuel IH]; intros c; cbn [s_parser_loop];
    change (state (with_capacity cap c)) with (state c);
    destruct (_ <? _); try reflexivity.
  rewrite s_states_capacity. apply IH.
Qed.

End UriCapacity.

(** ** The appends of the builder *)

Section BuilderAppends.
Context {K : build_constants} {E : common_errors}.

Lemma nonzero_succ n : nonzero (Z.of_nat (S n)) = true.
Proof. reflexivity. Qed.

Lemma nonzero_length {A : Type} (l : list A) :
  nonzero (Z.of_nat (length l)) = match l with [] => false | _ :: _ => true end.
Proof. destruct l; reflexivity. Qed.

Lemma aws_byte_buf_append_fits from b cap c :
  Z.of_nat (length b) + Z.of_nat (length from) <= cap ->
  cap <= SIZE_MAX ->
  aws_byte_buf_append from (with_uri_text b cap c) =
  with_uri_text (b ++ from) cap c.
Proof.
  intros Hfit Hcap. unfold aws_byte_buf_append, with_uri_text.
  cbn [uri set_uri uri_str set_uri_str capacity buf_len buffer buf_allocator].
  rewrite size_sub_exact by lia.
  destruct (_ <? _) eqn:E'; [apply Z.ltb_lt in E'; lia|].
  rewrite length_app, Nat2Z.inj_add.
  destruct c as [u st sr ra lb]. destruct u. reflexivity.
Qed.

Lemma aws_byte_buf_append_full from b cap c :
  Z.of_nat (length b) <= cap < Z.of_nat (length b) + Z.of_nat (length from) ->
  cap <= SIZE_MAX ->
  aws_byte_buf_append from (with_uri_text b cap c) =
  uri_raise_error AWS_ERROR_DEST_COPY_TOO_SMALL (with_uri_text b cap c).
Proof.
  intros Hfull Hcap. unfold aws_byte_buf_append, with_uri_text.
  cbn [uri set_uri uri_str set_uri_str capacity buf_len buffer buf_allocator].
  rewrite size_sub_exact by lia.
  destruct (_ <? _) eqn:E'; [reflexivity|apply Z.ltb_ge in E'; lia].
Qed.

Lemma params_text_length params :
  params <> [] ->
  Z.of_nat (length (params_text params)) = params_reserve params - 1.
Proof.
  induction params as [|[k v] rest IH]; intros Hne; [contradiction|].
  cbn [params_text params_reserve].
  destruct rest as [|kv rest].
  - cbn [params_reserve]. rewrite length_app. cbn [length]. rewrite app_nil_r. lia.
  - specialize (IH ltac:(discriminate)).
    rewrite length_app. cbn [length]. rewrite length_app. cbn [length].
    rewrite !Nat2Z.inj_add, !Nat2Z.inj_succ, Nat2Z.inj_add, Nat2Z.inj_succ. lia.
Qed.

Lemma params_reserve_nonneg params : 0 <= params_reserve params.
Proof.
  induction params as [|[k v] rest IH]; cbn [params_reserve]; lia.
Qed.

Lemma s_params_size_plain params : forall acc,
  0 <= acc ->
  acc + params_reserve params <= SIZE_MAX ->
  s_params_size params acc = acc + params_reserve params.
Proof.
  induction params as [|[k v] rest IH]; intros acc Hacc Hmax; cbn [s_params_size params_reserve].
  - lia.
  - pose proof (params_reserve_nonneg rest).
    cbn [params_reserve] in Hmax.
    rewrite (size_add_exact (Z.of_nat (length k))) by lia.
    rewrite (size_add_exact (Z.of_nat (length k) + Z.of_nat (length v))) by lia.
    rewrite size_add_exact by lia.
    rewrite IH by lia. lia.
Qed.

Lemma s_append_params_fits params cap c : forall b,
  Z.of_nat (length b) + Z.of_nat (length (params_text params)) <= cap ->
  cap <= SIZE_MAX ->
  s_append_params params (with_uri_text b cap c) =
  with_uri_text (b ++ params_text params) cap c.
Proof.
  induction params as [|[k v] rest IH]; intros b Hfit Hcap; cbn [s_append_params params_text].
  - rewrite app_nil_r. reflexivity.
  - cbn [params_text] in Hfit. rewrite length_app in Hfit. cbn [length] in Hfit.
    rewrite length_app in Hfit.
    rewrite aws_byte_buf_append_fits by lia.
    rewrite aws_byte_buf_append_fits by (rewrite ?length_app; cbn [length]; lia).
    rewrite aws_byte_buf_append_fits by (rewrite ?length_app; cbn [length]; lia).
    destruct rest as [|kv rest].
    + cbn [s_append_params]. f_equal. rewrite app_nil_r.
      repeat rewrite <- app_assoc. reflexivity.
    + cbn [length] in Hfit.
      rewrite aws_byte_buf_append_fits by (rewrite ?length_app; cbn [length]; lia).
      rewrite IH by (rewrite ?length_app; cbn [length]; lia).
      f_equal. repeat rewrite <- app_assoc. reflexivity.
Qed.

End BuilderAppends.

Section BuilderProofs.
Context {K : build_constants} {E : common_errors}.
Variable beyond : ascii.

Ltac lens :=
  repeat (rewrite length_app in * || (progress cbn [length app] in * ));
  try lia.

Ltac size_adds :=
  repeat match goal with
  | |- context [size_add ?a ?b] => rewrite (size_add_exact a b) by lia
  end.

Lemma s_fill_uri_str_fits options cap c :
  Z.of_nat (length (built_text options)) <= cap ->
  cap <= SIZE_MAX ->
  s_fill_uri_str options (with_uri_text [] cap c) =
  with_uri_text (built_text options) cap c.
Proof.
  intros Hfit Hcap. unfold s_fill_uri_str, built_text in *.
  rewrite !nonzero_length.
  destruct (Options.scheme options) as [|s0 sch];
    destruct (nonzero (Options.port options));
    destruct (Options.query_params options) as [params|];
    try destruct (Options.query_string options) as [|q0 qs];
    lens;
    repeat (rewrite aws_byte_buf_append_fits by lens);
    try (rewrite s_append_params_fits by lens);
    f_equal; cbn [app]; repeat rewrite <- app_assoc; cbn [app];
    rewrite ?app_nil_r; reflexivity.
Qed.


Lemma s_buffer_size_enough options :
  0 <= Options.port options <= UINT16_MAX ->
  Options.query_params options <> Some [] ->
  Z.of_nat (length (built_text options)) + 5 <= SIZE_MAX ->
  Z.of_nat (length (built_text options)) <= s_buffer_size options
    <= Z.of_nat (length (built_text options)) + 5.
Proof.
  intros Hport Hq Hmax. unfold s_buffer_size, built_text in *.
  rewrite !nonzero_length.
  destruct (sprintf_PRIu16_spec _ Hport) as (_ & Hdl & _).
  destruct (Options.scheme options) as [|s0 sch];
    destruct (nonzero (Options.port options));
    destruct (Options.query_params options) as [[|kv params]|];
    try destruct (Options.query_string options) as [|q0 qs];
    try (contradiction Hq; reflexivity);
    try (pose proof (params_text_length (kv :: params) ltac:(discriminate)) as Hpt;
         pose proof (params_reserve_nonneg (kv :: params)) as Hpr);
    lens; rewrite ?nonzero_succ; cbv zeta; size_adds;
    try (rewrite s_params_size_plain by lia); lia.
Qed.


Lemma s_init_from_built text cap c :
  s_init_from_uri_str beyond (built_ctx text cap c) =
  match aws_uri_init_parse beyond true text c with
  | Some (rc, c') => Some (rc, if nonzero rc then c' else with_capacity cap c')
  | None => None
  end.
Proof.
  rewrite aws_uri_init_parse_unfold. unfold s_init_from_uri_str.
  change (set_str (aws_byte_cursor_from_buf
                     (uri_str (uri (set_state ON_SCHEME (built_ctx text cap c)))))
            (set_state ON_SCHEME (built_ctx text cap c)))
    with (with_capacity cap (parser_start text c)).
  rewrite s_parser_loop_capacity.
  destruct (s_parser_loop beyond 4 (parser_start text c)) as [c'|]; [|reflexivity].
  change (state (with_capacity cap c')) with (state c').
  destruct (state c'); try reflexivity;
    change (nonzero AWS_OP_ERR) with true; cbv iota;
    destruct c' as [[ss al [bl bf cp ba] sc au ho po pa qs pq] st sr ra lb];
    unfold aws_byte_buf_clean_up, with_capacity; cbn;
    destruct (ba && _); reflexivity.
Qed.

Lemma builder_unfold options c :
  (Options.query_string options = [] \/ Options.query_params options = None) ->
  aws_uri_init_from_builder_options beyond true options c =
  s_init_from_uri_str beyond
    (s_fill_uri_str options (built_ctx [] (s_buffer_size options) c)).
Proof.
  intros Hq. unfold aws_uri_init_from_builder_options.
  assert (Hcheck : nonzero (Z.of_nat (length (Options.query_string options)))
                   && match Options.query_params options with
                      | Some _ => true | None => false end = false).
  { destruct Hq as [-> | ->]; [reflexivity|apply andb_false_r]. }
  rewrite Hcheck. reflexivity.
Qed.


Lemma aws_uri_init_from_builder_options_run
    (options : aws_uri_builder_options) (c : parse_ctx) :
  (Options.query_string options = [] \/ Options.query_params options = None) ->
  Options.query_params options <> Some [] ->
  0 <= Options.port options <= UINT16_MAX ->
  Z.of_nat (length (built_text options)) + 5 <= SIZE_MAX ->
  Z.of_nat (length (built_text options)) <= s_buffer_size options
    <= Z.of_nat (length (built_text options)) + 5 /\
  aws_uri_init_from_builder_options beyond true options c =
  match aws_uri_init_parse beyond true (built_text options) c with
  | Some (rc, c') =>
      Some (rc, if nonzero rc then c' else with_capacity (s_buffer_size options) c')
  | None => None
  end.
Proof.
  intros Hq Hparams Hport Hmax.
  pose proof (s_buffer_size_enough options Hport Hparams Hmax) as Hsize.
  split; [exact Hsize|].
  rewrite builder_unfold by assumption.
  unfold built_ctx at 1.
  rewrite s_fill_uri_str_fits by lia.
  apply s_init_from_built.
Qed.

(** For options with a NULL list of parameters, or a list that is not
    empty, the size the builder computes is enough for the text it means
    to write and at most five bytes more; every append succeeds; and the
    builder returns what [aws_uri_init_parse] returns for that text, the
    capacity of [uri_str] apart. *)
Theorem builder_parses_the_text_it_builds
    (options : aws_uri_builder_options) (c : parse_ctx) :
  (Options.query_string options = [] \/ Options.query_params options = None) ->
  Options.query_params options <> Some [] ->
  0 <= Options.port options <= UINT16_MAX ->
  Z.of_nat (length (built_text options)) + 5 <= SIZE_MAX ->
  Z.of_nat (length (built_text options)) <= s_buffer_size options
    <= Z.of_nat (length (built_text options)) + 5 /\
  aws_uri_init_from_builder_options beyond true options c =
  match aws_uri_init_parse beyond true (built_text options) c with
  | Some (rc, c') =>
      Some (rc, if nonzero rc then c' else with_capacity (s_buffer_size options) c')
  | None => None
  end.
Proof. apply aws_uri_init_from_builder_options_run. Qed.


Lemma sprintf_five_digits p :
  10000 <= p <= UINT16_MAX -> length (sprintf_PRIu16 p) = 5%nat.
Proof.
  intros Hp. unfold UINT16_MAX in Hp. unfold sprintf_PRIu16. cbn [decimal_digits].
  assert (H1 : 1000 <= p / 10) by (apply Z.div_le_lower_bound; lia).
  assert (H2 : 100 <= p / 10 / 10) by (apply Z.div_le_lower_bound; lia).
  assert (H3 : 10 <= p / 10 / 10 / 10) by (apply Z.div_le_lower_bound; lia).
  assert (H4 : 1 <= p / 10 / 10 / 10 / 10) by (apply Z.div_le_lower_bound; lia).
  repeat match goal with
  | |- context [?x =? 0] =>
      let E := fresh "E" in
      destruct (x =? 0) eqn:E;
      [apply Z.eqb_eq in E|apply Z.eqb_neq in E]
  end; repeat rewrite length_app; cbn [length app]; lia.
Qed.

Lemma s_buffer_size_exact options :
  Options.query_params options = None ->
  Options.query_string options = [] ->
  Options.port options = 0 \/ 10000 <= Options.port options <= UINT16_MAX ->
  Z.of_nat (length (built_text options)) + 5 <= SIZE_MAX ->
  s_buffer_size options = Z.of_nat (length (built_text options)).
Proof.
  intros Hq Hqs Hport Hmax. unfold s_buffer_size, built_text in *.
  rewrite Hq, Hqs in *. rewrite !nonzero_length.
  destruct Hport as [Hport|Hport].
  - rewrite Hport in *. change (nonzero 0) with false in *. cbv iota in *.
    destruct (Options.scheme options) as [|s0 sch];
      lens; cbv zeta; size_adds; lia.
  - pose proof (sprintf_five_digits _ Hport) as Hd.
    assert (Hnz : nonzero (Options.port options) = true).
    { unfold nonzero. apply negb_true_iff, Z.eqb_neq. lia. }
    rewrite Hnz in *.
    destruct (Options.scheme options) as [|s0 sch];
      lens; cbv zeta; size_adds; lia.
Qed.

(** For options with a list of no parameters and no port (or a port of
    five digits), no byte is reserved for the question mark the builder
    appends: the append fails, and the builder returns what it returns for
    the same options with a NULL list, with
    [AWS_ERROR_DEST_COPY_TOO_SMALL] raised on the way. *)
Theorem an_empty_parameter_list_leaves_no_room_for_its_question_mark
    (options : aws_uri_builder_options) (c : parse_ctx) :
  Options.query_params options = Some [] ->
  Options.query_string options = [] ->
  Options.port options = 0 \/ 10000 <= Options.port options <= UINT16_MAX ->
  Z.of_nat (length (built_text (without_params options))) + 5 <= SIZE_MAX ->
  aws_uri_init_from_builder_options beyond true options c =
  aws_uri_init_from_builder_options beyond true (without_params options)
    (uri_raise_error AWS_ERROR_DEST_COPY_TOO_SMALL c).
Proof.
  intros Hq Hqs Hport Hmax.
  rewrite !builder_unfold by (auto; right; reflexivity).
  assert (Hsize : s_buffer_size options = s_buffer_size (without_params options)).
  { unfold s_buffer_size, without_params. cbn [Options.scheme Options.host_name
      Options.port Options.path Options.query_params Options.query_string].
    rewrite Hq, Hqs. reflexivity. }
  assert (Hfill : forall c0,
            s_fill_uri_str options c0 =
            aws_byte_buf_append ["?"%char] (s_fill_uri_str (without_params options) c0)).
  { intros c0. unfold s_fill_uri_str, without_params. cbn [Options.scheme
      Options.host_name Options.port Options.path Options.query_params
      Options.query_string].
    rewrite Hq, Hqs. reflexivity. }
  assert (Hexact : s_buffer_size (without_params options) =
                   Z.of_nat (length (built_text (without_params options)))).
  { apply s_buffer_size_exact; auto. }
  rewrite Hfill, Hsize. unfold built_ctx.
  rewrite !s_fill_uri_str_fits by lia.
  rewrite aws_byte_buf_append_full by (cbn [length]; lia).
  reflexivity.
Qed.


Ltac side :=
  first
    [ match goal with
      | H : ?text = _ |- ?text = _ =>
          rewrite H; repeat rewrite <- app_assoc; cbn [app]; rewrite ?app_nil_r;
          reflexivity
      end
    | repeat (rewrite length_app || (progress cbn [length])); lia
    | reflexivity ].

Lemma built_text_is_uri_text sch host port_ p q :
  sch <> [] ->
  built_text (mk_options sch ("/"%char :: p) host port_ None q) =
  uri_text sch host
    (if nonzero port_ then Some (sprintf_PRIu16 port_) else None)
    ("/"%char :: p)
    (match q with [] => None | _ :: _ => Some q end).
Proof.
  intros Hs. unfold built_text, uri_text.
  cbn [Options.scheme Options.host_name Options.port Options.path Options.query_params
       Options.query_string].
  destruct sch as [|s0 sch]; [contradiction|].
  destruct (nonzero port_); destruct q as [|q0 q]; cbn [port_text query_text];
    repeat rewrite <- app_assoc; cbn [app]; rewrite ?app_nil_r; reflexivity.
Qed.

(** Building a uri from a scheme, a host, a port, a path that starts with a
    slash and a query string, and parsing it as the builder does, gives the
    parts back: the bytes under the cursors of the uri are the bytes of the
    options, and the port is the port. *)
Theorem builder_round_trip
    (sch host p q : list ascii) (port_ : Z) (c : parse_ctx) :
  let options := mk_options sch ("/"%char :: p) host port_ None q in
  sch <> [] -> ~ In ":"%char sch ->
  host <> [] -> ~ In ":"%char host -> ~ In "/"%char host ->
  0 <= port_ <= UINT16_MAX ->
  ~ In "?"%char p ->
  Z.of_nat (length (built_text options)) <= Z.shiftr SIZE_MAX 1 ->
  exists c',
    aws_uri_init_from_builder_options beyond true options c = Some (AWS_OP_SUCCESS, c') /\
    cursor_bytes beyond c' (scheme (uri c')) = sch /\
    cursor_bytes beyond c' (host_name (uri c')) = host /\
    port (uri c') = port_ /\
    cursor_bytes beyond c' (path (uri c')) = "/"%char :: p /\
    cursor_bytes beyond c' (query_string (uri c')) = q /\
    cursor_bytes beyond c' (path_and_query (uri c')) =
      ("/"%char :: p) ++ match q with [] => [] | _ :: _ => "?"%char :: q end /\
    mem_of c' = built_text options /\
    live_blocks c' = S (live_blocks c) /\
    raised c' = raised c.
Proof.
  intros options Hs Hsc Hh Hhc Hhs Hport Hp Hlen.
  assert (Hmax : Z.shiftr SIZE_MAX 1 + 5 <= SIZE_MAX) by (vm_compute; discriminate).
  destruct (aws_uri_init_from_builder_options_run options c) as [Hsize Hrun];
    [right; reflexivity|discriminate|exact Hport|lia|].
  rewrite Hrun. clear Hrun.
  assert (Htext : built_text options =
                  uri_text sch host
                    (if nonzero port_ then Some (sprintf_PRIu16 port_) else None)
                    ("/"%char :: p)
                    (match q with [] => None | _ :: _ => Some q end))
    by (apply built_text_is_uri_text; assumption).
  set (pd := if nonzero port_ then Some (sprintf_PRIu16 port_) else None) in *.
  set (qo := match q with [] => None | _ :: _ => Some q end) in *.
  assert (Hpd : port_text_ok pd = true).
  { subst pd. destruct (nonzero port_); [|reflexivity]. apply sprintf_PRIu16_ok, Hport. }
  assert (Hpv : match pd with Some d => atoi_digits 0 d | None => 0 end = port_).
  { subst pd. destruct (nonzero port_) eqn:Hnz.
    - apply sprintf_PRIu16_spec, Hport.
    - unfold nonzero in Hnz. apply negb_false_iff, Z.eqb_eq in Hnz. auto. }
  rewrite Htext in *.
  rewrite (aws_uri_init_parse_full_uri beyond sch host pd p qo c) by assumption.
  change (nonzero AWS_OP_SUCCESS) with false. cbv iota.
  eexists. split; [reflexivity|].
  unfold cursor_bytes, with_capacity, mem_of.
  cbn [uri set_uri set_uri_str uri_str buffer buf_len buf_allocator scheme host_name port
       path query_string path_and_query cur_ptr cur_len live_blocks raised].
  set (text := uri_text sch host pd ("/"%char :: p) qo).
  assert (Hdec : text = (sch ++ [":"%char; "/"%char; "/"%char]) ++
                        (host ++ port_text pd) ++ ("/"%char :: p) ++ query_text qo).
  { unfold text, uri_text. repeat rewrite <- app_assoc. reflexivity. }
  split.
  { apply (bytes_at_eq text beyond [] sch
             ([":"%char; "/"%char; "/"%char] ++ (host ++ port_text pd) ++
              ("/"%char :: p) ++ query_text qo)); side. }
  split.
  { apply (bytes_at_eq text beyond (sch ++ [":"%char; "/"%char; "/"%char]) host
             (port_text pd ++ ("/"%char :: p) ++ query_text qo)); side. }
  split; [exact Hpv|].
  split.
  { apply (bytes_at_eq text beyond
             ((sch ++ [":"%char; "/"%char; "/"%char]) ++ host ++ port_text pd)
             ("/"%char :: p) (query_text qo)); side. }
  split.
  { subst qo. destruct q as [|q0 q]; [reflexivity|]. cbn [query_text] in *.
    apply (bytes_at_eq text beyond
             ((sch ++ [":"%char; "/"%char; "/"%char]) ++ (host ++ port_text pd) ++
              ("/"%char :: p) ++ ["?"%char])
             (q0 :: q) []); side. }
  split.
  { replace (match q with [] => [] | _ :: _ => "?"%char :: q end) with (query_text qo)
      by (subst qo; destruct q; reflexivity).
    apply (bytes_at_eq text beyond
             ((sch ++ [":"%char; "/"%char; "/"%char]) ++ host ++ port_text pd)
             (("/"%char :: p) ++ query_text qo) []); side. }
  auto.
Qed.


Lemma keeps_its_buffer_refl c : owns_its_buffer c -> keeps_its_buffer c c.
Proof. intros H. split; auto. Qed.

Lemma keeps_its_buffer_trans a b c :
  keeps_its_buffer a b -> keeps_its_buffer b c -> keeps_its_buffer a c.
Proof.
  unfold keeps_its_buffer. intros (_ & L1 & C1) (H2 & L2 & C2).
  repeat split; try apply H2; congruence.
Qed.

Lemma aws_byte_buf_append_keeps from c :
  owns_its_buffer c -> keeps_its_buffer c (aws_byte_buf_append from c).
Proof.
  unfold keeps_its_buffer, owns_its_buffer, aws_byte_buf_append. intros [Ha Hb].
  destruct (_ <? _); cbn; [auto|].
  rewrite Ha. destruct (buffer (uri_str (uri c))); [|contradiction].
  repeat split; auto; discriminate.
Qed.

Lemma append_then from a c :
  keeps_its_buffer a c -> keeps_its_buffer a (aws_byte_buf_append from c).
Proof.
  intros H. eapply keeps_its_buffer_trans; [exact H|].
  apply aws_byte_buf_append_keeps, H.
Qed.

Lemma s_append_params_keeps params : forall a c,
  keeps_its_buffer a c -> keeps_its_buffer a (s_append_params params c).
Proof.
  induction params as [|[k v] rest IH]; intros a c H; cbn [s_append_params]; [auto|].
  destruct rest as [|kv rest].
  - cbn [s_append_params]. auto using append_then.
  - apply IH. auto using append_then.
Qed.

Lemma s_fill_uri_str_keeps options c :
  owns_its_buffer c -> keeps_its_buffer c (s_fill_uri_str options c).
Proof.
  intros Ho. pose proof (keeps_its_buffer_refl c Ho) as H0.
  unfold s_fill_uri_str.
  destruct (nonzero (Z.of_nat (length (Options.scheme options))));
    destruct (nonzero (Options.port options));
    destruct (Options.query_params options) as [params|];
    try destruct (nonzero (Z.of_nat (length (Options.query_string options))));
    auto 10 using append_then, s_append_params_keeps.
Qed.

Lemma s_init_from_uri_str_gives_back c :
  owns_its_buffer c ->
  exists rc c',
    s_init_from_uri_str beyond c = Some (rc, c') /\
    ((rc = AWS_OP_SUCCESS /\ state c' = FINISHED /\ live_blocks c' = live_blocks c /\
      uri_str (uri c') = uri_str (uri c)) \/
     (rc = AWS_OP_ERR /\ state c' = ERROR /\ uri c' = zero_uri /\
      live_blocks c' = Nat.pred (live_blocks c) /\
      raised c' = AWS_ERROR_MALFORMED_INPUT_STRING)).
Proof.
  intros [Ha Hb]. unfold s_init_from_uri_str.
  match goal with
  | |- context [s_parser_loop beyond 4 ?c0] =>
      destruct (s_parser_loop_total beyond 4 c0) as (c' & Hrun & Hend & Hu & Hl);
        [cbn; lia|];
      assert (Hq : quiet_or_malformed c0 c')
        by (apply (s_parser_loop_raises beyond 4 c0 c');
            [cbn; discriminate|exact Hrun]);
      rewrite Hrun
  end.
  cbn in Hu, Hl.
  destruct (state c') eqn:Hst; cbn in Hend; try lia.
  - exists AWS_OP_SUCCESS, c'. split; [reflexivity|]. left. auto.
  - eexists _, _. split; [reflexivity|]. right.
    assert (Hr : raised c' = AWS_ERROR_MALFORMED_INPUT_STRING).
    { destruct Hq as [[Hne _]|[_ Hr]]; [congruence|exact Hr]. }
    unfold aws_byte_buf_clean_up. rewrite Hu, Ha.
    destruct (buffer (uri_str (uri c))); [|contradiction].
    cbn. rewrite Hl, Hst. auto 6.
Qed.

Lemma builder_cases alloc_ok options c :
  aws_uri_init_from_builder_options beyond alloc_ok options c =
  if nonzero (Z.of_nat (length (Options.query_string options)))
     && match Options.query_params options with Some _ => true | None => false end
  then Some (AWS_OP_ERR, uri_raise_error AWS_ERROR_INVALID_ARGUMENT c)
  else if alloc_ok then
    s_init_from_uri_str beyond
      (s_fill_uri_str options (built_ctx [] (s_buffer_size options) c))
  else
    Some (AWS_OP_ERR,
          uri_raise_error AWS_ERROR_OOM
            (set_uri (mk_uri sizeof_aws_uri true zero_buf zero_cursor zero_cursor
                        zero_cursor 0 zero_cursor zero_cursor zero_cursor) c)).
Proof.
  unfold aws_uri_init_from_builder_options.
  destruct (_ && _); [reflexivity|]. destruct alloc_ok; reflexivity.
Qed.

(** [aws_uri_init_from_builder_options] returns for all options, and holds
    a block of the allocator afterwards only when it returns success: with a
    query string and a list of parameters both given it raises
    [AWS_ERROR_INVALID_ARGUMENT] and touches nothing else; without memory
    it returns with [self_size] and [allocator] set and [AWS_ERROR_OOM]
    raised; and when the text it built does not parse, the block is
    released and the struct zeroed, with
    [AWS_ERROR_MALFORMED_INPUT_STRING] raised. *)
Theorem builder_never_leaks_its_buffer
    (alloc_ok : bool) (options : aws_uri_builder_options) (c : parse_ctx) :
  exists rc c',
    aws_uri_init_from_builder_options beyond alloc_ok options c = Some (rc, c') /\
    ((rc = AWS_OP_SUCCESS /\ state c' = FINISHED /\
      live_blocks c' = S (live_blocks c) /\
      capacity (uri_str (uri c')) = s_buffer_size options) \/
     (rc = AWS_OP_ERR /\ live_blocks c' = live_blocks c /\
      ((Options.query_string options <> [] /\ Options.query_params options <> None /\
        c' = uri_raise_error AWS_ERROR_INVALID_ARGUMENT c) \/
       (alloc_ok = false /\ raised c' = AWS_ERROR_OOM /\
        uri c' = mk_uri sizeof_aws_uri true zero_buf zero_cursor zero_cursor
                   zero_cursor 0 zero_cursor zero_cursor zero_cursor) \/
       (alloc_ok = true /\ state c' = ERROR /\ uri c' = zero_uri /\
        raised c' = AWS_ERROR_MALFORMED_INPUT_STRING)))).
Proof.
  rewrite builder_cases. rewrite nonzero_length.
  destruct (_ && _) eqn:Hcheck.
  { eexists _, _. split; [reflexivity|]. right.
    split; [reflexivity|]. split; [reflexivity|]. left.
    apply andb_true_iff in Hcheck. destruct Hcheck as [H1 H2].
    destruct (Options.query_string options); [discriminate|].
    destruct (Options.query_params options); [|discriminate].
    repeat split; discriminate. }
  destruct alloc_ok.
  2:{ eexists _, _. split; [reflexivity|]. right.
      split; [reflexivity|]. split; [reflexivity|]. right. left. auto. }
  set (c0 := built_ctx [] (s_buffer_size options) c).
  assert (Ho : owns_its_buffer c0) by (split; [reflexivity|discriminate]).
  destruct (s_fill_uri_str_keeps options c0 Ho) as (Hf & Lf & Cf).
  destruct (s_init_from_uri_str_gives_back _ Hf)
    as (rc & c' & Hrun & [(-> & Hst & Hl & Hu)|(-> & Hst & Hz & Hl & Hr)]);
    rewrite Hrun; eexists _, c'; (split; [reflexivity|]).
  - left. split; [reflexivity|]. split; [assumption|].
    split; [rewrite Hl, Lf; reflexivity|]. rewrite Hu, Cf. reflexivity.
  - right. split; [reflexivity|]. split; [rewrite Hl, Lf; reflexivity|].
    right. right. auto.
Qed.

End BuilderProofs.

(* ===================================================================== *)
(** * Part XXI: the builder, runs and witnesses                           *)
(* ===================================================================== *)

(** The options for [https://example.com:443/path?x=1]: 34 bytes are asked
    for, 32 are written, and the parse is that of the string. *)
Example builder_of_full_options :
  match aws_uri_init_from_builder_options (K := release_build) (E := sample_errors)
          zero true OptionSamples.full sample_ctx with
  | Some (rc, c) =>
      rc = AWS_OP_SUCCESS /\
      uri_str (uri c) = mk_buf 32 (Some UriSamples.full_uri) 34 true /\
      host_name (uri c) = mk_cursor 11 (Some (URI_STR, 8)) /\
      port (uri c) = 443 /\
      query_string (uri c) = mk_cursor 3 (Some (URI_STR, 29))
  | None => False
  end.
Proof. vm_compute. repeat split. Qed.

(** [example.com] with a list of no parameters: 11 bytes are asked for, the
    question mark does not fit, and the builder returns success with
    [AWS_ERROR_DEST_COPY_TOO_SMALL] as the last error. *)
Example builder_with_no_params :
  match aws_uri_init_from_builder_options (K := release_build) (E := sample_errors)
          zero true OptionSamples.host_with_no_params sample_ctx with
  | Some (rc, c) =>
      rc = AWS_OP_SUCCESS /\
      uri_str (uri c) = mk_buf 11 (Some UriParts.example_com) 11 true /\
      raised c = 15
  | None => False
  end.
Proof. vm_compute. repeat split. Qed.

(** Without memory for the buffer the builder returns [AWS_OP_ERR] with
    [AWS_ERROR_OOM] as the last error, no block held, and [self_size] and
    [allocator] set. *)
Example builder_without_memory :
  match aws_uri_init_from_builder_options (K := release_build) (E := sample_errors)
          zero false OptionSamples.full sample_ctx with
  | Some (rc, c) =>
      rc = AWS_OP_ERR /\ raised c = 1 /\ live_blocks c = live_blocks sample_ctx /\
      self_size (uri c) = 184 /\ allocator (uri c) = true
  | None => False
  end.
Proof. vm_compute. repeat split. Qed.

Lemma builder_parses_the_text_it_builds_witness :
  let options := OptionSamples.full in
  (Options.query_string options = [] \/ Options.query_params options = None) /\
  Options.query_params options <> Some [] /\
  0 <= Options.port options <= UINT16_MAX /\
  Z.of_nat (length (built_text options)) + 5 <= SIZE_MAX /\
  (Z.of_nat (length (built_text options)) <= s_buffer_size options
     <= Z.of_nat (length (built_text options)) + 5 /\
   aws_uri_init_from_builder_options (K := release_build) (E := sample_errors)
     zero true options sample_ctx =
   match aws_uri_init_parse (K := release_build) zero true (built_text options)
           sample_ctx with
   | Some (rc, c') =>
       Some (rc, if nonzero rc then c' else with_capacity (s_buffer_size options) c')
   | None => None
   end).
Proof.
  cbv zeta.
  split; [right; reflexivity|]. split; [discriminate|].
  split; [vm_compute; split; discriminate|]. split; [vm_compute; discriminate|].
  apply (@builder_parses_the_text_it_builds release_build sample_errors zero
           OptionSamples.full sample_ctx).
  - right; reflexivity.
  - discriminate.
  - vm_compute; split; discriminate.
  - vm_compute; discriminate.
Defined.

Lemma an_empty_parameter_list_witness :
  let options := OptionSamples.host_with_no_params in
  Options.query_params options = Some [] /\
  Options.query_string options = [] /\
  (Options.port options = 0 \/ 10000 <= Options.port options <= UINT16_MAX) /\
  Z.of_nat (length (built_text (without_params options))) + 5 <= SIZE_MAX /\
  aws_uri_init_from_builder_options (K := release_build) (E := sample_errors)
    zero true options sample_ctx =
  aws_uri_init_from_builder_options (K := release_build) (E := sample_errors)
    zero true (without_params options)
    (uri_raise_error (AWS_ERROR_DEST_COPY_TOO_SMALL (common_errors := sample_errors))
       sample_ctx).
Proof.
  cbv zeta.
  split; [reflexivity|]. split; [reflexivity|]. split; [left; reflexivity|].
  split; [vm_compute; discriminate|].
  apply (@an_empty_parameter_list_leaves_no_room_for_its_question_mark
           release_build sample_errors zero OptionSamples.host_with_no_params sample_ctx).
  - reflexivity.
  - reflexivity.
  - left; reflexivity.
  - vm_compute; discriminate.
Defined.

Lemma builder_round_trip_witness :
  let options :=
    mk_options UriParts.https ("/"%char :: UriParts.path_tail) UriParts.example_com 443
      None UriParts.x_is_1 in
  UriParts.https <> [] /\ ~ In ":"%char UriParts.https /\
  UriParts.example_com <> [] /\ ~ In ":"%char UriParts.example_com /\
  ~ In "/"%char UriParts.example_com /\
  0 <= 443 <= UINT16_MAX /\
  ~ In "?"%char UriParts.path_tail /\
  exists c',
    aws_uri_init_from_builder_options (K := release_build) (E := sample_errors)
      zero true options sample_ctx = Some (AWS_OP_SUCCESS, c') /\
    cursor_bytes zero c' (scheme (uri c')) = UriParts.https /\
    cursor_bytes zero c' (host_name (uri c')) = UriParts.example_com /\
    port (uri c') = 443 /\
    cursor_bytes zero c' (path (uri c')) = "/"%char :: UriParts.path_tail /\
    cursor_bytes zero c' (query_string (uri c')) = UriParts.x_is_1 /\
    cursor_bytes zero c' (path_and_query (uri c')) =
      ("/"%char :: UriParts.path_tail) ++ "?"%char :: UriParts.x_is_1 /\
    mem_of c' = built_text options /\
    live_blocks c' = S (live_blocks sample_ctx) /\
    raised c' = raised sample_ctx.
Proof.
  cbv zeta.
  repeat (split; [side_condition|]).
  apply (@builder_round_trip release_build sample_errors zero UriParts.https
           UriParts.example_com UriParts.path_tail UriParts.x_is_1 443 sample_ctx);
    side_condition.
Defined.
